(** * Ares controller (gupb/controller/ares/ares_controller.py)

    A shallow embedding of the controller's knowledge map, its breadth-first
    path search, the path-to-action translation and the per-turn decision
    policy, followed by the properties established about them.

    Conventions of the embedding:
    - Python integers are [Z]; Python lists are [list], indexed the Python
      way (negative indices count from the end, anything else out of range
      raises IndexError);
    - a computation that may raise returns [res]; the methods that mutate
      the map or the knowledge base return [outcome], which keeps the state
      reached when the exception was raised;
    - the [while] loops of [shortestPath] run on fuel computed from the map
      size; running out of it ([OutOfFuel], [Hangs]) is not an exception and
      is never caught by [try_except]; the lemmas below show that it does
      not happen;
    - [random.choice] takes its draw as an argument. *)

From stdpp Require Import base list strings sets relations.
From Stdlib Require Import ZArith Lia.

Local Open Scope Z_scope.

(** ** Exceptions *)

Inductive exn := AttributeError | IndexError | KeyError | TypeError | WrongTargetFace.

Inductive res (A : Type) :=
| Ok (a : A)
| Raise (e : exn)
| OutOfFuel.
Arguments Ok {A} a.
Arguments Raise {A} e.
Arguments OutOfFuel {A}.

Definition rbind {A B} (m : res A) (f : A -> res B) : res B :=
  match m with
  | Ok a => f a
  | Raise e => Raise e
  | OutOfFuel => OutOfFuel
  end.

Notation "x <~ m ;; k" := (rbind m (fun x => k))
  (at level 100, m at next level, right associativity, only parsing).

(** The result of a method that mutates an object of type [S]: the state
    is kept on both exits. *)
Inductive outcome (S A : Type) :=
| Returns (a : A) (s : S)
| Throws (e : exn) (s : S)
| Hangs.
Arguments Returns {S A} a s.
Arguments Throws {S A} e s.
Arguments Hangs {S A}.

(** A computation that leaves the object as it is. *)
Definition lift {S A} (s : S) (r : res A) : outcome S A :=
  match r with
  | Ok a => Returns a s
  | Raise e => Throws e s
  | OutOfFuel => Hangs
  end.

(** [try: body except: handler]: every exception is caught. *)
Definition try_except {S A} (body : outcome S A) (handler : S -> outcome S A) :
    outcome S A :=
  match body with
  | Returns a s => Returns a s
  | Throws _ s => handler s
  | Hangs => Hangs
  end.

(** ** The model types of gupb.model *)

Module coordinates.
(** Modelled from the spec: [coordinates.Coords] of gupb.model, which is
    not under src/: an integer pair (x, y) with equality by value. *)
Record Coords := mk { x : Z; y : Z }.

(** Modelled from the spec: the addition of coordinates, used to add the
    unit vector of a facing to a position. *)
Definition add (a b : Coords) : Coords := mk (x a + x b) (y a + y b).
End coordinates.
Abbreviation Coords := coordinates.Coords.

#[global] Instance Coords_eq_dec : EqDecision Coords.
Proof. solve_decision. Defined.

Module characters.
(** Modelled from the spec: [characters.Action] of gupb.model, which is not
    under src/: the fixed enumeration of actions. *)
Inductive Action := TURN_LEFT | TURN_RIGHT | STEP_FORWARD | ATTACK | DO_NOTHING.

(** Modelled from the spec: [characters.Facing] of gupb.model. *)
Inductive Facing := UP | DOWN | LEFT | RIGHT.

(** Modelled from the spec: the unit vector of a facing, [Facing.value].
    They are the vectors for which [Map.getTargetFace] below names the step
    it is given. *)
Definition value (f : Facing) : Coords :=
  match f with
  | UP => coordinates.mk 0 (-1)
  | DOWN => coordinates.mk 0 1
  | LEFT => coordinates.mk (-1) 0
  | RIGHT => coordinates.mk 1 0
  end.

(** Modelled from the spec: [characters.ChampionDescription] of gupb.model;
    the controller reads its [facing] only. *)
Record ChampionDescription := mkChampion {
  controller_name : string;
  health : Z;
  weapon : string;
  facing : Facing
}.
End characters.
Export characters.

#[global] Instance Action_eq_dec : EqDecision Action.
Proof. solve_decision. Defined.
#[global] Instance Facing_eq_dec : EqDecision Facing.
Proof. solve_decision. Defined.

(** ** The effect of actions *)

(** Modelled from the spec: the facing after a quarter turn to the right,
    [Facing.turn_right] of gupb.model (not under src/): the clockwise
    pairs up-right, right-down, down-left, left-up, those for which
    [dirChange] emits one TURN_RIGHT. *)
Definition turn_right (f : Facing) : Facing :=
  match f with UP => RIGHT | RIGHT => DOWN | DOWN => LEFT | LEFT => UP end.

(** Modelled from the spec: the facing after a quarter turn to the left,
    [Facing.turn_left] of gupb.model (not under src/), the inverse of the
    turn to the right. *)
Definition turn_left (f : Facing) : Facing :=
  match f with UP => LEFT | LEFT => DOWN | DOWN => RIGHT | RIGHT => UP end.

(** Modelled from the spec: what an action does to the position and the
    facing of a champion whose way is free: a turn rotates it, a step
    moves it by the unit vector of its facing, and the other actions
    leave both as they are. *)
Definition act (s : Coords * Facing) (a : Action) : Coords * Facing :=
  match a with
  | TURN_LEFT => (fst s, turn_left (snd s))
  | TURN_RIGHT => (fst s, turn_right (snd s))
  | STEP_FORWARD => (coordinates.add (value (snd s)) (fst s), snd s)
  | _ => s
  end.

Module tiles.
(** Modelled from the spec: the descriptions of effects, weapons and
    consumables of gupb.model (not under src/), each with the one field the
    controller compares. *)
Record EffectDescription := mkEffect { eff_type : string }.
Record WeaponDescription := mkWeapon { weapon_name : string }.
Record ConsumableDescription := mkConsumable { consumable_name : string }.

(** Modelled from the spec: [tiles.TileDescription] of gupb.model, the
    knowledge of an observed tile: terrain type, weapon, occupant,
    consumable and active effects. *)
Record TileDescription := mkTileDescription {
  type : string;
  loot : option WeaponDescription;
  character : option ChampionDescription;
  consumable : option ConsumableDescription;
  effects : list EffectDescription
}.

(** Modelled from the spec: a [tiles.Tile] object of the static layout of a
    freshly loaded arena, the other type [tilePassable] knows: a static
    passability and possibly a weapon, and no champion, consumable or
    effect yet. *)
Record Tile := mkTile {
  passable : bool;
  tile_loot : option WeaponDescription
}.

(** What a cell of the knowledge map holds once it is known. *)
Inductive MapTile :=
| Described (d : TileDescription)
| Static (t : Tile).
End tiles.
Export tiles.

(** Modelled from the spec: [characters.ChampionKnowledge] of gupb.model,
    the observation of a turn; [visible_tiles] is a dictionary, kept in the
    order of its items. *)
Record ChampionKnowledge := mkKnowledge {
  k_position : Coords;
  no_of_champions_alive : Z;
  visible_tiles : list (Coords * TileDescription)
}.

(** Modelled from the spec: what [arenas.Arena.load] of gupb.model (not
    under src/) returns for the name of an arena description: the size of
    the arena and its terrain. *)
Record Arena := mkArena {
  size : Z * Z;
  terrain : list (Coords * Tile)
}.

(** ** Python lists *)

(** [l[i]] *)
Definition py_get {A} (l : list A) (i : Z) : res A :=
  let n := Z.of_nat (length l) in
  let j := if i <? 0 then i + n else i in
  if (0 <=? j) && (j <? n) then
    match l !! Z.to_nat j with
    | Some a => Ok a
    | None => Raise IndexError
    end
  else Raise IndexError.

(** [l[i] = a] *)
Definition py_set {A} (l : list A) (i : Z) (a : A) : res (list A) :=
  let n := Z.of_nat (length l) in
  let j := if i <? 0 then i + n else i in
  if (0 <=? j) && (j <? n) then Ok (<[Z.to_nat j := a]> l)
  else Raise IndexError.

(** [g[i][j]] *)
Definition py_get2 {A} (g : list (list A)) (i j : Z) : res A :=
  row <~ py_get g i ;; py_get row j.

(** [g[i][j] = a] *)
Definition py_set2 {A} (g : list (list A)) (i j : Z) (a : A) : res (list (list A)) :=
  row <~ py_get g i ;;
  row' <~ py_set row j a ;;
  py_set g i row'.

(** [range(n)] *)
Definition range (n : Z) : list Z := seqZ 0 n.

(** [[f(i) for i in l]] for an [f] that may raise. *)
Fixpoint mapM {A B} (f : A -> res B) (l : list A) : res (list B) :=
  match l with
  | [] => Ok []
  | a :: l' => b <~ f a ;; bs <~ mapM f l' ;; Ok (b :: bs)
  end.

(** ** Tile predicates (module level functions of the source) *)

(** [POSSIBLE_ACTIONS] *)
Definition POSSIBLE_ACTIONS : list Action :=
  [TURN_LEFT; TURN_RIGHT; STEP_FORWARD; ATTACK].

Definition tileIsMist_effects (effs : list EffectDescription) : bool :=
  existsb (fun e => String.eqb (eff_type e) "mist") effs.

(** [tileIsMist(tile)]; reading [.effects] of [None] raises. *)
Definition tileIsMist (tile : option MapTile) : res bool :=
  match tile with
  | None => Raise AttributeError
  | Some (Described d) => Ok (tileIsMist_effects (effects d))
  | Some (Static _) => Ok false
  end.

(** [tilePassable(tile)]; never raises: any other object is not passable. *)
Definition tilePassable (tile : option MapTile) : bool :=
  match tile with
  | Some (Described d) =>
      if String.eqb (type d) "land" || String.eqb (type d) "menhir" then true else false
  | Some (Static t) => passable t
  | None => false
  end.

(** ** class Map *)

Record Map := mkMap {
  MAPSIZE : Z * Z;
  map : list (list (option MapTile));
  opponentsAlive : Z;
  description : option ChampionDescription;
  position : option Coords;
  opponents : list (Coords * ChampionDescription);
  closestMist : option Coords;
  menhir : option Coords
}.

Definition set_map (m : Map) (g : list (list (option MapTile))) : Map :=
  mkMap (MAPSIZE m) g (opponentsAlive m) (description m) (position m)
        (opponents m) (closestMist m) (menhir m).

Definition set_menhir (m : Map) (c : option Coords) : Map :=
  mkMap (MAPSIZE m) (map m) (opponentsAlive m) (description m) (position m)
        (opponents m) (closestMist m) c.

(** [Map.initMap]: a grid of [None], then the terrain written into it. *)
Definition blank (sz : Z * Z) : list (list (option MapTile)) :=
  (fun _ => (fun _ => None) <$> range (snd sz)) <$> range (fst sz).

Fixpoint initMap_terrain (g : list (list (option MapTile)))
    (t : list (Coords * Tile)) : res (list (list (option MapTile))) :=
  match t with
  | [] => Ok g
  | (c, tile) :: t' =>
      g' <~ py_set2 g (coordinates.x c) (coordinates.y c) (Some (Static tile)) ;;
      initMap_terrain g' t'
  end.

Definition initMap (sz : Z * Z) (t : list (Coords * Tile)) :
    res (list (list (option MapTile))) :=
  initMap_terrain (blank sz) t.

(** [Map.__init__] *)
Definition Map_init (a : Arena) : res Map :=
  g <~ initMap (size a) (terrain a) ;;
  Ok (mkMap (size a) g 0 None None [] None None).

(** The dictionary lookup [visible_tiles[position]]. *)
Fixpoint dict_get {V} (d : list (Coords * V)) (k : Coords) : res V :=
  match d with
  | [] => Raise KeyError
  | (k', v) :: d' => if bool_decide (k' = k) then Ok v else dict_get d' k
  end.

(** The loop of [Map.update] over the visible tiles. *)
Fixpoint update_tiles (m : Map) (vt : list (Coords * TileDescription)) :
    outcome Map unit :=
  match vt with
  | [] => Returns tt m
  | (coord, tile) :: vt' =>
      match lift m (py_set2 (map m) (coordinates.x coord) (coordinates.y coord)
                            (Some (Described tile))) with
      | Returns g _ =>
          let m1 := set_map m g in
          let m2 := match menhir m1 with
                    | None => if String.eqb (type tile) "menhir"
                              then set_menhir m1 (Some coord) else m1
                    | Some _ => m1
                    end in
          update_tiles m2 vt'
      | Throws e m' => Throws e m'
      | Hangs => Hangs
      end
  end.

(** [Map.update] *)
Definition Map_update (m : Map) (k : ChampionKnowledge) : outcome Map unit :=
  let m1 := mkMap (MAPSIZE m) (map m) (opponentsAlive m) (description m)
                  (Some (k_position k)) (opponents m) (closestMist m) (menhir m) in
  match lift m1 (dict_get (visible_tiles k) (k_position k)) with
  | Returns t _ =>
      let m2 := mkMap (MAPSIZE m1) (map m1) (no_of_champions_alive k - 1)
                      (character t) (position m1) (opponents m1) (closestMist m1)
                      (menhir m1) in
      update_tiles m2 (visible_tiles k)
  | Throws e m' => Throws e m'
  | Hangs => Hangs
  end.

(** [Map.taxiDistance] *)
Definition taxiDistance (root target : Coords) : Z :=
  Z.abs (coordinates.x root - coordinates.x target)
  + Z.abs (coordinates.y root - coordinates.y target).

(** [Map.isInMap] *)
Definition isInMap (m : Map) (coord : Coords) : bool :=
  (coordinates.x coord <? fst (MAPSIZE m)) && (0 <=? coordinates.x coord)
  && (coordinates.y coord <? snd (MAPSIZE m)) && (0 <=? coordinates.y coord).

(** The list [all] of [Map.getNeighbours]. *)
Definition all_around (root : Coords) : list Coords :=
  [ coordinates.mk (coordinates.x root + 1) (coordinates.y root);
    coordinates.mk (coordinates.x root - 1) (coordinates.y root);
    coordinates.mk (coordinates.x root) (coordinates.y root + 1);
    coordinates.mk (coordinates.x root) (coordinates.y root - 1) ].

(** The test of [Map.getNeighbours] on one candidate:
    [(tilePassable(tile) and not tileIsMist(tile)) or mode != '']. *)
Definition neighbour_ok (m : Map) (mode : string) (new : Coords) : res bool :=
  if isInMap m new then
    tile <~ py_get2 (map m) (coordinates.x new) (coordinates.y new) ;;
    if tilePassable tile then
      mist <~ tileIsMist tile ;;
      Ok (negb mist || negb (String.eqb mode ""))
    else Ok (negb (String.eqb mode ""))
  else Ok false.

Fixpoint filterM {A} (f : A -> res bool) (l : list A) : res (list A) :=
  match l with
  | [] => Ok []
  | a :: l' =>
      b <~ f a ;;
      rest <~ filterM f l' ;;
      Ok (if b then a :: rest else rest)
  end.

(** [Map.getNeighbours] *)
Definition getNeighbours (m : Map) (root : Coords) (mode : string) : res (list Coords) :=
  filterM (neighbour_ok m mode) (all_around root).

(** [Map.getTargetFace] *)
Definition getTargetFace (X Y : Coords) : res Facing :=
  let x := coordinates.x X - coordinates.x Y in
  let y := coordinates.y X - coordinates.y Y in
  if x =? 0 then Ok (if 0 <? y then UP else DOWN)
  else if negb (y =? 0) then Raise WrongTargetFace
  else Ok (if 0 <? x then LEFT else RIGHT).

(** [Map.dirChange] *)
Definition dirChange (current : Coords) (face : Facing) (step : Coords) :
    res (list Action * Facing) :=
  let current_face := face in
  target_face <~ getTargetFace current step ;;
  if bool_decide (target_face = current_face) then Ok ([], current_face)
  else if existsb (fun axis => bool_decide (target_face ∈ axis)
                               && bool_decide (current_face ∈ axis))
                  [[UP; DOWN]; [RIGHT; LEFT]]
  then Ok ([TURN_RIGHT; TURN_RIGHT], target_face)
  else
    let arr := [current_face; target_face] in
    let right_possibilities :=
      [[UP; RIGHT]; [RIGHT; DOWN]; [DOWN; LEFT]; [LEFT; UP]] in
    if bool_decide (arr ∈ right_possibilities)
    then Ok ([TURN_RIGHT], target_face)
    else Ok ([TURN_LEFT], target_face).

(** The name that the loop of [Map.showActions] gives an action. *)
Definition showActions_name (a : Action) : string :=
  match a with
  | STEP_FORWARD => "FORWARD"
  | TURN_RIGHT => "RIGHT"
  | TURN_LEFT => "LEFT"
  | DO_NOTHING => "NONE"
  | ATTACK => "ATTACK"
  end.

(** [Map.showActions]: the loop names each action in the local
    [str_action], and nothing is returned. *)
Definition showActions (actions : list Action) : unit :=
  let str_action := foldl (fun _ a => showActions_name a) "" actions in tt.

(** The loop of [Map.getActions]. *)
Fixpoint getActions_loop (current_pos : Coords) (current_face : Facing)
    (path : list Coords) : res (list Action) :=
  match path with
  | [] => Ok []
  | next_pos :: path' =>
      d <~ dirChange current_pos current_face next_pos ;;
      rest <~ getActions_loop next_pos (snd d) path' ;;
      Ok (fst d ++ STEP_FORWARD :: rest)
  end.

(** [Map.getActions]; [self.description.facing] raises when there is no
    description yet. *)
Definition getActions (m : Map) (position : Coords) (path : list Coords) :
    res (list Action) :=
  match description m with
  | None => Raise AttributeError
  | Some d => getActions_loop position (facing d) path
  end.


(** The goals [Map.targetFound] tells apart by [type(target)]. *)
Inductive Target :=
| TStr (s : string)
| TCoords (c : Coords)
| TTile (d : TileDescription)
| TWeapon (w : WeaponDescription)
| TConsumable (c : ConsumableDescription)
| TEffect (e : EffectDescription).

(** Attribute reads on a cell of the map.  [None] has none of them; a
    [TileDescription] has neither [passable] nor [description()]; a [Tile]
    object has no [type]. *)
Definition tile_passable_attr (tile : option MapTile) : res bool :=
  match tile with
  | Some (Static t) => Ok (passable t)
  | _ => Raise AttributeError
  end.

Definition tile_type_attr (tile : option MapTile) : res string :=
  match tile with
  | Some (Described d) => Ok (type d)
  | _ => Raise AttributeError
  end.

Definition tile_description_loot (tile : option MapTile) : res (option WeaponDescription) :=
  match tile with
  | Some (Static t) => Ok (tile_loot t)
  | _ => Raise AttributeError
  end.

Definition tile_consumable_attr (tile : option MapTile) : res (option ConsumableDescription) :=
  match tile with
  | Some (Described d) => Ok (consumable d)
  | Some (Static _) => Ok None
  | None => Raise AttributeError
  end.

Definition tile_effects_attr (tile : option MapTile) : res (list EffectDescription) :=
  match tile with
  | Some (Described d) => Ok (effects d)
  | Some (Static _) => Ok []
  | None => Raise AttributeError
  end.

Definition tile_character_attr (tile : option MapTile) : res (option ChampionDescription) :=
  match tile with
  | Some (Described d) => Ok (character d)
  | Some (Static _) => Ok None
  | None => Raise AttributeError
  end.

(** [Map.targetFound] *)
Definition targetFound (m : Map) (v : Coords) (target : Target) : res bool :=
  let read := py_get2 (map m) (coordinates.x v) (coordinates.y v) in
  match target with
  | TStr s =>
      if String.eqb s "passable" then
        tile <~ read ;;
        p <~ tile_passable_attr tile ;;
        if p then mist <~ tileIsMist tile ;; Ok (negb mist) else Ok false
      else
        _ <~ read ;; Ok false
  | TCoords c =>
      if (coordinates.x v =? coordinates.x c) && (coordinates.y v =? coordinates.y c)
      then Ok true
      else _ <~ read ;; Ok false
  | TTile d =>
      tile <~ read ;;
      t <~ tile_type_attr tile ;;
      Ok (String.eqb t (type d))
  | TWeapon w =>
      tile <~ read ;;
      l <~ tile_description_loot tile ;;
      Ok (match l with
          | Some l' => String.eqb (weapon_name l') (weapon_name w)
          | None => false
          end)
  | TConsumable c =>
      tile <~ read ;;
      k <~ tile_consumable_attr tile ;;
      Ok (match k with
          | Some k' => String.eqb (consumable_name k') (consumable_name c)
          | None => false
          end)
  | TEffect e =>
      tile <~ read ;;
      effs <~ tile_effects_attr tile ;;
      Ok (existsb (fun e' => String.eqb (eff_type e') (eff_type e)) effs)
  end.

(** A cell of [Visited]: [None] for an unknown tile, [0] for a known tile
    not reached yet, otherwise the coordinate it was reached from. *)
Inductive vcell := VNone | VZero | VParent (c : Coords).

Definition initVisited (m : Map) : res (list (list vcell)) :=
  mapM (fun i =>
          mapM (fun j =>
                  tile <~ py_get2 (map m) i j ;;
                  Ok (match tile with Some _ => VZero | None => VNone end))
               (range (snd (MAPSIZE m))))
       (range (fst (MAPSIZE m))).

(** The [for p in self.getNeighbours(v, mode)] loop of [shortestPath]. *)
Fixpoint visit_all (v : Coords) (ps : list Coords) (Visited : list (list vcell))
    (Q : list Coords) : res (list (list vcell) * list Coords) :=
  match ps with
  | [] => Ok (Visited, Q)
  | p :: ps' =>
      c <~ py_get2 Visited (coordinates.x p) (coordinates.y p) ;;
      match c with
      | VZero =>
          Visited' <~ py_set2 Visited (coordinates.x p) (coordinates.y p) (VParent v) ;;
          visit_all v ps' Visited' (Q ++ [p])
      | _ => visit_all v ps' Visited Q
      end
  end.

(** The inner [while Visited[v.x][v.y] is not v] loop: the cells from [v]
    back to the root, [v] first.  The only cell stored in its own entry is
    the root object, so the identity test is a test on coordinates; an
    entry that is [0] or [None] is appended and then fails on [.x]. *)
Fixpoint walk_back (fuel : nat) (Visited : list (list vcell)) (v : Coords) :
    res (list Coords) :=
  match fuel with
  | O => OutOfFuel
  | S fuel' =>
      c <~ py_get2 Visited (coordinates.x v) (coordinates.y v) ;;
      match c with
      | VParent p =>
          if bool_decide (p = v) then Ok [v]
          else rest <~ walk_back fuel' Visited p ;; Ok (v :: rest)
      | _ => Raise AttributeError
      end
  end.

(** [radius is None or r <= radius] *)
Definition within_radius (radius : option Z) (r : Z) : bool :=
  match radius with
  | None => true
  | Some rad => r <=? rad
  end.

(** The variables of the main [while] loop of [Map.shortestPath]. *)
Record bfs_state := mkBfs {
  Visited : list (list vcell);
  Q : list Coords;
  r : Z
}.

(** What one evaluation of the loop does: go round again, or leave the
    function with a result or an exception. *)
Inductive bfs_next :=
| Continue (s : bfs_state)
| Finish (out : res (list Action * option Coords)).

(** The loop guard and one run of the loop body. *)
Definition bfs_step (wfuel : nat) (m : Map) (root : Coords) (target : Target)
    (radius : option Z) (mode : string) (s : bfs_state) : bfs_next :=
  match Q s with
  | [] => Finish (Ok ([], position m))
  | v :: Q' =>
      if within_radius radius (r s) then
        match targetFound m v target with
        | Ok true =>
            Finish (path <~ walk_back wfuel (Visited s) v ;;
                    acts <~ getActions m root (rev (removelast path)) ;;
                    Ok (acts, Some v))
        | Ok false =>
            match (ps <~ getNeighbours m v mode ;; visit_all v ps (Visited s) Q') with
            | Ok st => Continue (mkBfs (fst st) (snd st) (r s + 1))
            | Raise e => Finish (Raise e)
            | OutOfFuel => Finish OutOfFuel
            end
        | Raise e => Finish (Raise e)
        | OutOfFuel => Finish OutOfFuel
        end
      else Finish (Ok ([], position m))
  end.

(** The main [while] loop of [Map.shortestPath]. *)
Fixpoint bfs_loop (fuel : nat) (wfuel : nat) (m : Map) (root : Coords)
    (target : Target) (radius : option Z) (mode : string) (s : bfs_state) :
    res (list Action * option Coords) :=
  match fuel with
  | O => OutOfFuel
  | S fuel' =>
      match bfs_step wfuel m root target radius mode s with
      | Finish out => out
      | Continue s' => bfs_loop fuel' wfuel m root target radius mode s'
      end
  end.

(** Enough iterations for any search on the map. *)
Definition bfs_fuel (m : Map) : nat :=
  S (S (Z.to_nat (fst (MAPSIZE m)) * Z.to_nat (snd (MAPSIZE m)))).

(** The statements of [Map.shortestPath] before its loop. *)
Definition bfs_init (m : Map) (root : Coords) : res bfs_state :=
  V0 <~ initVisited m ;;
  V1 <~ py_set2 V0 (coordinates.x root) (coordinates.y root) (VParent root) ;;
  Ok (mkBfs V1 [root] 0).

(** [Map.shortestPath] *)
Definition shortestPath (m : Map) (root : Coords) (target : Target)
    (radius : option Z) (mode : string) : res (list Action * option Coords) :=
  s0 <~ bfs_init m root ;;
  bfs_loop (bfs_fuel m) (bfs_fuel m) m root target radius mode s0.

(** [Map.findTarget]; without a position, [root.x] raises once [Visited]
    is built. *)
Definition findTarget (m : Map) (target : Target) (radius : option Z) :
    res (list Action * option Coords) :=
  match position m with
  | Some p => shortestPath m p target radius ""
  | None => _ <~ initVisited m ;; Raise AttributeError
  end.

(** ** class KnowledgeBase *)

Record KnowledgeBase := mkKB {
  mapBase : option Map;
  round_counter : Z;
  actionsToMake : list Action;
  actionsTarget : option Coords;
  tileNeighbourhood : Z
}.

(** [KnowledgeBase.__init__] *)
Definition KnowledgeBase_init : KnowledgeBase := mkKB None 0 [] None 16.

Definition set_plan (kb : KnowledgeBase) (acts : list Action) (tgt : option Coords) :
    KnowledgeBase :=
  mkKB (mapBase kb) (round_counter kb) acts tgt (tileNeighbourhood kb).

(** [self.mapBase.description.facing.value + self.mapBase.position] *)
Definition inFrontCoords (kb : KnowledgeBase) : res Coords :=
  match mapBase kb with
  | None => Raise AttributeError
  | Some m =>
      match description m with
      | None => Raise AttributeError
      | Some d =>
          match position m with
          | None => Raise TypeError
          | Some p => Ok (coordinates.add (value (facing d)) p)
          end
      end
  end.

(** [self.mapBase.map[inFrontCoords.x][inFrontCoords.y]] *)
Definition inFrontTile (kb : KnowledgeBase) : res (option MapTile) :=
  c <~ inFrontCoords kb ;;
  match mapBase kb with
  | None => Raise AttributeError
  | Some m => py_get2 (map m) (coordinates.x c) (coordinates.y c)
  end.

(** The list [random.choice] draws from in [checkPossibleAction]. *)
Definition fallback_choices : list Action :=
  [TURN_LEFT; TURN_RIGHT; STEP_FORWARD; STEP_FORWARD; STEP_FORWARD; STEP_FORWARD].

(** [KnowledgeBase.checkPossibleAction]; [pick] is the draw of
    [random.choice], an index into its list. *)
Definition checkPossibleAction (tile : option MapTile) (pick : nat) : Action :=
  if negb (tilePassable tile) then TURN_RIGHT
  else default STEP_FORWARD (fallback_choices !! (pick `mod` length fallback_choices)%nat).

(** [KnowledgeBase.stepPossible] *)
Definition stepPossible (kb : KnowledgeBase) (step : Action) : res bool :=
  if bool_decide (step = STEP_FORWARD) then
    frontTile <~ inFrontTile kb ;;
    if negb (tilePassable frontTile) then Ok false
    else mist <~ tileIsMist frontTile ;; Ok (negb mist)
  else Ok true.

(** The second half of [followTarget], entered with [nextStep is None]. *)
Definition followTarget_fallback (kb : KnowledgeBase) (pick : nat) : outcome KnowledgeBase Action :=
  let kb' := set_plan kb [] None in
  lift kb' (tile <~ inFrontTile kb' ;; Ok (checkPossibleAction tile pick)).

(** [KnowledgeBase.followTarget] *)
Definition followTarget (kb : KnowledgeBase) (pick : nat) : outcome KnowledgeBase Action :=
  match actionsToMake kb with
  | nextStep :: rest =>
      let kb1 := set_plan kb rest (actionsTarget kb) in
      match stepPossible kb1 nextStep with
      | Ok true => Returns nextStep kb1
      | Ok false => followTarget_fallback (set_plan kb1 [] None) pick
      | Raise e => Throws e kb1
      | OutOfFuel => Hangs
      end
  | [] => followTarget_fallback kb pick
  end.

(** [len(potionTile)]: a coordinate is a pair; [None] has no length. *)
Definition len_target (t : option Coords) : res Z :=
  match t with
  | Some _ => Ok 2
  | None => Raise TypeError
  end.

(** The body of the [try] block of [KnowledgeBase.choice]. *)
Definition choice_body (kb : KnowledgeBase) (m : Map) (front : option MapTile)
    (pick : nat) : outcome KnowledgeBase Action :=
  match findTarget m (TConsumable (mkConsumable "potion")) (Some (tileNeighbourhood kb)) with
  | Raise e => Throws e kb
  | OutOfFuel => Hangs
  | Ok (potionPath, potionTile) =>
      match tile_character_attr front with
      | Raise e => Throws e kb
      | OutOfFuel => Hangs
      | Ok (Some _) => Returns ATTACK kb
      | Ok None =>
          if round_counter kb <? 3 then
            Returns TURN_RIGHT
              (mkKB (mapBase kb) (round_counter kb + 1) (actionsToMake kb)
                    (actionsTarget kb) (tileNeighbourhood kb))
          else if 0 <? Z.of_nat (length (actionsToMake kb)) then
            followTarget kb pick
          else
            match (if bool_decide (potionPath <> [])
                   then n <~ len_target potionTile ;; Ok (n <? tileNeighbourhood kb)
                   else Ok false) with
            | Raise e => Throws e kb
            | OutOfFuel => Hangs
            | Ok true => followTarget (set_plan kb potionPath potionTile) pick
            | Ok false =>
                match menhir m with
                | Some mh =>
                    match findTarget m (TCoords mh) None with
                    | Raise e => Throws e kb
                    | OutOfFuel => Hangs
                    | Ok (acts, tgt) =>
                        let kb1 := set_plan kb acts tgt in
                        if tileNeighbourhood kb1 <? Z.of_nat (length (actionsToMake kb1))
                        then followTarget kb1 pick
                        else Returns (checkPossibleAction front pick) (set_plan kb1 [] None)
                    end
                | None => Returns (checkPossibleAction front pick) kb
                end
            end
      end
  end.

(** [KnowledgeBase.choice]: the tile in front is read before the [try]. *)
Definition choice (kb : KnowledgeBase) (pick : nat) : outcome KnowledgeBase Action :=
  match inFrontTile kb, mapBase kb with
  | Ok front, Some m =>
      try_except (choice_body kb m front pick)
                 (fun kb' => Returns (checkPossibleAction front pick) kb')
  | Ok _, None => Throws AttributeError kb
  | Raise e, _ => Throws e kb
  | OutOfFuel, _ => Hangs
  end.

(** [KnowledgeBase.update] *)
Definition KnowledgeBase_update (kb : KnowledgeBase) (k : ChampionKnowledge) :
    outcome KnowledgeBase unit :=
  match mapBase kb with
  | None => Throws AttributeError kb
  | Some m =>
      let with_map m' := mkKB (Some m') (round_counter kb) (actionsToMake kb)
                              (actionsTarget kb) (tileNeighbourhood kb) in
      match Map_update m k with
      | Returns _ m' => Returns tt (with_map m')
      | Throws e m' => Throws e (with_map m')
      | Hangs => Hangs
      end
  end.

(** [KnowledgeBase.reset] *)
Definition KnowledgeBase_reset (kb : KnowledgeBase) (a : Arena) :
    outcome KnowledgeBase unit :=
  match Map_init a with
  | Ok m => Returns tt (mkKB (Some m) (round_counter kb) (actionsToMake kb)
                             (actionsTarget kb) (tileNeighbourhood kb))
  | Raise e => Throws e kb
  | OutOfFuel => Hangs
  end.

(** ** class AresController: the knowledge base is its only mutable field *)

(** [AresController.decide] *)
Definition AresController_decide (kb : KnowledgeBase) (k : ChampionKnowledge) (pick : nat) :
    outcome KnowledgeBase Action :=
  match KnowledgeBase_update kb k with
  | Returns _ kb' => choice kb' pick
  | Throws e kb' => Throws e kb'
  | Hangs => Hangs
  end.

(** [AresController.reset] *)
Definition AresController_reset (kb : KnowledgeBase) (game_no : Z) (a : Arena) :
    outcome KnowledgeBase unit :=
  KnowledgeBase_reset kb a.

(** [AresController.praise] and [KnowledgeBase.praise]: [pass]. *)
Definition KnowledgeBase_praise (kb : KnowledgeBase) (score : Z) : KnowledgeBase := kb.

(** [class AresController]: its name and its knowledge base. *)
Record AresController := mkAres {
  first_name : string;
  knBase : KnowledgeBase
}.

(** [AresController.__init__] *)
Definition AresController_init (name : string) : AresController :=
  mkAres name KnowledgeBase_init.

(** What [__eq__] may be compared with: a controller of this class, or
    any other object. *)
Inductive object :=
| an_AresController (c : AresController)
| another_object.

(** [AresController.__eq__] *)
Definition AresController_eq (self : AresController) (other : object) : bool :=
  match other with
  | an_AresController o => String.eqb (first_name self) (first_name o)
  | another_object => false
  end.

(** [AresController.name] *)
Definition AresController_name (self : AresController) : string :=
  "AresController" +:+ first_name self.

(** [POTENTIAL_CONTROLLERS] *)
Definition POTENTIAL_CONTROLLERS : list AresController := [AresController_init "Nike"].

(** * Properties *)

(** ** Grids: the nested lists seen through coordinates *)

#[global] Instance vcell_eq_dec : EqDecision vcell.
Proof. solve_decision. Defined.

Section grid.
Context {A : Type}.
Implicit Types (g : list (list A)) (c p : Coords) (a b : A).

(** The cell of [g] at a coordinate without negative component. *)
Definition gget g c : option A :=
  if (0 <=? coordinates.x c) && (0 <=? coordinates.y c) then
    match g !! Z.to_nat (coordinates.x c) with
    | Some row => row !! Z.to_nat (coordinates.y c)
    | None => None
    end
  else None.

Definition gset g c a : list (list A) :=
  match g !! Z.to_nat (coordinates.x c) with
  | Some row => <[Z.to_nat (coordinates.x c) := <[Z.to_nat (coordinates.y c) := a]> row]> g
  | None => g
  end.

(** [shape w h g]: [g] has [w] rows of [h] cells. *)
Definition shape (w h : nat) g : Prop :=
  length g = w /\ Forall (fun row => length row = h) g.

Lemma py_get_nonneg {B} (l : list B) (i : Z) (b : B) :
  0 <= i -> l !! Z.to_nat i = Some b -> py_get l i = Ok b.
Proof.
  intros Hi Hl. unfold py_get.
  apply lookup_lt_Some in Hl as Hlt.
  destruct (Z.ltb_spec i 0); [lia|].
  destruct (Z.leb_spec 0 i); [|lia].
  destruct (Z.ltb_spec i (Z.of_nat (length l))); [|lia].
  simpl. by rewrite Hl.
Qed.

Lemma py_get_nonneg_inv {B} (l : list B) (i : Z) (b : B) :
  0 <= i -> py_get l i = Ok b -> l !! Z.to_nat i = Some b.
Proof.
  intros Hi. unfold py_get.
  destruct (Z.ltb_spec i 0); [lia|].
  destruct (_ && _); [|done].
  destruct (l !! Z.to_nat i); [|done]. congruence.
Qed.

Lemma py_set_nonneg {B} (l : list B) (i : Z) (b : B) :
  0 <= i -> (Z.to_nat i < length l)%nat -> py_set l i b = Ok (<[Z.to_nat i := b]> l).
Proof.
  intros Hi Hlt. unfold py_set.
  destruct (Z.ltb_spec i 0); [lia|].
  destruct (Z.leb_spec 0 i); [|lia].
  destruct (Z.ltb_spec i (Z.of_nat (length l))); [|lia].
  done.
Qed.

Lemma gget_nonneg g c a :
  gget g c = Some a -> 0 <= coordinates.x c /\ 0 <= coordinates.y c.
Proof.
  unfold gget. destruct (Z.leb_spec 0 (coordinates.x c)), (Z.leb_spec 0 (coordinates.y c));
    simpl; try done.
Qed.

Lemma py_get2_gget g c a :
  gget g c = Some a -> py_get2 g (coordinates.x c) (coordinates.y c) = Ok a.
Proof.
  intros H. destruct (gget_nonneg _ _ _ H) as [Hx Hy].
  unfold gget in H.
  destruct (Z.leb_spec 0 (coordinates.x c)); [|lia].
  destruct (Z.leb_spec 0 (coordinates.y c)); [|lia]. simpl in H.
  destruct (g !! Z.to_nat (coordinates.x c)) as [row|] eqn:Hrow; [|done].
  unfold py_get2. rewrite (py_get_nonneg _ _ _ Hx Hrow). simpl.
  by apply py_get_nonneg.
Qed.

Lemma gget_py_get2 g c a :
  0 <= coordinates.x c -> 0 <= coordinates.y c ->
  py_get2 g (coordinates.x c) (coordinates.y c) = Ok a -> gget g c = Some a.
Proof.
  intros Hx Hy H. unfold py_get2 in H.
  destruct (py_get g (coordinates.x c)) as [row| |] eqn:Hrow; try done. simpl in H.
  apply py_get_nonneg_inv in Hrow; [|done].
  apply py_get_nonneg_inv in H; [|done].
  unfold gget.
  destruct (Z.leb_spec 0 (coordinates.x c)); [|lia].
  destruct (Z.leb_spec 0 (coordinates.y c)); [|lia]. simpl.
  by rewrite Hrow.
Qed.

Lemma py_set2_gset g c a b :
  gget g c = Some b -> py_set2 g (coordinates.x c) (coordinates.y c) a = Ok (gset g c a).
Proof.
  intros H. destruct (gget_nonneg _ _ _ H) as [Hx Hy].
  unfold gget in H.
  destruct (Z.leb_spec 0 (coordinates.x c)); [|lia].
  destruct (Z.leb_spec 0 (coordinates.y c)); [|lia]. simpl in H.
  destruct (g !! Z.to_nat (coordinates.x c)) as [row|] eqn:Hrow; [|done].
  unfold py_set2, gset. rewrite (py_get_nonneg _ _ _ Hx Hrow), Hrow. simpl.
  rewrite py_set_nonneg; [|done|by eapply lookup_lt_Some]. simpl.
  rewrite py_set_nonneg; [done|done|by eapply lookup_lt_Some].
Qed.

Lemma gget_gset g p a b c :
  gget g p = Some b ->
  gget (gset g p a) c = if decide (c = p) then Some a else gget g c.
Proof.
  intros H. destruct (gget_nonneg _ _ _ H) as [Hx Hy].
  unfold gget in H.
  destruct (Z.leb_spec 0 (coordinates.x p)); [|lia].
  destruct (Z.leb_spec 0 (coordinates.y p)); [|lia]. simpl in H.
  destruct (g !! Z.to_nat (coordinates.x p)) as [row|] eqn:Hrow; [|done].
  apply lookup_lt_Some in Hrow as Hlt. apply lookup_lt_Some in H as Hlt'.
  unfold gset. rewrite Hrow.
  destruct (decide (c = p)) as [->|Hne].
  - unfold gget.
    destruct (Z.leb_spec 0 (coordinates.x p)); [|lia].
    destruct (Z.leb_spec 0 (coordinates.y p)); [|lia]. simpl.
    rewrite list_lookup_insert_eq by done.
    by rewrite list_lookup_insert_eq.
  - unfold gget.
    destruct (Z.leb_spec 0 (coordinates.x c)); [|done].
    destruct (Z.leb_spec 0 (coordinates.y c)); [|done]. simpl.
    destruct (decide (Z.to_nat (coordinates.x c) = Z.to_nat (coordinates.x p))) as [Hxe|Hxn].
    + rewrite Hxe, list_lookup_insert_eq, Hrow by done.
      rewrite list_lookup_insert_ne; [done|].
      intros Hye. apply Hne. destruct c, p; simpl in *. f_equal; lia.
    + by rewrite list_lookup_insert_ne.
Qed.

Lemma shape_gset w h g p a : shape w h g -> shape w h (gset g p a).
Proof.
  intros [Hl Hf]. unfold gset.
  destruct (g !! Z.to_nat (coordinates.x p)) as [row|] eqn:Hrow; [|done].
  split; [by rewrite length_insert|].
  apply Forall_insert; [done|].
  rewrite length_insert. by eapply (proj1 (Forall_lookup _ _)) in Hf.
Qed.

Lemma gget_shape w h g c :
  shape w h g ->
  0 <= coordinates.x c < Z.of_nat w -> 0 <= coordinates.y c < Z.of_nat h ->
  is_Some (gget g c).
Proof.
  intros [Hl Hf] Hx Hy. unfold gget.
  destruct (Z.leb_spec 0 (coordinates.x c)); [|lia].
  destruct (Z.leb_spec 0 (coordinates.y c)); [|lia]. simpl.
  destruct (lookup_lt_is_Some_2 g (Z.to_nat (coordinates.x c))) as [row Hrow]; [lia|].
  rewrite Hrow. apply lookup_lt_is_Some_2.
  eapply (proj1 (Forall_lookup _ _)) in Hf; [|done]. simpl in Hf. lia.
Qed.

Lemma gget_shape_inv w h g c a :
  shape w h g -> gget g c = Some a ->
  0 <= coordinates.x c < Z.of_nat w /\ 0 <= coordinates.y c < Z.of_nat h.
Proof.
  intros [Hl Hf] H. destruct (gget_nonneg _ _ _ H) as [Hx Hy].
  unfold gget in H.
  destruct (Z.leb_spec 0 (coordinates.x c)); [|lia].
  destruct (Z.leb_spec 0 (coordinates.y c)); [|lia]. simpl in H.
  destruct (g !! Z.to_nat (coordinates.x c)) as [row|] eqn:Hrow; [|done].
  apply lookup_lt_Some in Hrow as Hlt. apply lookup_lt_Some in H as Hlt'.
  eapply (proj1 (Forall_lookup _ _)) in Hf; [|done]. simpl in Hf. lia.
Qed.

End grid.

(** ** Counting the cells of [Visited] that are still [0] *)

Definition row_zeros (row : list vcell) : nat :=
  length (filter (fun c => c = VZero) row).

Definition zeros (V : list (list vcell)) : nat := sum_list (row_zeros <$> V).

Lemma row_zeros_le row : (row_zeros row <= length row)%nat.
Proof. unfold row_zeros. apply length_filter. Qed.

Lemma row_zeros_insert_zero row j v :
  row !! j = Some VZero -> row_zeros row = S (row_zeros (<[j := VParent v]> row)).
Proof.
  revert j. induction row as [|c row IH]; intros [|j] H; simpl in *; try done.
  - injection H as ->. unfold row_zeros. rewrite filter_cons_True by done.
    rewrite filter_cons_False by done. done.
  - unfold row_zeros in *. rewrite !filter_cons.
    destruct (decide (c = VZero)); simpl; rewrite (IH j H); done.
Qed.

Lemma row_zeros_insert_le row j v :
  (row_zeros (<[j := VParent v]> row) <= row_zeros row)%nat.
Proof.
  revert j. induction row as [|c row IH]; intros [|j]; simpl; try done.
  - unfold row_zeros. rewrite filter_cons_False by done. rewrite filter_cons.
    destruct (decide (c = VZero)); simpl; lia.
  - unfold row_zeros in *. rewrite !filter_cons. specialize (IH j).
    destruct (decide (c = VZero)); simpl; lia.
Qed.

Lemma zeros_cons row V : zeros (row :: V) = (row_zeros row + zeros V)%nat.
Proof. reflexivity. Qed.

Lemma zeros_insert_row V i row row' :
  V !! i = Some row ->
  (zeros (<[i := row']> V) + row_zeros row = zeros V + row_zeros row')%nat.
Proof.
  revert i. induction V as [|r0 V IH]; intros [|i] H; try done.
  - injection H as ->. change (<[0%nat := row']> (row :: V)) with (row' :: V).
    rewrite !zeros_cons. lia.
  - change (<[S i := row']> (r0 :: V)) with (r0 :: <[i := row']> V).
    rewrite !zeros_cons. specialize (IH i H). lia.
Qed.

Lemma zeros_gset_zero V p v :
  gget V p = Some VZero -> zeros V = S (zeros (gset V p (VParent v))).
Proof.
  intros H. unfold gget in H. unfold gset.
  destruct (_ && _); [|done].
  destruct (V !! Z.to_nat (coordinates.x p)) as [row|] eqn:Hrow; [|done].
  pose proof (zeros_insert_row V _ row (<[Z.to_nat (coordinates.y p) := VParent v]> row) Hrow).
  pose proof (row_zeros_insert_zero row _ v H). lia.
Qed.

Lemma zeros_gset_le V p v : (zeros (gset V p (VParent v)) <= zeros V)%nat.
Proof.
  unfold gset.
  destruct (V !! Z.to_nat (coordinates.x p)) as [row|] eqn:Hrow; [|done].
  pose proof (zeros_insert_row V _ row (<[Z.to_nat (coordinates.y p) := VParent v]> row) Hrow).
  pose proof (row_zeros_insert_le row (Z.to_nat (coordinates.y p)) v). lia.
Qed.

Lemma zeros_shape w h V : shape w h V -> (zeros V <= w * h)%nat.
Proof.
  intros [Hl Hf]. subst w. induction Hf as [|row V Hrow Hf IH]; [done|].
  rewrite zeros_cons. simpl in *. pose proof (row_zeros_le row). lia.
Qed.

(** ** The comprehensions and filters never fail on computable bodies *)

Lemma mapM_Ok {A B} (f : A -> res B) (g : A -> B) (l : list A) :
  (forall a, a ∈ l -> f a = Ok (g a)) -> mapM f l = Ok (g <$> l).
Proof.
  induction l as [|a l IH]; intros H; simpl; [done|].
  rewrite H by set_solver. simpl. rewrite IH by set_solver. done.
Qed.

Lemma filterM_Ok {A} (f : A -> res bool) (g : A -> bool) (l : list A) :
  (forall a, a ∈ l -> f a = Ok (g a)) -> filterM f l = Ok (filter (fun a => g a) l).
Proof.
  induction l as [|a l IH]; intros H; simpl; [done|].
  rewrite H by set_solver. simpl. rewrite IH by set_solver. simpl.
  rewrite filter_cons. destruct (g a); simpl; done.
Qed.

Lemma elem_of_range (n i : Z) : i ∈ range n <-> 0 <= i < n.
Proof. unfold range. rewrite elem_of_seqZ. lia. Qed.

Lemma lookup_range (n : Z) (i : nat) :
  (Z.of_nat i < n) -> range n !! i = Some (Z.of_nat i).
Proof. intros H. unfold range. by rewrite lookup_seqZ_lt by lia. Qed.

(** ** Well-formed maps *)

(** The grid has the size recorded in [MAPSIZE]: [initMap] builds it so and
    [update] keeps it so. *)
Definition wf_map (m : Map) : Prop :=
  shape (Z.to_nat (fst (MAPSIZE m))) (Z.to_nat (snd (MAPSIZE m))) (map m).

(** A tile is recorded at [c]. *)
Definition known (m : Map) (c : Coords) : Prop :=
  exists t, gget (map m) c = Some (Some t).

(** [tilePassable(tile) and not tileIsMist(tile)] *)
Definition tile_open (tile : option MapTile) : bool :=
  tilePassable tile && match tileIsMist tile with Ok b => negb b | _ => false end.

(** The cells the search may step onto. *)
Definition enterable (m : Map) (mode : string) (c : Coords) : bool :=
  isInMap m c &&
  match gget (map m) c with
  | Some tile => tile_open tile || negb (String.eqb mode "")
  | None => false
  end.

Lemma isInMap_spec m c :
  isInMap m c = true <->
  0 <= coordinates.x c < fst (MAPSIZE m) /\ 0 <= coordinates.y c < snd (MAPSIZE m).
Proof. unfold isInMap. rewrite !andb_true_iff, !Z.ltb_lt, !Z.leb_le. lia. Qed.

Lemma isInMap_gget m c : wf_map m -> isInMap m c = true -> is_Some (gget (map m) c).
Proof.
  intros Hwf Hin. apply isInMap_spec in Hin.
  eapply gget_shape; [exact Hwf|lia|lia].
Qed.

Lemma gget_isInMap m c t : wf_map m -> gget (map m) c = Some t -> isInMap m c = true.
Proof.
  intros Hwf Hg. apply isInMap_spec.
  pose proof (gget_shape_inv _ _ _ _ _ Hwf Hg). lia.
Qed.

Lemma neighbour_ok_spec m mode p :
  wf_map m -> neighbour_ok m mode p = Ok (enterable m mode p).
Proof.
  intros Hwf. unfold neighbour_ok, enterable.
  destruct (isInMap m p) eqn:Hin; [|done].
  destruct (isInMap_gget _ _ Hwf Hin) as [tile Htile].
  rewrite (py_get2_gget _ _ _ Htile), Htile. simpl. unfold tile_open.
  destruct (tilePassable tile) eqn:Hp; [|done].
  destruct tile as [[d|t]|]; simpl in *; done.
Qed.

Lemma getNeighbours_spec m v mode :
  wf_map m ->
  getNeighbours m v mode = Ok (filter (fun p => enterable m mode p) (all_around v)).
Proof.
  intros Hwf. unfold getNeighbours. apply filterM_Ok.
  intros p _. by apply neighbour_ok_spec.
Qed.

Lemma NoDup_all_around v : NoDup (all_around v).
Proof.
  unfold all_around. destruct v as [vx vy]. simpl.
  repeat (apply NoDup_cons; split;
          [rewrite ?elem_of_cons, elem_of_nil;
           intros H; repeat (destruct H as [H|H]); try done; injection H; lia|]).
  apply NoDup_nil_2.
Qed.

(** The initial [Visited] of a well-formed map. *)
Definition init_cell (m : Map) (c : Coords) : vcell :=
  match gget (map m) c with
  | Some (Some _) => VZero
  | _ => VNone
  end.

Lemma initVisited_spec m :
  wf_map m ->
  exists V0, initVisited m = Ok V0 /\
    shape (Z.to_nat (fst (MAPSIZE m))) (Z.to_nat (snd (MAPSIZE m))) V0 /\
    forall c, gget V0 c = if isInMap m c then Some (init_cell m c) else None.
Proof.
  intros Hwf.
  set (rowf := fun i : Z => (fun j : Z => init_cell m (coordinates.mk i j))
                              <$> range (snd (MAPSIZE m))).
  exists (rowf <$> range (fst (MAPSIZE m))). split; [|split].
  - unfold initVisited. apply mapM_Ok. intros i Hi. apply mapM_Ok. intros j Hj.
    apply elem_of_range in Hi, Hj.
    destruct (isInMap_gget m (coordinates.mk i j) Hwf) as [t Ht].
    { apply isInMap_spec. simpl. lia. }
    pose proof (py_get2_gget _ (coordinates.mk i j) _ Ht) as Hg. simpl in Hg.
    rewrite Hg. simpl. unfold init_cell. rewrite Ht. by destruct t.
  - split.
    + rewrite length_fmap. unfold range. by rewrite length_seqZ.
    + apply Forall_fmap, Forall_forall. intros i _. simpl. unfold rowf.
      rewrite length_fmap. unfold range. by rewrite length_seqZ.
  - intros [cx cy]. unfold gget. simpl.
    destruct (isInMap m (coordinates.mk cx cy)) eqn:Hin.
    + apply isInMap_spec in Hin. simpl in Hin.
      destruct (Z.leb_spec 0 cx); [|lia]. destruct (Z.leb_spec 0 cy); [|lia]. simpl.
      rewrite list_lookup_fmap, lookup_range by lia. simpl. unfold rowf.
      rewrite list_lookup_fmap, lookup_range by lia. simpl.
      by rewrite !Z2Nat.id by lia.
    + destruct (Z.leb_spec 0 cx); [|done]. destruct (Z.leb_spec 0 cy); [|done]. simpl.
      rewrite list_lookup_fmap.
      destruct (range (fst (MAPSIZE m)) !! Z.to_nat cx) as [i|] eqn:Hi; [|done]. simpl.
      unfold rowf. rewrite list_lookup_fmap.
      destruct (range (snd (MAPSIZE m)) !! Z.to_nat cy) as [j|] eqn:Hj; [|done]. simpl.
      unfold range in Hi, Hj. apply lookup_seqZ in Hi, Hj.
      assert (isInMap m (coordinates.mk cx cy) = true); [|congruence].
      apply isInMap_spec. simpl. lia.
Qed.

(** ** The inner [for] loop *)

Lemma filter_ext_elem {A} (P1 P2 : A -> Prop) `{!forall a, Decision (P1 a)}
    `{!forall a, Decision (P2 a)} (l : list A) :
  (forall a, a ∈ l -> P1 a <-> P2 a) -> filter P1 l = filter P2 l.
Proof.
  induction l as [|a l IH]; intros Hext; [done|].
  rewrite !filter_cons.
  rewrite IH by (intros a' Ha'; apply Hext; by apply list_elem_of_further).
  destruct (decide (P1 a)) as [H1|H1], (decide (P2 a)) as [H2|H2]; try done.
  - exfalso. apply H2, Hext; [apply list_elem_of_here|done].
  - exfalso. apply H1, Hext; [apply list_elem_of_here|done].
Qed.

Lemma visit_all_spec w h v ps (V : list (list vcell)) Q :
  shape w h V -> (forall p, p ∈ ps -> is_Some (gget V p)) -> NoDup ps ->
  exists V',
    visit_all v ps V Q = Ok (V', Q ++ filter (fun p => gget V p = Some VZero) ps) /\
    shape w h V' /\
    (forall c, gget V' c =
               if decide (c ∈ ps /\ gget V c = Some VZero)
               then Some (VParent v) else gget V c) /\
    (zeros V' + length (filter (fun p => gget V p = Some VZero) ps) = zeros V)%nat.
Proof.
  revert V Q. induction ps as [|p ps IH]; intros V Q Hsh Hin Hnd.
  - exists V. simpl. rewrite app_nil_r. split; [done|split; [done|split]].
    + done.
    + simpl. lia.
  - apply NoDup_cons in Hnd as [Hp Hnd].
    destruct (Hin p) as [cell Hcell]; [set_solver|].
    simpl. rewrite (py_get2_gget _ _ _ Hcell). simpl.
    destruct (decide (cell = VZero)) as [->|Hnz].
    + rewrite (py_set2_gset _ _ (VParent v) _ Hcell). simpl.
      set (V1 := gset V p (VParent v)).
      assert (Hsame : forall c, c ∈ ps -> gget V1 c = gget V c).
      { intros c Hc. unfold V1. rewrite (gget_gset _ _ _ _ _ Hcell).
        destruct (decide (c = p)) as [->|]; done. }
      destruct (IH V1 (Q ++ [p])) as (V' & Hrun & Hsh' & Hget & Hz).
      { by apply shape_gset. }
      { intros c Hc. rewrite Hsame by done. apply Hin. set_solver. }
      { done. }
      assert (Hf : filter (fun p0 => gget V1 p0 = Some VZero) ps
                   = filter (fun p0 => gget V p0 = Some VZero) ps).
      { apply filter_ext_elem. intros a Ha. by rewrite Hsame. }
      rewrite Hf in Hrun, Hz.
      exists V'. rewrite filter_cons_True by done.
      split; [|split; [|split]].
      * rewrite Hrun. by rewrite <- app_assoc.
      * done.
      * intros c. rewrite Hget. unfold V1. rewrite (gget_gset _ _ _ _ _ Hcell).
        destruct (decide (c = p)) as [->|Hne].
        -- rewrite decide_False by (intros [? ?]; done).
           rewrite decide_True; [done|]. split; [set_solver|done].
        -- destruct (decide (c ∈ ps /\ gget V c = Some VZero)) as [[? ?]|Hn].
           ++ rewrite decide_True; [done|]. split; [set_solver|done].
           ++ rewrite decide_False; [done|]. intros [Hc ?]. apply Hn.
              split; [|done]. by apply elem_of_cons in Hc as [?|?].
      * simpl. pose proof (zeros_gset_zero V p v Hcell). fold V1 in H. lia.
    + assert (Hrun0 : match cell with
                      | VZero => Visited' <~ py_set2 V (coordinates.x p) (coordinates.y p)
                                                     (VParent v) ;;
                                 visit_all v ps Visited' (Q ++ [p])
                      | _ => visit_all v ps V Q
                      end = visit_all v ps V Q) by (by destruct cell).
      rewrite Hrun0.
      destruct (IH V Q) as (V' & Hrun & Hsh' & Hget & Hz); [done| |done|].
      { intros c Hc. apply Hin. set_solver. }
      exists V'. rewrite filter_cons_False by congruence.
      split; [done|split; [done|split; [|done]]].
      intros c. rewrite Hget.
      destruct (decide (c ∈ ps /\ gget V c = Some VZero)) as [[? ?]|Hn].
      * rewrite decide_True; [done|]. split; [set_solver|done].
      * rewrite decide_False; [done|]. intros [Hc Hz']. apply Hn. split; [|done].
        apply elem_of_cons in Hc as [->|]; [congruence|done].
Qed.

(** ** From a path to actions *)

(** The number of forward steps and of turns in an action sequence. *)
Definition moves (acts : list Action) : nat :=
  length (filter (fun a => a = STEP_FORWARD) acts).

Definition turns (acts : list Action) : nat :=
  length (filter (fun a => a = TURN_LEFT \/ a = TURN_RIGHT) acts).

(** Every cell of the path is next to the one before it, [a] first. *)
Fixpoint linked (a : Coords) (path : list Coords) : Prop :=
  match path with
  | [] => True
  | b :: path' => b ∈ all_around a /\ linked b path'
  end.

(** The path never steps back onto the cell it just left. *)
Fixpoint no_uturn (prev a : Coords) (path : list Coords) : Prop :=
  match path with
  | [] => True
  | b :: path' => b <> prev /\ no_uturn a b path'
  end.

Definition opposite (f : Facing) : Facing :=
  match f with UP => DOWN | DOWN => UP | LEFT => RIGHT | RIGHT => LEFT end.

Lemma moves_app a b : moves (a ++ b) = (moves a + moves b)%nat.
Proof. unfold moves. by rewrite filter_app, length_app. Qed.

Lemma turns_app a b : turns (a ++ b) = (turns a + turns b)%nat.
Proof. unfold turns. by rewrite filter_app, length_app. Qed.

Lemma getTargetFace_unit X f : getTargetFace X (coordinates.add (value f) X) = Ok f.
Proof.
  destruct X as [cx cy]. unfold getTargetFace, coordinates.add. simpl.
  destruct f; simpl.
  - replace (cx - (0 + cx)) with 0 by lia. replace (cy - (-1 + cy)) with 1 by lia. done.
  - replace (cx - (0 + cx)) with 0 by lia. replace (cy - (1 + cy)) with (-1) by lia. done.
  - replace (cx - (-1 + cx)) with 1 by lia. replace (cy - (0 + cy)) with 0 by lia. done.
  - replace (cx - (1 + cx)) with (-1) by lia. replace (cy - (0 + cy)) with 0 by lia. done.
Qed.

Lemma all_around_facing a b :
  b ∈ all_around a <-> exists f, b = coordinates.add (value f) a.
Proof.
  destruct a as [ax ay]. unfold all_around, coordinates.add. simpl.
  rewrite !elem_of_cons, elem_of_nil. split.
  - intros [->|[->|[->|[->|[]]]]].
    + exists RIGHT. simpl. f_equal; lia.
    + exists LEFT. simpl. f_equal; lia.
    + exists DOWN. simpl. f_equal; lia.
    + exists UP. simpl. f_equal; lia.
  - intros [[] ->]; simpl.
    + do 3 right. left. f_equal; lia.
    + do 2 right. left. f_equal; lia.
    + right. left. f_equal; lia.
    + left. f_equal; lia.
Qed.

(** What [dirChange] answers for a step in direction [f]. *)
Lemma dirChange_unit cur face f :
  exists dirs, dirChange cur face (coordinates.add (value f) cur) = Ok (dirs, f) /\
    moves dirs = 0%nat /\ turns dirs = length dirs /\ (length dirs <= 2)%nat /\
    (f <> opposite face -> (length dirs <= 1)%nat) /\
    (f = opposite face -> dirs = [TURN_RIGHT; TURN_RIGHT]) /\
    (f = face -> dirs = []).
Proof.
  unfold dirChange. rewrite getTargetFace_unit. simpl.
  destruct face, f; (eexists; split; [vm_compute; reflexivity|]).
  all: split; [by vm_compute|split; [by vm_compute|split; [simpl; lia|]]].
  all: split; [intros; simpl in *; try congruence; try lia|].
  all: split; intros; simpl in *; congruence.
Qed.

Lemma getActions_loop_linked path : forall a face,
  linked a path ->
  exists acts, getActions_loop a face path = Ok acts /\
    moves acts = length path /\
    (turns acts + moves acts = length acts)%nat /\
    (turns acts <= 2 * length path)%nat.
Proof.
  induction path as [|b path IH]; intros a face Hl.
  - exists []. done.
  - destruct Hl as [Hadj Hl]. apply all_around_facing in Hadj as [f ->].
    destruct (dirChange_unit a face f) as (dirs & Hd & Hm & Ht & Hlen & _).
    destruct (IH (coordinates.add (value f) a) f Hl) as (rest & Hrest & Hmr & Htr & Hbr).
    exists (dirs ++ STEP_FORWARD :: rest). simpl. rewrite Hd. simpl. rewrite Hrest. simpl.
    split; [done|]. rewrite moves_app, turns_app, length_app.
    change (STEP_FORWARD :: rest) with ([STEP_FORWARD] ++ rest).
    rewrite moves_app, turns_app, length_app.
    change (moves [STEP_FORWARD]) with 1%nat. change (turns [STEP_FORWARD]) with 0%nat.
    simpl. lia.
Qed.

(** Arriving at [a] from [prev] and never stepping back, every further move
    takes at most one turn. *)
Lemma getActions_loop_no_uturn path : forall prev a face,
  a = coordinates.add (value face) prev ->
  linked a path -> no_uturn prev a path ->
  exists acts, getActions_loop a face path = Ok acts /\ (turns acts <= length path)%nat.
Proof.
  induction path as [|b path IH]; intros prev a face Ha Hl Hn.
  - exists []. done.
  - destruct Hl as [Hadj Hl]. destruct Hn as [Hne Hn].
    apply all_around_facing in Hadj as [f ->].
    destruct (dirChange_unit a face f) as (dirs & Hd & Hm & Ht & Hlen & Hopp & _).
    assert (Hfo : f <> opposite face).
    { intros ->. apply Hne. subst a. destruct prev as [px py].
      destruct face; unfold coordinates.add; simpl; f_equal; lia. }
    destruct (IH a (coordinates.add (value f) a) f eq_refl Hl Hn) as (rest & Hrest & Hbr).
    exists (dirs ++ STEP_FORWARD :: rest). simpl. rewrite Hd. simpl. rewrite Hrest. simpl.
    split; [done|]. rewrite turns_app.
    change (STEP_FORWARD :: rest) with ([STEP_FORWARD] ++ rest). rewrite turns_app.
    change (turns [STEP_FORWARD]) with 0%nat. specialize (Hopp Hfo). simpl. lia.
Qed.

Lemma NoDup_no_uturn path : forall prev a, NoDup (prev :: a :: path) -> no_uturn prev a path.
Proof.
  induction path as [|b path IH]; intros prev a Hnd; [done|].
  split.
  - apply NoDup_cons in Hnd as [Hp _]. intros ->. apply Hp.
    apply list_elem_of_further, list_elem_of_here.
  - apply IH. by apply NoDup_cons in Hnd as [_ ?].
Qed.

(** On a path without repeated cells, at most two turns come before the
    first move and at most one before each later move. *)
Lemma getActions_loop_turns a face path :
  linked a path -> NoDup (a :: path) ->
  exists acts, getActions_loop a face path = Ok acts /\
    moves acts = length path /\ (turns acts <= length path + 1)%nat.
Proof.
  intros Hl Hnd. destruct (getActions_loop_linked path a face Hl) as (acts & Hacts & Hm & _).
  exists acts. split; [done|split; [done|]].
  destruct path as [|b path].
  - simpl in Hacts. injection Hacts as <-. vm_compute. lia.
  - destruct Hl as [Hadj Hl]. apply all_around_facing in Hadj as [f ->].
    destruct (dirChange_unit a face f) as (dirs & Hd & Hmd & Ht & Hlen & _).
    destruct (getActions_loop_no_uturn path a (coordinates.add (value f) a) f eq_refl Hl
                (NoDup_no_uturn _ _ _ Hnd)) as (rest & Hrest & Hbr).
    simpl in Hacts. rewrite Hd in Hacts. simpl in Hacts. rewrite Hrest in Hacts.
    simpl in Hacts. injection Hacts as <-.
    rewrite turns_app. change (STEP_FORWARD :: rest) with ([STEP_FORWARD] ++ rest).
    rewrite turns_app. change (turns [STEP_FORWARD]) with 0%nat. simpl. lia.
Qed.

(** The facing in which [getActions] leaves the champion at the end of a
    path. *)
Fixpoint final_facing (a : Coords) (f : Facing) (path : list Coords) : Facing :=
  match path with
  | [] => f
  | b :: path' =>
      final_facing b (match getTargetFace a b with Ok g => g | _ => f end) path'
  end.

(** One more step at the end of a path adds the turns from the facing of
    arrival and a move. *)
Lemma getActions_loop_snoc path : forall a f p g acts,
  linked a path -> last (a :: path) = Some p ->
  getActions_loop a f path = Ok acts ->
  exists dirs,
    dirChange p (final_facing a f path) (coordinates.add (value g) p) = Ok (dirs, g) /\
    getActions_loop a f (path ++ [coordinates.add (value g) p])
    = Ok (acts ++ dirs ++ [STEP_FORWARD]) /\
    final_facing a f (path ++ [coordinates.add (value g) p]) = g.
Proof.
  induction path as [|b path IH]; intros a f p g acts Hl Hlast Hacts.
  - simpl in Hlast, Hacts. injection Hlast as ->. injection Hacts as <-.
    destruct (dirChange_unit p f g) as (dirs & Hd & _).
    exists dirs. simpl. rewrite Hd, getTargetFace_unit. done.
  - destruct Hl as [Hadj Hl]. apply all_around_facing in Hadj as [h ->].
    simpl in Hacts. destruct (dirChange_unit a f h) as (dirs0 & Hd0 & _).
    rewrite Hd0 in Hacts. simpl in Hacts.
    destruct (getActions_loop (coordinates.add (value h) a) h path) as [rest| |] eqn:Hrest;
      [|done|done].
    simpl in Hacts. injection Hacts as <-.
    destruct (IH (coordinates.add (value h) a) h p g rest Hl Hlast Hrest)
      as (dirs & Hd & Hrun & Hff).
    exists dirs. simpl. rewrite getTargetFace_unit, Hd0. simpl.
    rewrite Hrun. simpl. split; [done|]. split; [|done].
    by rewrite <- app_assoc.
Qed.

(** ** The search graph and the loop invariant *)

Section bfs.
Variables (m : Map) (root : Coords) (target : Target) (radius : option Z) (mode : string).

(** One step of a path: to an adjacent, recorded cell that the search may
    enter. *)
Definition edge (a b : Coords) : Prop :=
  b ∈ all_around a /\ enterable m mode b = true /\ known m b.

(** [walk c n]: [c] is reached from the root by [n] steps. *)
Inductive walk : Coords -> nat -> Prop :=
| walk_root : walk root 0
| walk_step b c n : walk b n -> edge b c -> walk c (S n).

(** The cell has been reached by the search. *)
Definition vis (V : list (list vcell)) (c : Coords) : Prop :=
  exists p, gget V c = Some (VParent p).

(** The invariant of the [while] loop; [d] is the depth of the reached
    cells in the tree of parents that [Visited] stores. *)
Record InvD (d : Coords -> nat) (s : bfs_state) : Prop := mkInvD {
  inv_shape : shape (Z.to_nat (fst (MAPSIZE m))) (Z.to_nat (snd (MAPSIZE m))) (Visited s);
  inv_r : 0 <= r s;
  inv_measure :
    (Z.to_nat (r s) + zeros (Visited s) + length (Q s)
     <= Z.to_nat (fst (MAPSIZE m)) * Z.to_nat (snd (MAPSIZE m)) + 1)%nat;
  inv_root : gget (Visited s) root = Some (VParent root);
  inv_d_root : d root = 0%nat;
  inv_tree : forall c p, gget (Visited s) c = Some (VParent p) -> c <> root ->
                         edge p c /\ vis (Visited s) p /\ d c = S (d p);
  inv_depth : forall c, vis (Visited s) c -> (d c <= Z.to_nat (r s))%nat;
  inv_queue : forall c, c ∈ Q s -> vis (Visited s) c;
  inv_layers : exists k Qa Qb, Q s = Qa ++ Qb /\
                 (forall c, c ∈ Qa -> d c = k) /\ (forall c, c ∈ Qb -> d c = S k);
  inv_opt : forall c n, vis (Visited s) c -> walk c n -> (d c <= n)%nat;
  inv_closed : forall c b, vis (Visited s) c -> c ∉ Q s -> edge c b -> vis (Visited s) b;
  inv_seen : forall c, vis (Visited s) c -> c ∉ Q s -> targetFound m c target = Ok false;
  inv_known : forall c, known m c -> gget (Visited s) c <> Some VNone;
  inv_zero : forall c, gget (Visited s) c = Some VZero -> known m c
}.

Definition Inv (s : bfs_state) : Prop := exists d, InvD d s.

Hypothesis Hwf : wf_map m.
Hypothesis Hroot : isInMap m root = true.

Lemma edge_known a b : edge a b -> known m b.
Proof. by intros (_ & _ & ?). Qed.

Lemma known_isInMap c : known m c -> isInMap m c = true.
Proof. intros [t Ht]. by eapply gget_isInMap. Qed.

(** The state the loop is entered with. *)
Lemma Inv_init V0 V1 :
  initVisited m = Ok V0 ->
  py_set2 V0 (coordinates.x root) (coordinates.y root) (VParent root) = Ok V1 ->
  Inv (mkBfs V1 [root] 0).
Proof.
  intros HV0 HV1.
  destruct (initVisited_spec m Hwf) as (V0' & HV0' & Hsh & Hget).
  rewrite HV0 in HV0'. injection HV0' as <-.
  assert (Hr0 : gget V0 root = Some (init_cell m root)) by (by rewrite Hget, Hroot).
  rewrite (py_set2_gset _ _ (VParent root) _ Hr0) in HV1. injection HV1 as <-.
  assert (Hg1 : forall c, gget (gset V0 root (VParent root)) c
                          = if decide (c = root) then Some (VParent root)
                            else if isInMap m c then Some (init_cell m c) else None).
  { intros c. rewrite (gget_gset _ _ _ _ _ Hr0). by rewrite Hget. }
  assert (Hvis : forall c, vis (gset V0 root (VParent root)) c -> c = root).
  { intros c [p Hp]. rewrite Hg1 in Hp. destruct (decide (c = root)); [done|].
    destruct (isInMap m c); [|done]. unfold init_cell in Hp.
    destruct (gget (map m) c) as [[?|]|]; done. }
  exists (fun _ => 0%nat). constructor; simpl.
  - by apply shape_gset.
  - lia.
  - pose proof (zeros_gset_le V0 root root). pose proof (zeros_shape _ _ _ Hsh). lia.
  - rewrite Hg1. by rewrite decide_True.
  - done.
  - intros c p Hp Hne. exfalso. apply Hne, Hvis. by exists p.
  - intros; lia.
  - intros c Hc. apply list_elem_of_singleton in Hc as ->. exists root.
    rewrite Hg1. by rewrite decide_True.
  - exists 0%nat, [root], []. split; [done|]. split; [done|].
    intros c Hc. by apply elem_of_nil in Hc.
  - intros; lia.
  - intros c b Hc Hn. exfalso. apply Hn. rewrite (Hvis c Hc). apply list_elem_of_here.
  - intros c Hc Hn. exfalso. apply Hn. rewrite (Hvis c Hc). apply list_elem_of_here.
  - intros c [t Ht]. rewrite Hg1. destruct (decide (c = root)); [done|].
    rewrite (gget_isInMap _ _ _ Hwf Ht). unfold init_cell. by rewrite Ht.
  - intros c Hc. rewrite Hg1 in Hc. destruct (decide (c = root)); [done|].
    destruct (isInMap m c); [|done]. unfold init_cell in Hc. unfold known.
    destruct (gget (map m) c) as [[t|]|]; try done. by exists t.
Qed.

(** The head of the queue is nearest to the root. *)
Lemma head_minimal d s v Q' :
  InvD d s -> Q s = v :: Q' -> forall c, c ∈ Q s -> (d v <= d c)%nat.
Proof.
  intros HI HQ c Hc. destruct (inv_layers _ _ HI) as (k & Qa & Qb & HQab & Ha & Hb).
  rewrite HQab in Hc. rewrite HQ in HQab.
  assert (Hdc : d c = k \/ d c = S k).
  { apply elem_of_app in Hc as [?|?]; [left; by apply Ha|right; by apply Hb]. }
  destruct Qa as [|a Qa].
  - simpl in HQab. subst Qb. rewrite (Hb v) by apply list_elem_of_here.
    apply elem_of_app in Hc as [Hc|Hc]; [by apply elem_of_nil in Hc|].
    rewrite (Hb c Hc). lia.
  - injection HQab as <- _. rewrite (Ha v) by apply list_elem_of_here. lia.
Qed.

(** A walk to a cell not reached yet passes through the queue. *)
Lemma first_unvisited d s c n :
  InvD d s -> walk c n -> ~ vis (Visited s) c ->
  exists y i, (i < n)%nat /\ walk y i /\ y ∈ Q s.
Proof.
  intros HI Hw. induction Hw as [|b c n Hw IH He]; intros Hnv.
  - exfalso. apply Hnv. exists root. apply (inv_root _ _ HI).
  - destruct (gget (Visited s) b) as [[| |p]|] eqn:Hb.
    1,2,4: destruct IH as (y & i & Hi & Hy & HyQ);
           [intros [p Hp]; congruence|exists y, i; split; [lia|done]].
    destruct (decide (b ∈ Q s)) as [HbQ|HbQ].
    + exists b, n. split; [lia|done].
    + exfalso. apply Hnv. eapply (inv_closed _ _ HI); [by exists p|done|done].
Qed.

(** The invariant survives one round of the loop that expands [v]. *)
Lemma InvD_expand d s v Q' V' news :
  InvD d s -> Q s = v :: Q' -> targetFound m v target = Ok false ->
  news = filter (fun p => gget (Visited s) p = Some VZero)
                (filter (fun p => enterable m mode p) (all_around v)) ->
  shape (Z.to_nat (fst (MAPSIZE m))) (Z.to_nat (snd (MAPSIZE m))) V' ->
  (forall c, gget V' c = if decide (c ∈ news) then Some (VParent v)
                         else gget (Visited s) c) ->
  (zeros V' + length news = zeros (Visited s))%nat ->
  InvD (fun c => if decide (c ∈ news) then S (d v) else d c)
       (mkBfs V' (Q' ++ news) (r s + 1)).
Proof.
  intros HI HQ Hfound Hnews Hsh' Hget Hz.
  assert (Hnews_iff : forall c, c ∈ news <->
            c ∈ all_around v /\ enterable m mode c = true
            /\ gget (Visited s) c = Some VZero).
  { intros c. rewrite Hnews, !list_elem_of_filter, Is_true_true. tauto. }
  assert (Hnv : forall c, c ∈ news -> ~ vis (Visited s) c).
  { intros c Hc [p Hp]. apply Hnews_iff in Hc as (_ & _ & Hc). congruence. }
  assert (Hmono : forall c, vis (Visited s) c -> vis V' c).
  { intros c Hc. destruct Hc as [p Hp]. exists p. rewrite Hget.
    rewrite decide_False; [done|]. intros Hcn. apply (Hnv c Hcn). by exists p. }
  assert (Hvis' : forall c, vis V' c -> c ∈ news \/ vis (Visited s) c).
  { intros c [p Hp]. rewrite Hget in Hp.
    destruct (decide (c ∈ news)); [by left|right; by exists p]. }
  assert (HvQ : v ∈ Q s) by (rewrite HQ; apply list_elem_of_here).
  assert (Hvv : vis (Visited s) v) by (by apply (inv_queue _ _ HI)).
  assert (Hold : forall c, vis (Visited s) c -> c ∉ news).
  { intros c Hc Hcn. by apply (Hnv c Hcn). }
  pose proof (inv_r _ _ HI) as Hr.
  constructor; simpl.
  - done.
  - lia.
  - pose proof (inv_measure _ _ HI) as Hm. rewrite HQ in Hm. simpl in Hm.
    rewrite length_app. rewrite Z2Nat.inj_add by lia.
    change (Z.to_nat 1) with 1%nat. lia.
  - rewrite Hget. rewrite decide_False; [apply (inv_root _ _ HI)|].
    apply Hold. exists root. apply (inv_root _ _ HI).
  - rewrite decide_False; [apply (inv_d_root _ _ HI)|].
    apply Hold. exists root. apply (inv_root _ _ HI).
  - intros c p Hp Hne. rewrite Hget in Hp.
    destruct (decide (c ∈ news)) as [Hcn|Hcn].
    + injection Hp as <-. apply Hnews_iff in Hcn as (Hadj & Hent & Hzero).
      split; [|split].
      * split; [done|split; [done|]]. by apply (inv_zero _ _ HI).
      * by apply Hmono.
      * rewrite decide_False; [done|]. by apply Hold.
    + destruct (inv_tree _ _ HI c p Hp Hne) as (He & Hvp & Hd).
      split; [done|split; [by apply Hmono|]].
      rewrite decide_False; [done|]. by apply Hold.
  - intros c Hc. rewrite Z2Nat.inj_add by lia. change (Z.to_nat 1) with 1%nat.
    destruct (decide (c ∈ news)) as [Hcn|Hcn].
    + pose proof (inv_depth _ _ HI v Hvv). lia.
    + destruct (Hvis' c Hc) as [?|Hc']; [done|].
      pose proof (inv_depth _ _ HI c Hc'). lia.
  - intros c Hc. apply elem_of_app in Hc as [Hc|Hc].
    + apply Hmono, (inv_queue _ _ HI). rewrite HQ. by apply list_elem_of_further.
    + exists v. rewrite Hget. by rewrite decide_True.
  - destruct (inv_layers _ _ HI) as (k & Qa & Qb & HQab & Ha & Hb).
    rewrite HQ in HQab.
    assert (HdQ : forall c, c ∈ Q' -> c ∉ news).
    { intros c Hc. apply Hold, (inv_queue _ _ HI). rewrite HQ.
      by apply list_elem_of_further. }
    destruct Qa as [|a Qa].
    + simpl in HQab. subst Qb. exists (S k), Q', news. split; [done|]. split.
      * intros c Hc. rewrite decide_False by (by apply HdQ).
        apply Hb. by apply list_elem_of_further.
      * intros c Hc. rewrite decide_True by done.
        f_equal. apply Hb, list_elem_of_here.
    + injection HQab as <- ->. exists k, Qa, (Qb ++ news).
      split; [by rewrite app_assoc|]. split.
      * intros c Hc. rewrite decide_False.
        -- apply Ha. by apply list_elem_of_further.
        -- apply HdQ. apply elem_of_app. by left.
      * intros c Hc. apply elem_of_app in Hc as [Hc|Hc].
        -- rewrite decide_False; [by apply Hb|].
           apply HdQ. apply elem_of_app. by right.
        -- rewrite decide_True by done. f_equal. apply Ha, list_elem_of_here.
  - intros c n Hc Hw. destruct (decide (c ∈ news)) as [Hcn|Hcn].
    + destruct (first_unvisited d s c n HI Hw (Hnv c Hcn)) as (y & i & Hi & Hy & HyQ).
      pose proof (inv_opt _ _ HI y i (inv_queue _ _ HI y HyQ) Hy).
      pose proof (head_minimal d s v Q' HI HQ y HyQ). lia.
    + destruct (Hvis' c Hc) as [?|Hc']; [done|]. by apply (inv_opt _ _ HI).
  - intros c b Hc HcQ He.
    assert (Hcn : c ∉ news) by (intros ?; apply HcQ, elem_of_app; by right).
    destruct (Hvis' c Hc) as [?|Hc']; [done|].
    destruct (decide (c = v)) as [->|Hcv].
    + destruct He as (Hadj & Hent & Hkn).
      pose proof (inv_known _ _ HI b Hkn) as Hbn.
      destruct (isInMap_gget _ _ Hwf (known_isInMap b Hkn)) as [t Ht].
      assert (is_Some (gget (Visited s) b)) as [cell Hcell].
      { pose proof (known_isInMap b Hkn) as Hin. apply isInMap_spec in Hin.
        eapply gget_shape; [apply (inv_shape _ _ HI)|lia|lia]. }
      destruct cell as [| |p]; [done| |apply Hmono; by exists p].
      exists v. rewrite Hget. rewrite decide_True; [done|]. by apply Hnews_iff.
    + apply Hmono. eapply (inv_closed _ _ HI); [done| |done].
      rewrite HQ. intros Hin. apply elem_of_cons in Hin as [?|Hin]; [done|].
      apply HcQ, elem_of_app. by left.
  - intros c Hc HcQ.
    assert (Hcn : c ∉ news) by (intros ?; apply HcQ, elem_of_app; by right).
    destruct (Hvis' c Hc) as [?|Hc']; [done|].
    destruct (decide (c = v)) as [->|Hcv]; [done|].
    apply (inv_seen _ _ HI); [done|].
    rewrite HQ. intros Hin. apply elem_of_cons in Hin as [?|Hin]; [done|].
    apply HcQ, elem_of_app. by left.
  - intros c Hkn. rewrite Hget. destruct (decide (c ∈ news)); [done|].
    by apply (inv_known _ _ HI).
  - intros c Hc. rewrite Hget in Hc. destruct (decide (c ∈ news)); [done|].
    by apply (inv_zero _ _ HI).
Qed.

(** The loop goes round again only by expanding the head of the queue, and
    then the invariant holds again and the measure has dropped by one. *)
Lemma bfs_step_Continue wfuel s s' :
  Inv s -> bfs_step wfuel m root target radius mode s = Continue s' ->
  Inv s' /\ r s' = r s + 1 /\
  (zeros (Visited s') + length (Q s') + 1 = zeros (Visited s) + length (Q s))%nat /\
  exists v Q', Q s = v :: Q' /\ within_radius radius (r s) = true
               /\ targetFound m v target = Ok false.
Proof.
  intros [d HI] Hstep. unfold bfs_step in Hstep.
  destruct (Q s) as [|v Q'] eqn:HQ; [done|].
  destruct (within_radius radius (r s)) eqn:Hrad; [|done].
  destruct (targetFound m v target) as [[|]| |] eqn:Hfound; try done.
  rewrite (getNeighbours_spec _ _ _ Hwf) in Hstep. simpl in Hstep.
  set (ps := filter (fun p => enterable m mode p) (all_around v)) in *.
  destruct (visit_all_spec _ _ v ps (Visited s) Q' (inv_shape _ _ HI))
    as (V' & Hrun & Hsh' & Hget & Hz).
  { intros p Hp. apply list_elem_of_filter in Hp as [Hp _].
    apply Is_true_true in Hp. unfold enterable in Hp.
    apply andb_true_iff in Hp as [Hin _]. apply isInMap_spec in Hin.
    eapply gget_shape; [apply (inv_shape _ _ HI)|lia|lia]. }
  { apply NoDup_filter, NoDup_all_around. }
  rewrite Hrun in Hstep. simpl in Hstep. injection Hstep as <-. simpl.
  set (news := filter (fun p => gget (Visited s) p = Some VZero) ps) in *.
  split; [|split; [done|split]].
  - eexists. eapply (InvD_expand d s v Q' V' news); try done.
    intros c. rewrite Hget.
    destruct (decide (c ∈ news)) as [Hc|Hc].
    + rewrite decide_True; [done|]. by apply list_elem_of_filter in Hc as [? ?].
    + rewrite decide_False; [done|]. intros [? ?]. apply Hc.
      by apply list_elem_of_filter.
  - rewrite length_app. simpl. lia.
  - by exists v, Q'.
Qed.

(** The states the loop passes through. *)
Definition steps (wfuel : nat) : relation bfs_state :=
  rtc (fun a b => bfs_step wfuel m root target radius mode a = Continue b).

(** With fuel above the measure the loop leaves through its body: the
    result is the one of the last round. *)
Lemma bfs_loop_finish wfuel fuel s :
  Inv s -> (zeros (Visited s) + length (Q s) < fuel)%nat ->
  exists s', steps wfuel s s' /\ Inv s' /\
    bfs_step wfuel m root target radius mode s'
    = Finish (bfs_loop fuel wfuel m root target radius mode s).
Proof.
  revert s. induction fuel as [|fuel IH]; intros s HI Hlt; [lia|].
  simpl. destruct (bfs_step wfuel m root target radius mode s) as [s1|out] eqn:Hstep.
  - destruct (bfs_step_Continue _ _ _ HI Hstep) as (HI1 & _ & Hm & _).
    destruct (IH s1 HI1) as (s' & Hsteps & HI' & Hfin); [lia|].
    exists s'. split; [|done]. by eapply rtc_l.
  - exists s. split; [apply rtc_refl|done].
Qed.

Lemma steps_Inv wfuel s s' : Inv s -> steps wfuel s s' -> Inv s'.
Proof.
  intros HI Hs. induction Hs as [|a b c Hab _ IH]; [done|].
  apply IH. by destruct (bfs_step_Continue _ _ _ HI Hab).
Qed.

Lemma linked_snoc path : forall a b c,
  linked a path -> last (a :: path) = Some b -> c ∈ all_around b ->
  linked a (path ++ [c]).
Proof.
  induction path as [|e path IH]; intros a b c Hl Hlast Hc; simpl in *.
  - injection Hlast as ->. done.
  - destruct Hl as [Hadj Hl]. split; [done|]. by eapply IH.
Qed.

(** The inner loop walks the parents of a reached cell back to the root:
    it returns the path to the cell, reversed, with the root at the end. *)
Lemma walk_back_spec d s fuel :
  InvD d s -> forall c, vis (Visited s) c -> (d c < fuel)%nat ->
  exists path, walk_back fuel (Visited s) c = Ok (rev path ++ [root]) /\
    linked root path /\ last (root :: path) = Some c /\ length path = d c /\
    (forall i b, path !! i = Some b ->
                 d b = S i /\ enterable m mode b = true /\ known m b) /\
    (forall i a b, (root :: path) !! i = Some a -> path !! i = Some b ->
                   gget (Visited s) b = Some (VParent a)).
Proof.
  intros HI. induction fuel as [|fuel IH]; intros c [p Hp] Hlt; [lia|].
  simpl. rewrite (py_get2_gget _ _ _ Hp). simpl.
  destruct (decide (p = c)) as [->|Hne].
  - rewrite bool_decide_eq_true_2 by done.
    assert (c = root) as ->.
    { destruct (decide (c = root)) as [|Hcr]; [done|].
      destruct (inv_tree _ _ HI c c Hp Hcr) as (_ & _ & Hd). lia. }
    exists []. simpl. rewrite (inv_d_root _ _ HI). repeat split; try done.
  - rewrite bool_decide_eq_false_2 by done.
    assert (Hcr : c <> root).
    { intros ->. rewrite (inv_root _ _ HI) in Hp. congruence. }
    destruct (inv_tree _ _ HI c p Hp Hcr) as (He & Hvp & Hd).
    destruct (IH p Hvp) as (path & Hrun & Hl & Hlast & Hlen & Hidx & Hlink); [lia|].
    rewrite Hrun. simpl. exists (path ++ [c]).
    split; [by rewrite rev_unit|].
    split; [eapply linked_snoc; [done|done|apply He]|].
    split; [by rewrite app_comm_cons, last_snoc|].
    split; [rewrite length_app; simpl; lia|].
    split.
    + intros i b Hb. apply lookup_app_Some in Hb as [Hb|[Hi Hb]].
      * by apply Hidx.
      * apply list_lookup_singleton_Some in Hb as [Hi0 <-].
        split; [lia|]. destruct He as (_ & ? & ?). done.
    + intros i a b Ha Hb. apply lookup_app_Some in Hb as [Hb|[Hi Hb]].
      * apply (Hlink i a b); [|done]. apply lookup_lt_Some in Hb.
        rewrite app_comm_cons, lookup_app_l in Ha; [done|simpl; lia].
      * apply list_lookup_singleton_Some in Hb as [Hi0 <-].
        assert (i = length path) as -> by lia.
        rewrite app_comm_cons, lookup_app_l in Ha by (simpl; lia).
        rewrite last_lookup in Hlast. simpl in Hlast. congruence.
Qed.

Lemma path_NoDup d path :
  d root = 0%nat -> (forall i b, path !! i = Some b -> d b = S i) ->
  NoDup (root :: path).
Proof.
  intros Hd0 Hidx. apply NoDup_cons. split.
  - intros Hin. apply list_elem_of_lookup in Hin as [i Hi].
    apply Hidx in Hi. lia.
  - apply NoDup_alt. intros i j b Hi Hj. apply Hidx in Hi, Hj. lia.
Qed.

(** The tree path is a walk of the search graph. *)
Lemma vis_walk d s : InvD d s -> forall c, vis (Visited s) c -> walk c (d c).
Proof.
  intros HI c. remember (d c) as n eqn:Hn. revert c Hn.
  induction n as [|n IH]; intros c Hn [p Hp].
  - destruct (decide (c = root)) as [->|Hcr]; [constructor|].
    destruct (inv_tree _ _ HI c p Hp Hcr) as (_ & _ & Hd). lia.
  - assert (Hcr : c <> root).
    { intros ->. rewrite (inv_d_root _ _ HI) in Hn. lia. }
    destruct (inv_tree _ _ HI c p Hp Hcr) as (He & Hvp & Hd).
    eapply walk_step; [|exact He]. apply IH; [lia|done].
Qed.

Lemma py_get_fuel {A} (l : list A) i : py_get l i <> OutOfFuel.
Proof. unfold py_get. destruct (_ && _); [|done]. by destruct (l !! _). Qed.

Lemma py_get2_fuel {A} (g : list (list A)) i j : py_get2 g i j <> OutOfFuel.
Proof.
  unfold py_get2. pose proof (py_get_fuel g i).
  destruct (py_get g i) as [row| |]; simpl; [apply py_get_fuel|done|done].
Qed.

Lemma targetFound_fuel v : targetFound m v target <> OutOfFuel.
Proof.
  unfold targetFound.
  pose proof (py_get2_fuel (map m) (coordinates.x v) (coordinates.y v)) as Hg.
  destruct target as [s0|c|dsc|w|k|e];
    repeat (match goal with
            | |- context [if ?b then _ else _] => destruct b
            end);
    destruct (py_get2 (map m) (coordinates.x v) (coordinates.y v)) as [[[?|?]|]| |];
    simpl; try done.
  destruct (passable t); done.
Qed.

(** How the loop is left. *)
Inductive bfs_exit (s : bfs_state) (out : res (list Action * option Coords)) : Prop :=
| exit_empty : Q s = [] -> out = Ok ([], position m) -> bfs_exit s out
| exit_radius v Q' :
    Q s = v :: Q' -> within_radius radius (r s) = false ->
    out = Ok ([], position m) -> bfs_exit s out
| exit_raise v Q' e :
    Q s = v :: Q' -> within_radius radius (r s) = true ->
    targetFound m v target = Raise e -> out = Raise e -> bfs_exit s out
| exit_found v Q' d path :
    Q s = v :: Q' -> within_radius radius (r s) = true ->
    targetFound m v target = Ok true ->
    InvD d s -> linked root path -> last (root :: path) = Some v ->
    length path = d v -> NoDup (root :: path) ->
    (forall b, b ∈ path -> enterable m mode b = true /\ known m b) ->
    (forall i a b, (root :: path) !! i = Some a -> path !! i = Some b ->
                   gget (Visited s) b = Some (VParent a)) ->
    out = rbind (getActions m root path) (fun acts => Ok (acts, Some v)) ->
    bfs_exit s out.

Lemma bfs_step_Finish wfuel s out :
  Inv s ->
  (Z.to_nat (fst (MAPSIZE m)) * Z.to_nat (snd (MAPSIZE m)) + 2 <= wfuel)%nat ->
  bfs_step wfuel m root target radius mode s = Finish out ->
  bfs_exit s out.
Proof.
  intros [d HI] Hfuel Hstep. unfold bfs_step in Hstep.
  destruct (Q s) as [|v Q'] eqn:HQ.
  { injection Hstep as <-. by apply exit_empty. }
  destruct (within_radius radius (r s)) eqn:Hrad.
  2: { injection Hstep as <-. by eapply exit_radius. }
  pose proof (targetFound_fuel v) as Hnf.
  destruct (targetFound m v target) as [[|]|e|] eqn:Hfound; [| | |done].
  - injection Hstep as <-.
    assert (Hvv : vis (Visited s) v).
    { apply (inv_queue _ _ HI). rewrite HQ. apply list_elem_of_here. }
    destruct (walk_back_spec d s wfuel HI v Hvv)
      as (path & Hrun & Hl & Hlast & Hlen & Hidx & Hlink).
    { pose proof (inv_depth _ _ HI v Hvv). pose proof (inv_measure _ _ HI). lia. }
    rewrite Hrun. simpl. rewrite removelast_last, rev_involutive.
    eapply (exit_found s _ v Q' d path); try done.
    + eapply path_NoDup; [apply (inv_d_root _ _ HI)|]. intros i b Hb. by apply Hidx.
    + intros b Hb. apply list_elem_of_lookup in Hb as [i Hi].
      apply Hidx in Hi as (_ & ? & ?). done.
  - exfalso. rewrite (getNeighbours_spec _ _ _ Hwf) in Hstep. simpl in Hstep.
    set (ps := filter (fun p => enterable m mode p) (all_around v)) in *.
    destruct (visit_all_spec _ _ v ps (Visited s) Q' (inv_shape _ _ HI))
      as (V' & Hrun & _).
    { intros p Hp. apply list_elem_of_filter in Hp as [Hp _].
      apply Is_true_true in Hp. unfold enterable in Hp.
      apply andb_true_iff in Hp as [Hin _]. apply isInMap_spec in Hin.
      eapply gget_shape; [apply (inv_shape _ _ HI)|lia|lia]. }
    { apply NoDup_filter, NoDup_all_around. }
    rewrite Hrun in Hstep. done.
  - injection Hstep as <-. by eapply exit_raise.
Qed.

Lemma bfs_init_spec :
  exists s0, bfs_init m root = Ok s0 /\ Inv s0 /\ Q s0 = [root] /\ r s0 = 0.
Proof.
  destruct (initVisited_spec m Hwf) as (V0 & HV0 & Hsh & Hget).
  assert (Hr0 : gget V0 root = Some (init_cell m root)) by (by rewrite Hget, Hroot).
  pose proof (py_set2_gset _ _ (VParent root) _ Hr0) as HV1.
  exists (mkBfs (gset V0 root (VParent root)) [root] 0).
  split; [|split; [|done]].
  - unfold bfs_init. rewrite HV0. simpl. rewrite HV1. done.
  - by eapply Inv_init.
Qed.

(** [shortestPath] always leaves its loop, from a state reached from the
    initial one by rounds of the loop. *)
Lemma shortestPath_exit :
  exists s0 s, bfs_init m root = Ok s0 /\ steps (bfs_fuel m) s0 s /\ Inv s /\
    bfs_exit s (shortestPath m root target radius mode).
Proof.
  destruct bfs_init_spec as (s0 & Hinit & HI0 & HQ0 & Hr0).
  destruct (bfs_loop_finish (bfs_fuel m) (bfs_fuel m) s0 HI0) as (s & Hsteps & HI & Hfin).
  { destruct HI0 as [d HD]. pose proof (inv_measure _ _ HD). unfold bfs_fuel. lia. }
  exists s0, s. split; [done|split; [done|split; [done|]]].
  unfold shortestPath. rewrite Hinit. simpl.
  eapply bfs_step_Finish; [done| |exact Hfin]. unfold bfs_fuel. lia.
Qed.

(** Every cell the loop takes from the queue lies within [r] steps of the
    root, [r] being the number of rounds made so far. *)
Lemma popped_within s v Q' :
  Inv s -> Q s = v :: Q' ->
  exists n, walk v n /\ Z.of_nat n <= r s.
Proof.
  intros [d HI] HQ.
  assert (Hvv : vis (Visited s) v).
  { apply (inv_queue _ _ HI). rewrite HQ. apply list_elem_of_here. }
  exists (d v). split; [by eapply vis_walk|].
  pose proof (inv_depth _ _ HI v Hvv). pose proof (inv_r _ _ HI). lia.
Qed.

Lemma popped_known s v Q' :
  Inv s -> Q s = v :: Q' -> v = root \/ known m v.
Proof.
  intros [d HI] HQ.
  assert (Hvv : vis (Visited s) v).
  { apply (inv_queue _ _ HI). rewrite HQ. apply list_elem_of_here. }
  destruct (decide (v = root)) as [|Hne]; [by left|right].
  destruct Hvv as [p Hp]. destruct (inv_tree _ _ HI v p Hp Hne) as (He & _).
  by eapply edge_known.
Qed.

(** Once the queue is empty every cell that a walk reaches has been taken
    from the queue and has failed the goal test. *)
Lemma exhausted_seen s c n :
  Inv s -> Q s = [] -> walk c n -> targetFound m c target = Ok false.
Proof.
  intros [d HI] HQ Hw.
  assert (Hnq : forall b, b ∉ Q s) by (intros b; rewrite HQ; apply not_elem_of_nil).
  apply (inv_seen _ _ HI); [|done].
  induction Hw as [|b c n Hw IH He].
  - exists root. apply (inv_root _ _ HI).
  - by eapply (inv_closed _ _ HI).
Qed.

End bfs.

(** ** What [shortestPath] returns *)

Lemma getTargetFace_fuel X Y : getTargetFace X Y <> OutOfFuel.
Proof. unfold getTargetFace. by repeat case_match. Qed.

Lemma dirChange_fuel cur face step : dirChange cur face step <> OutOfFuel.
Proof.
  unfold dirChange. pose proof (getTargetFace_fuel cur step).
  destruct (getTargetFace cur step); simpl; [|done|done]. by repeat case_match.
Qed.

Lemma getActions_loop_fuel path : forall a face, getActions_loop a face path <> OutOfFuel.
Proof.
  induction path as [|b path IH]; intros a face; simpl; [done|].
  pose proof (dirChange_fuel a face b).
  destruct (dirChange a face b) as [[dirs f]| |]; simpl; [|done|done].
  specialize (IH b f). by destruct (getActions_loop b f path).
Qed.

Lemma getActions_fuel m a path : getActions m a path <> OutOfFuel.
Proof. unfold getActions. destruct (description m); [apply getActions_loop_fuel|done]. Qed.

(** The search never runs out of the fuel it is given. *)
Lemma shortestPath_fuel m root target radius mode :
  wf_map m -> isInMap m root = true ->
  shortestPath m root target radius mode <> OutOfFuel.
Proof.
  intros Hwf Hroot.
  destruct (shortestPath_exit m root target radius mode Hwf Hroot)
    as (s0 & s & _ & _ & _ & Hexit).
  destruct Hexit as [? ->|? ? ? ? ->|? ? ? ? ? ? ->|? ? ? ? ? ? ? ? ? ? ? ? ? ? ->]; try done.
  pose proof (getActions_fuel m root path). by destruct (getActions m root path).
Qed.

(** A goal whose test does not raise on recorded tiles. *)
Definition target_safe (m : Map) (target : Target) : Prop :=
  forall v, known m v -> exists b, targetFound m v target = Ok b.

Lemma target_safe_TConsumable m c : target_safe m (TConsumable c).
Proof.
  intros v [t Ht]. unfold targetFound. rewrite (py_get2_gget _ _ _ Ht). simpl.
  destruct t as [d|t]; simpl; eauto.
Qed.


Lemma targetFound_TCoords m v c :
  wf_map m -> isInMap m v = true ->
  targetFound m v (TCoords c) = Ok (bool_decide (v = c)).
Proof.
  intros Hwf Hin. destruct (isInMap_gget _ _ Hwf Hin) as [t Ht].
  unfold targetFound. rewrite (py_get2_gget _ _ _ Ht). simpl.
  destruct v as [vx vy], c as [tx ty]. simpl.
  destruct (Z.eqb_spec vx tx), (Z.eqb_spec vy ty); simpl;
    (rewrite bool_decide_eq_true_2 by congruence) ||
    (rewrite bool_decide_eq_false_2 by congruence); done.
Qed.

(** With a position on a recorded tile, a description of the champion and
    a safe goal, the search returns. *)
Lemma shortestPath_returns m root target radius mode dsc :
  wf_map m -> isInMap m root = true -> known m root ->
  description m = Some dsc -> target_safe m target ->
  exists acts tgt, shortestPath m root target radius mode = Ok (acts, tgt).
Proof.
  intros Hwf Hroot Hkr Hdsc Hsafe.
  destruct (shortestPath_exit m root target radius mode Hwf Hroot)
    as (s0 & s & _ & _ & HI & Hexit).
  destruct Hexit as [? ->|v Q' ? ? ->|v Q' e HQ _ Hraise ->
                    |v Q' d path HQ _ _ _ Hl _ _ _ _ _ ->]; eauto.
  - exfalso. destruct (Hsafe v) as [b Hb]; [|congruence].
    destruct (popped_known _ _ _ _ _ _ _ HI HQ) as [->|]; done.
  - unfold getActions. rewrite Hdsc.
    destruct (getActions_loop_linked path root (facing dsc) Hl) as (acts & -> & _).
    simpl. eauto.
Qed.

(** When no cell within reach of the loop satisfies the goal, the result is
    the empty sequence with [self.position]. *)
Lemma shortestPath_miss m root target radius mode :
  wf_map m -> isInMap m root = true ->
  (forall v n, walk m root mode v n -> within_radius radius (Z.of_nat n) = true ->
               targetFound m v target = Ok false) ->
  shortestPath m root target radius mode = Ok ([], position m).
Proof.
  intros Hwf Hroot Hmiss.
  destruct (shortestPath_exit m root target radius mode Hwf Hroot)
    as (s0 & s & _ & _ & HI & Hexit).
  assert (Hpop : forall v Q', Q s = v :: Q' -> within_radius radius (r s) = true ->
                              targetFound m v target = Ok false).
  { intros v Q' HQ Hrad. destruct (popped_within _ _ _ _ _ _ _ HI HQ) as (n & Hw & Hn).
    apply (Hmiss v n Hw). destruct radius as [rad|]; [|done]. simpl in *.
    apply Z.leb_le. apply Z.leb_le in Hrad. lia. }
  destruct Hexit as [? ->|v Q' ? ? ->|v Q' e HQ Hrad Hraise ->
                    |v Q' d path HQ Hrad Hfound _ _ _ _ _ _ _ ->]; try done.
  - rewrite (Hpop v Q' HQ Hrad) in Hraise. done.
  - rewrite (Hpop v Q' HQ Hrad) in Hfound. done.
Qed.

(** A goal satisfied at the root gives the empty sequence as well. *)
Lemma shortestPath_at_root m root target radius mode dsc :
  wf_map m -> isInMap m root = true -> description m = Some dsc ->
  targetFound m root target = Ok true ->
  shortestPath m root target radius mode
  = Ok ([], if within_radius radius 0 then Some root else position m).
Proof.
  intros Hwf Hroot Hdsc Hfound.
  destruct (shortestPath_exit m root target radius mode Hwf Hroot)
    as (s0 & s & Hinit & Hsteps & HI & Hexit).
  destruct (bfs_init_spec m root target mode Hwf Hroot) as (s0' & Hinit' & _ & HQ0 & Hr0).
  rewrite Hinit in Hinit'. injection Hinit' as <-.
  assert (s = s0) as ->.
  { destruct Hsteps as [|a b c Hab _]; [done|]. exfalso.
    destruct (bfs_init_spec m root target mode Hwf Hroot) as (a' & Ha' & HIa & _).
    rewrite Hinit in Ha'. injection Ha' as <-.
    destruct (bfs_step_Continue _ _ _ _ _ Hwf _ _ _ HIa Hab)
      as (_ & _ & _ & v & Q' & HQ & _ & Hf).
    rewrite HQ0 in HQ. injection HQ as <- _. congruence. }
  destruct Hexit as [HQ ->|v Q' HQ Hrad ->|v Q' e HQ Hrad Hraise ->
                    |v Q' d path HQ Hrad _ _ _ Hlast _ Hnd _ _ ->].
  - rewrite HQ0 in HQ. done.
  - rewrite Hr0 in Hrad. by rewrite Hrad.
  - rewrite HQ0 in HQ. injection HQ as <- _. congruence.
  - rewrite HQ0 in HQ. injection HQ as <- _. rewrite Hr0 in Hrad. rewrite Hrad.
    destruct path as [|b path].
    + unfold getActions. rewrite Hdsc. done.
    + exfalso. apply NoDup_cons in Hnd as [Hnin _]. apply Hnin.
      change (root :: b :: path) with ([root] ++ b :: path) in Hlast.
      rewrite last_app in Hlast. simpl in Hlast.
      destruct (last (b :: path)) as [e|] eqn:He.
      * injection Hlast as ->. by apply last_Some_elem_of.
      * by apply last_None in He.
Qed.

(** ** Shortest paths to a coordinate *)

Lemma walk_isInMap m root mode c n :
  wf_map m -> isInMap m root = true -> walk m root mode c n -> isInMap m c = true.
Proof.
  intros Hwf Hroot Hw. destruct Hw as [|b c n _ (_ & _ & [t Ht])]; [done|].
  by eapply gget_isInMap.
Qed.

(** A step changes the taxi distance to the root by at most one. *)
Lemma walk_taxi_lower m root mode c n :
  walk m root mode c n -> taxiDistance root c <= Z.of_nat n.
Proof.
  induction 1 as [|b c n Hw IH (Hadj & _)].
  - unfold taxiDistance. lia.
  - apply all_around_facing in Hadj as [f ->].
    unfold taxiDistance in *. destruct b as [bx by_], root as [rx ry].
    destruct f; simpl in *; lia.
Qed.

(** Every cell of the map is recorded and may be entered. *)
Definition obstacle_free (m : Map) (mode : string) : Prop :=
  forall c, isInMap m c = true -> enterable m mode c = true /\ known m c.

Lemma taxi_walk m root mode :
  obstacle_free m mode -> isInMap m root = true ->
  forall n c, isInMap m c = true -> taxiDistance root c = Z.of_nat n ->
              walk m root mode c n.
Proof.
  intros Hfree Hroot. induction n as [|n IH]; intros c Hc Hn.
  - assert (c = root) as ->; [|constructor].
    unfold taxiDistance in Hn. destruct c, root. simpl in *. f_equal; lia.
  - apply isInMap_spec in Hroot as Hr. apply isInMap_spec in Hc as Hc'.
    unfold taxiDistance in Hn. destruct c as [cx cy], root as [rx ry]. simpl in *.
    set (b := if decide (rx < cx) then coordinates.mk (cx - 1) cy
              else if decide (cx < rx) then coordinates.mk (cx + 1) cy
              else if decide (ry < cy) then coordinates.mk cx (cy - 1)
              else coordinates.mk cx (cy + 1)).
    assert (Hb : isInMap m b = true /\
                 taxiDistance (coordinates.mk rx ry) b = Z.of_nat n /\
                 coordinates.mk cx cy ∈ all_around b).
    { unfold b, taxiDistance, all_around.
      repeat case_decide; simpl; rewrite isInMap_spec; simpl;
        (split; [lia|split; [lia|]]); rewrite !elem_of_cons.
      - left. f_equal; lia.
      - right. left. f_equal; lia.
      - right. right. left. f_equal; lia.
      - right. right. right. left. f_equal; lia. }
    destruct Hb as (Hbin & Hbn & Hadj).
    eapply walk_step; [by apply IH|].
    split; [done|]. by apply Hfree.
Qed.

(** Without a radius the search finds every coordinate that a walk
    reaches, along the path that [Visited] stores for it. *)
Lemma shortestPath_coords_path m root t mode dsc n0 :
  wf_map m -> isInMap m root = true -> description m = Some dsc ->
  walk m root mode t n0 ->
  exists s0 s d path acts,
    bfs_init m root = Ok s0 /\ steps m root (TCoords t) None mode (bfs_fuel m) s0 s /\
    InvD m root (TCoords t) mode d s /\ vis (Visited s) t /\
    linked root path /\ last (root :: path) = Some t /\ length path = d t /\
    NoDup (root :: path) /\
    (forall i a b, (root :: path) !! i = Some a -> path !! i = Some b ->
                   gget (Visited s) b = Some (VParent a)) /\
    getActions_loop root (facing dsc) path = Ok acts /\
    shortestPath m root (TCoords t) None mode = Ok (acts, Some t).
Proof.
  intros Hwf Hroot Hdsc Hw0.
  destruct (shortestPath_exit m root (TCoords t) None mode Hwf Hroot)
    as (s0 & s & Hinit & Hsteps & HI & Hexit).
  pose proof (walk_isInMap _ _ _ _ _ Hwf Hroot Hw0) as Htin.
  destruct Hexit as [HQ ->|v Q' ? ? ->|v Q' e HQ _ Hraise ->
                    |v Q' d path HQ _ Hfound HD Hl Hlast Hlen Hnd _ Hlink ->]; try done.
  - exfalso. pose proof (exhausted_seen _ _ _ _ _ _ _ HI HQ Hw0) as Hs.
    rewrite (targetFound_TCoords _ _ _ Hwf Htin) in Hs.
    by rewrite bool_decide_eq_true_2 in Hs.
  - exfalso. assert (isInMap m v = true) as Hvin.
    { destruct (popped_known _ _ _ _ _ _ _ HI HQ) as [->|Hk]; [done|].
      destruct Hk as [tile Ht]. by eapply gget_isInMap. }
    rewrite (targetFound_TCoords _ _ _ Hwf Hvin) in Hraise. done.
  - assert (Hvv : vis (Visited s) v).
    { apply (inv_queue _ _ _ _ _ _ HD). rewrite HQ. apply list_elem_of_here. }
    assert (isInMap m v = true) as Hvin.
    { destruct (popped_known _ _ _ _ _ _ _ HI HQ) as [->|Hk]; [done|].
      destruct Hk as [tile Ht]. by eapply gget_isInMap. }
    rewrite (targetFound_TCoords _ _ _ Hwf Hvin) in Hfound.
    injection Hfound as Hvt. apply bool_decide_eq_true in Hvt. subst v.
    unfold getActions. rewrite Hdsc.
    destruct (getActions_loop_linked path root (facing dsc) Hl) as (acts & Hacts & _).
    rewrite Hacts. simpl. exists s0, s, d, path, acts.
    do 10 (split; [done|]). done.
Qed.

(** The path found has the fewest moves. *)
Lemma shortestPath_coords m root t mode dsc n0 :
  wf_map m -> isInMap m root = true -> description m = Some dsc ->
  walk m root mode t n0 ->
  exists acts, shortestPath m root (TCoords t) None mode = Ok (acts, Some t) /\
    (forall n, walk m root mode t n -> (moves acts <= n)%nat) /\
    walk m root mode t (moves acts) /\
    (turns acts <= moves acts + 1)%nat.
Proof.
  intros Hwf Hroot Hdsc Hw0.
  destruct (shortestPath_coords_path m root t mode dsc n0 Hwf Hroot Hdsc Hw0)
    as (s0 & s & d & path & acts & _ & _ & HD & Hvv & Hl & _ & Hlen & Hnd & _
        & Hacts & Hrun).
  destruct (getActions_loop_turns root (facing dsc) path Hl Hnd)
    as (acts' & Hacts' & Hm & Ht).
  rewrite Hacts in Hacts'. injection Hacts' as <-.
  exists acts. split; [done|]. rewrite Hm, Hlen.
  split; [|split].
  - intros n Hn. by apply (inv_opt _ _ _ _ _ _ HD).
  - by eapply vis_walk.
  - by rewrite <- Hlen.
Qed.

(** ** [Map.__init__] and [Map.update] keep the map well formed *)

(** A successful [g[i][j] = a] writes one cell of [g]. *)
Lemma py_set2_inv {A} (g g' : list (list A)) i j a :
  py_set2 g i j a = Ok g' ->
  exists c, is_Some (gget g c) /\ g' = gset g c a /\
            (0 <= i -> coordinates.x c = i) /\ (0 <= j -> coordinates.y c = j).
Proof.
  unfold py_set2, py_get, py_set. intros H.
  set (ni := if i <? 0 then i + Z.of_nat (length g) else i) in *.
  destruct (Z.leb_spec 0 ni); [|done].
  destruct (Z.ltb_spec ni (Z.of_nat (length g))); [|done]. simpl in H.
  destruct (g !! Z.to_nat ni) as [row|] eqn:Hrow; [|done]. simpl in H.
  set (nj := if j <? 0 then j + Z.of_nat (length row) else j) in *.
  destruct (Z.leb_spec 0 nj); [|done].
  destruct (Z.ltb_spec nj (Z.of_nat (length row))); [|done]. simpl in H.
  injection H as <-.
  exists (coordinates.mk ni nj). unfold gget, gset. simpl.
  destruct (Z.leb_spec 0 ni); [|lia]. destruct (Z.leb_spec 0 nj); [|lia]. simpl.
  rewrite Hrow. split; [apply lookup_lt_is_Some_2; lia|]. split; [done|].
  unfold ni, nj. split; intros; case_match; try done; lia.
Qed.

Lemma py_set2_shape {A} w h (g g' : list (list A)) i j a :
  py_set2 g i j a = Ok g' -> shape w h g -> shape w h g'.
Proof. intros H Hsh. apply py_set2_inv in H as (c & _ & -> & _). by apply shape_gset. Qed.

Lemma py_set2_in_bounds {A} w h (g : list (list A)) c a :
  shape w h g ->
  0 <= coordinates.x c < Z.of_nat w -> 0 <= coordinates.y c < Z.of_nat h ->
  py_set2 g (coordinates.x c) (coordinates.y c) a = Ok (gset g c a).
Proof.
  intros Hsh Hx Hy. destruct (gget_shape _ _ _ c Hsh Hx Hy) as [b Hb].
  by eapply py_set2_gset.
Qed.

Lemma py_set2_recorded {A} (g g' : list (list (option A))) i j t p :
  py_set2 g i j (Some t) = Ok g' ->
  (exists t0, gget g p = Some (Some t0)) -> exists t1, gget g' p = Some (Some t1).
Proof.
  intros H [t0 Ht0]. apply py_set2_inv in H as (c & [b Hb] & -> & _).
  rewrite (gget_gset _ _ _ _ _ Hb). destruct (decide (p = c)); eauto.
Qed.

Lemma py_set2_recorded_at {A} (g g' : list (list (option A))) t p :
  py_set2 g (coordinates.x p) (coordinates.y p) (Some t) = Ok g' ->
  0 <= coordinates.x p -> 0 <= coordinates.y p ->
  gget g' p = Some (Some t).
Proof.
  intros H Hx Hy. apply py_set2_inv in H as (c & [b Hb] & -> & Hcx & Hcy).
  assert (c = p) as ->.
  { destruct c, p. simpl in *. f_equal; [by apply Hcx|by apply Hcy]. }
  rewrite (gget_gset _ _ _ _ _ Hb). by rewrite decide_True.
Qed.

Lemma shape_blank sz : shape (Z.to_nat (fst sz)) (Z.to_nat (snd sz)) (blank sz).
Proof.
  unfold blank. split.
  - rewrite length_fmap. unfold range. by rewrite length_seqZ.
  - apply Forall_fmap, Forall_forall. intros i _. simpl.
    rewrite length_fmap. unfold range. by rewrite length_seqZ.
Qed.

(** The terrain lies inside the arena. *)
Definition terrain_in_bounds (a : Arena) : Prop :=
  Forall (fun ct => 0 <= coordinates.x (fst ct) < fst (size a)
                    /\ 0 <= coordinates.y (fst ct) < snd (size a)) (terrain a).

Lemma initMap_terrain_ok w h t : forall g,
  shape (Z.to_nat w) (Z.to_nat h) g ->
  Forall (fun ct : Coords * Tile => 0 <= coordinates.x (fst ct) < w
                    /\ 0 <= coordinates.y (fst ct) < h) t ->
  exists g', initMap_terrain g t = Ok g' /\ shape (Z.to_nat w) (Z.to_nat h) g'.
Proof.
  induction t as [|[c tile] t IH]; intros g Hsh Ht; simpl.
  - eauto.
  - apply Forall_cons in Ht as [[Hx Hy] Ht]. simpl in Hx, Hy.
    rewrite (py_set2_in_bounds _ _ _ _ _ Hsh) by lia. simpl.
    apply IH; [by apply shape_gset|done].
Qed.

Lemma Map_init_ok a :
  terrain_in_bounds a ->
  exists m, Map_init a = Ok m /\ wf_map m /\ MAPSIZE m = size a /\
            menhir m = None /\ position m = None /\ description m = None.
Proof.
  intros Hb. unfold Map_init, initMap.
  destruct (initMap_terrain_ok (fst (size a)) (snd (size a)) (terrain a) (blank (size a)))
    as (g & -> & Hsh); [apply shape_blank|done|].
  simpl. eexists. split; [done|]. split; [exact Hsh|]. by repeat split.
Qed.

Lemma update_tiles_ok vt : forall m m',
  update_tiles m vt = Returns tt m' -> wf_map m ->
  wf_map m' /\ MAPSIZE m' = MAPSIZE m /\ position m' = position m
  /\ description m' = description m
  /\ (forall p, known m p -> known m' p)
  /\ (forall p t, (p, t) ∈ vt -> 0 <= coordinates.x p -> 0 <= coordinates.y p ->
                  known m' p).
Proof.
  induction vt as [|[coord tile] vt IH]; intros m m' H Hwf; simpl in H.
  - injection H as <-. do 5 (split; [done|]).
    intros p t Hin. by apply elem_of_nil in Hin.
  - destruct (py_set2 (map m) (coordinates.x coord) (coordinates.y coord)
                      (Some (Described tile))) as [g| |] eqn:Hset; [|done|done].
    set (m1 := set_map m g) in *.
    set (m2 := match menhir m1 with
               | Some _ => m1
               | None => if String.eqb (type tile) "menhir"
                         then set_menhir m1 (Some coord) else m1
               end) in *.
    assert (Hm2 : map m2 = g /\ MAPSIZE m2 = MAPSIZE m /\ position m2 = position m
                  /\ description m2 = description m).
    { unfold m2. destruct (menhir m1); [done|]. by destruct (String.eqb _ _). }
    destruct Hm2 as (Hmap & Hsize & Hpos & Hdsc).
    assert (Hwf2 : wf_map m2).
    { unfold wf_map. rewrite Hmap, Hsize. by eapply py_set2_shape. }
    destruct (IH m2 m' H Hwf2) as (Hwf' & Hsz' & Hpos' & Hdsc' & Hkeep & Hnew).
    split; [done|]. split; [congruence|]. split; [congruence|]. split; [congruence|].
    assert (Hk12 : forall p, known m p -> known m2 p).
    { intros p Hp. unfold known. rewrite Hmap. by eapply py_set2_recorded. }
    split; [by auto|].
    intros p t Hin Hx Hy. apply elem_of_cons in Hin as [Heq|Hin]; [|by eapply Hnew].
    injection Heq as -> ->. apply Hkeep. unfold known. rewrite Hmap.
    eexists. by eapply py_set2_recorded_at.
Qed.

Lemma dict_get_elem {V} (d : list (Coords * V)) k v :
  dict_get d k = Ok v -> (k, v) ∈ d.
Proof.
  induction d as [|[k' v'] d IH]; simpl; [done|].
  case_bool_decide as Hk.
  - intros [= ->]. subst. apply list_elem_of_here.
  - intros H. apply list_elem_of_further. by apply IH.
Qed.

Lemma Map_update_ok m k m' :
  Map_update m k = Returns tt m' -> wf_map m -> isInMap m (k_position k) = true ->
  wf_map m' /\ MAPSIZE m' = MAPSIZE m /\ position m' = Some (k_position k)
  /\ isInMap m' (k_position k) = true /\ known m' (k_position k)
  /\ exists t, dict_get (visible_tiles k) (k_position k) = Ok t
               /\ description m' = character t.
Proof.
  intros H Hwf Hin. unfold Map_update in H.
  destruct (dict_get (visible_tiles k) (k_position k)) as [t| |] eqn:Hget;
    [|done|done].
  apply update_tiles_ok in H as (Hwf' & Hsz & Hpos & Hdsc & _ & Hnew); [|done].
  simpl in *. split; [done|]. split; [done|]. split; [done|].
  apply isInMap_spec in Hin as Hin'.
  split; [|split].
  - unfold isInMap. rewrite Hsz. exact Hin.
  - eapply Hnew; [by eapply dict_get_elem|lia|lia].
  - by exists t.
Qed.

(** ** The tree of the search on an obstacle-free grid *)

(** The effect of a round of the loop on the queue and on [Visited]. *)
Lemma bfs_step_shape m root target radius mode wfuel s s' :
  wf_map m -> Inv m root target mode s ->
  bfs_step wfuel m root target radius mode s = Continue s' ->
  exists v Q' news,
    Q s = v :: Q' /\
    news = filter (fun p => gget (Visited s) p = Some VZero)
                  (filter (fun p => enterable m mode p) (all_around v)) /\
    Q s' = Q' ++ news /\
    (forall c, gget (Visited s') c = if decide (c ∈ news) then Some (VParent v)
                                     else gget (Visited s) c).
Proof.
  intros Hwf [d HI] Hstep. unfold bfs_step in Hstep.
  destruct (Q s) as [|v Q'] eqn:HQ; [done|].
  destruct (within_radius radius (r s)) eqn:Hrad; [|done].
  destruct (targetFound m v target) as [[|]| |] eqn:Hfound; try done.
  rewrite (getNeighbours_spec _ _ _ Hwf) in Hstep. simpl in Hstep.
  set (ps := filter (fun p => enterable m mode p) (all_around v)) in *.
  destruct (visit_all_spec _ _ v ps (Visited s) Q' (inv_shape _ _ _ _ _ _ HI))
    as (V' & Hrun & Hsh' & Hget & Hz).
  { intros p Hp. apply list_elem_of_filter in Hp as [Hp _].
    apply Is_true_true in Hp. unfold enterable in Hp.
    apply andb_true_iff in Hp as [Hin _]. apply isInMap_spec in Hin.
    eapply gget_shape; [apply (inv_shape _ _ _ _ _ _ HI)|lia|lia]. }
  { apply NoDup_filter, NoDup_all_around. }
  rewrite Hrun in Hstep. simpl in Hstep. injection Hstep as <-. simpl.
  exists v, Q', (filter (fun p => gget (Visited s) p = Some VZero) ps).
  do 3 (split; [done|]).
  intros c. rewrite Hget.
  destruct (decide (c ∈ filter (fun p => gget (Visited s) p = Some VZero) ps)) as [Hc|Hc].
  - rewrite decide_True; [done|]. by apply list_elem_of_filter in Hc as [? ?].
  - rewrite decide_False; [done|]. intros [? ?]. apply Hc. by apply list_elem_of_filter.
Qed.

(** [u] left the queue before [v], or stands in it before [v]. *)
Definition precedes (Q : list Coords) (u v : Coords) : Prop :=
  u ∉ Q \/ exists l1 l2, Q = l1 ++ u :: l2 /\ v ∈ l2.

Lemma precedes_head v Q' u : NoDup (v :: Q') -> precedes (v :: Q') u v -> u ∉ v :: Q'.
Proof.
  intros Hnd [Hu|(l1 & l2 & HQ & Hv)]; [done|]. exfalso.
  apply NoDup_cons in Hnd as [Hnin _]. apply Hnin.
  destruct l1 as [|a l1]; simpl in HQ; injection HQ as -> ->; [done|].
  apply elem_of_app. right. by apply list_elem_of_further.
Qed.

Lemma precedes_pop v Q' news u c :
  NoDup (v :: Q') -> u ∉ news -> precedes (v :: Q') u c -> precedes (Q' ++ news) u c.
Proof.
  intros Hnd Hun [Hu|(l1 & l2 & HQ & Hc)].
  - left. intros Hin. apply elem_of_app in Hin as [Hin|Hin]; [|done].
    apply Hu. by apply list_elem_of_further.
  - destruct l1 as [|a l1]; simpl in HQ; injection HQ as -> ->.
    + left. apply NoDup_cons in Hnd as [Hnin _].
      intros Hin. apply elem_of_app in Hin as [Hin|Hin]; done.
    + right. exists l1, (l2 ++ news). split; [by rewrite <- app_assoc|].
      apply elem_of_app. by left.
Qed.

Lemma precedes_old Q' news u c : u ∉ news -> c ∈ news -> precedes (Q' ++ news) u c.
Proof.
  intros Hun Hc. destruct (decide (u ∈ Q')) as [Hu|Hu].
  - right. apply list_elem_of_split in Hu as (l1 & l2 & ->).
    exists l1, (l2 ++ news). split; [by rewrite <- app_assoc|].
    apply elem_of_app. by right.
  - left. intros Hin. apply elem_of_app in Hin as [Hin|Hin]; done.
Qed.

(** A filter keeps the order of the elements it keeps. *)
Lemma filter_keeps_order {A} (P : A -> Prop) `{!forall a, Decision (P a)}
    (l1 l2 : list A) (u c : A) :
  P u -> P c -> c ∈ l2 ->
  exists k1 k2, filter P (l1 ++ u :: l2) = k1 ++ u :: k2 /\ c ∈ k2.
Proof.
  intros Hu Hc Hin. exists (filter P l1), (filter P l2).
  rewrite filter_app, filter_cons_True by done. split; [done|].
  by apply list_elem_of_filter.
Qed.

Section open_grid.
Variables (m : Map) (root : Coords) (target : Target) (radius : option Z) (mode : string).
Hypothesis Hwf : wf_map m.
Hypothesis Hroot : isInMap m root = true.
Hypothesis Hfree : obstacle_free m mode.

Lemma vis_isInMap d s c :
  InvD m root target mode d s -> vis (Visited s) c -> isInMap m c = true.
Proof.
  intros HI [p Hp]. apply isInMap_spec.
  pose proof (gget_shape_inv _ _ _ _ _ (inv_shape _ _ _ _ _ _ HI) Hp). lia.
Qed.

Lemma free_edge a b : b ∈ all_around a -> isInMap m b = true -> edge m mode a b.
Proof. intros Hadj Hin. split; [done|]. by apply Hfree. Qed.

(** On an obstacle-free grid the depth in the tree is the taxi distance. *)
Lemma depth_taxi d s c :
  InvD m root target mode d s -> vis (Visited s) c ->
  Z.of_nat (d c) = taxiDistance root c.
Proof.
  intros HI Hc.
  pose proof (walk_taxi_lower _ _ _ _ _ (vis_walk _ _ _ _ _ _ HI c Hc)) as Hlow.
  pose proof (vis_isInMap d s c HI Hc) as Hin.
  assert (Hnn : 0 <= taxiDistance root c) by (unfold taxiDistance; lia).
  pose proof (taxi_walk m root mode Hfree Hroot (Z.to_nat (taxiDistance root c)) c Hin)
    as Hw.
  rewrite Z2Nat.id in Hw by done.
  pose proof (inv_opt _ _ _ _ _ _ HI c _ Hc (Hw eq_refl)). lia.
Qed.

(** A parent is one step nearer to the root than its child. *)
Lemma parent_nearer d s c p :
  InvD m root target mode d s -> gget (Visited s) c = Some (VParent p) -> c <> root ->
  c ∈ all_around p /\ taxiDistance root c = taxiDistance root p + 1.
Proof.
  intros HI Hp Hne.
  destruct (inv_tree _ _ _ _ _ _ HI c p Hp Hne) as ((Hadj & _) & Hvp & Hd).
  split; [done|].
  rewrite <- (depth_taxi d s c HI) by (by exists p).
  rewrite <- (depth_taxi d s p HI Hvp). lia.
Qed.

(** The cell diagonally next to [v]: one column over (by [e]) and one row
    nearer to the row of the root. *)
Definition diag (v : Coords) (e : Z) : Coords :=
  coordinates.mk (coordinates.x v + e)
                 (coordinates.y v - Z.sgn (coordinates.y v - coordinates.y root)).

(** The order in which the loop reaches the cells of an obstacle-free
    grid: off the row of the root, the diagonal neighbour away from the
    column of the root is reached and expanded first, and so every cell off
    that row is reached from the cell of its column one row nearer. *)
Record InvO (s : bfs_state) : Prop := mkInvO {
  invo_nodup : NoDup (Q s);
  invo_diag : forall v e,
      vis (Visited s) v -> coordinates.y v <> coordinates.y root ->
      e = 1 \/ e = -1 ->
      coordinates.x v = coordinates.x root
      \/ e = Z.sgn (coordinates.x v - coordinates.x root) ->
      isInMap m (diag v e) = true ->
      vis (Visited s) (diag v e) /\ precedes (Q s) (diag v e) v;
  invo_vertical : forall c p,
      gget (Visited s) c = Some (VParent p) -> c <> root ->
      coordinates.y c <> coordinates.y root -> coordinates.x p = coordinates.x c
}.

Lemma InvO_init s0 :
  bfs_init m root = Ok s0 -> InvO s0.
Proof.
  intros Hinit.
  destruct (bfs_init_spec m root target mode Hwf Hroot) as (s0' & Hinit' & [d HI] & HQ & Hr).
  rewrite Hinit in Hinit'. injection Hinit' as <-.
  assert (Hvis : forall c, vis (Visited s0) c -> c = root).
  { intros c [p Hp]. destruct (decide (c = root)) as [|Hne]; [done|].
    destruct (inv_tree _ _ _ _ _ _ HI c p Hp Hne) as (_ & _ & Hd).
    pose proof (inv_depth _ _ _ _ _ _ HI c (ex_intro _ p Hp)) as Hle.
    rewrite Hr in Hle. simpl in Hle. lia. }
  constructor.
  - rewrite HQ. apply NoDup_singleton.
  - intros v e Hv Hy. rewrite (Hvis v Hv) in Hy. done.
  - intros c p Hp Hne. exfalso. apply Hne, Hvis. by exists p.
Qed.

Lemma InvO_step wfuel s s' :
  Inv m root target mode s -> InvO s ->
  bfs_step wfuel m root target radius mode s = Continue s' -> InvO s'.
Proof.
  intros HInv HO Hstep.
  destruct (bfs_step_shape _ _ _ _ _ _ _ _ Hwf HInv Hstep)
    as (v & Q' & news & HQ & Hnews & HQ' & Hget).
  destruct (bfs_step_Continue _ _ _ _ _ Hwf _ _ _ HInv Hstep) as ([d' HI'] & _).
  destruct HInv as [d HI].
  pose proof (invo_nodup _ HO) as Hnd. rewrite HQ in Hnd.
  assert (Hnews_iff : forall c, c ∈ news <->
            c ∈ all_around v /\ enterable m mode c = true
            /\ gget (Visited s) c = Some VZero).
  { intros c. rewrite Hnews, !list_elem_of_filter, Is_true_true. tauto. }
  assert (Hnv : forall c, c ∈ news -> ~ vis (Visited s) c).
  { intros c Hc [p Hp]. apply Hnews_iff in Hc as (_ & _ & Hc). congruence. }
  assert (Hmono : forall c, vis (Visited s) c -> vis (Visited s') c).
  { intros c Hc. destruct Hc as [p Hp]. exists p. rewrite Hget.
    rewrite decide_False; [done|]. intros Hcn. apply (Hnv c Hcn). by exists p. }
  assert (Hvis' : forall c, vis (Visited s') c -> c ∈ news \/ vis (Visited s) c).
  { intros c [p Hp]. rewrite Hget in Hp.
    destruct (decide (c ∈ news)); [by left|right; by exists p]. }
  assert (Hpar : forall c, c ∈ news -> gget (Visited s') c = Some (VParent v)).
  { intros c Hc. rewrite Hget. by rewrite decide_True. }
  assert (Hvv : vis (Visited s) v).
  { apply (inv_queue _ _ _ _ _ _ HI). rewrite HQ. apply list_elem_of_here. }
  pose proof (vis_isInMap d s v HI Hvv) as Hvin. apply isInMap_spec in Hvin.
  apply isInMap_spec in Hroot as Hrin.
  (* the cell beside the head, away from the column of the root, is reached *)
  assert (Hside : forall e,
            coordinates.y v <> coordinates.y root -> e = 1 \/ e = -1 ->
            coordinates.x v = coordinates.x root
            \/ e = Z.sgn (coordinates.x v - coordinates.x root) ->
            isInMap m (coordinates.mk (coordinates.x v + e) (coordinates.y v)) = true ->
            vis (Visited s) (coordinates.mk (coordinates.x v + e) (coordinates.y v))).
  { intros e Hy He Haway Hin.
    assert (Hdin : isInMap m (diag v e) = true).
    { apply isInMap_spec in Hin. apply isInMap_spec. unfold diag. simpl in *. lia. }
    destruct (invo_diag _ HO v e Hvv Hy He Haway Hdin) as [Hdv Hprec].
    rewrite HQ in Hprec. apply (precedes_head _ _ _ Hnd) in Hprec.
    rewrite <- HQ in Hprec.
    eapply (inv_closed _ _ _ _ _ _ HI); [exact Hdv|exact Hprec|].
    apply free_edge; [|done]. unfold diag, all_around. simpl.
    rewrite !elem_of_cons.
    destruct (Z.sgn_spec (coordinates.y v - coordinates.y root))
      as [[? Hs]|[[? Hs]|[? Hs]]]; rewrite Hs; [|lia|].
    - do 2 right. left. f_equal; lia.
    - do 3 right. left. f_equal; lia. }
  assert (Hvert' : forall c p,
            gget (Visited s') c = Some (VParent p) -> c <> root ->
            coordinates.y c <> coordinates.y root -> coordinates.x p = coordinates.x c).
  { intros c p Hp Hne Hy.
    destruct (decide (c ∈ news)) as [Hcn|Hcn].
    - pose proof (Hpar c Hcn) as Hpv. rewrite Hp in Hpv. injection Hpv as ->.
      destruct (parent_nearer d' s' c v HI' Hp Hne) as [Hadj Htaxi].
      apply Hnews_iff in Hcn as Hc3. destruct Hc3 as (_ & Hent & _).
      unfold enterable in Hent. apply andb_true_iff in Hent as [Hcin _].
      apply all_around_facing in Hadj as [f Hf].
      assert (Hcx : coordinates.x c = coordinates.x (value f) + coordinates.x v)
        by (by rewrite Hf).
      assert (Hcy : coordinates.y c = coordinates.y (value f) + coordinates.y v)
        by (by rewrite Hf).
      unfold taxiDistance in Htaxi.
      destruct f; simpl in Hcx, Hcy; try lia; exfalso; apply (Hnv _ Hcn).
      + assert (c = coordinates.mk (coordinates.x v + -1) (coordinates.y v)) as Hc
          by (destruct c; simpl in *; f_equal; lia).
        rewrite Hc in *. apply (Hside (-1)); [lia|lia|lia|done].
      + assert (c = coordinates.mk (coordinates.x v + 1) (coordinates.y v)) as Hc
          by (destruct c; simpl in *; f_equal; lia).
        rewrite Hc in *. apply (Hside 1); [lia|lia|lia|done].
    - rewrite Hget, decide_False in Hp by done.
      by apply (invo_vertical _ HO c p). }
  constructor.
  - rewrite HQ'. apply NoDup_app. split; [by apply NoDup_cons in Hnd as [_ ?]|]. split.
    + intros c Hc Hcn. apply (Hnv c Hcn), (inv_queue _ _ _ _ _ _ HI).
      rewrite HQ. by apply list_elem_of_further.
    + rewrite Hnews. apply NoDup_filter, NoDup_filter, NoDup_all_around.
  - intros v0 e Hv0 Hy He Haway Hin. rewrite HQ'.
    destruct (Hvis' v0 Hv0) as [Hn|Hold].
    + pose proof (Hpar v0 Hn) as Hp0.
      assert (Hne0 : v0 <> root).
      { intros ->. apply (Hnv _ Hn). exists root. apply (inv_root _ _ _ _ _ _ HI). }
      pose proof (Hvert' v0 v Hp0 Hne0 Hy) as Hx.
      destruct (parent_nearer d' s' v0 v HI' Hp0 Hne0) as [Hadj Htaxi].
      apply all_around_facing in Hadj as [f Hf].
      assert (H0x : coordinates.x v0 = coordinates.x (value f) + coordinates.x v)
        by (by rewrite Hf).
      assert (H0y : coordinates.y v0 = coordinates.y (value f) + coordinates.y v)
        by (by rewrite Hf).
      unfold taxiDistance in Htaxi.
      assert (Hu0 : diag v0 e
                    = coordinates.mk (coordinates.x v + e) (coordinates.y v)).
      { unfold diag. destruct f; simpl in H0x, H0y; f_equal; lia. }
      rewrite Hu0 in *.
      destruct (decide (coordinates.y v = coordinates.y root)) as [Hrow|Hrow].
      * set (u0 := coordinates.mk (coordinates.x v + e) (coordinates.y v)) in *.
        assert (Hu0adj : exists l1 l2, all_around v = l1 ++ u0 :: l2 /\ v0 ∈ l2).
        { unfold all_around, u0.
          assert (Hv0c : v0 = coordinates.mk (coordinates.x v) (coordinates.y v + 1)
                        \/ v0 = coordinates.mk (coordinates.x v) (coordinates.y v - 1)).
          { destruct v0 as [x0 y0].
            destruct f; simpl in *; [right|left|lia|lia]; f_equal; lia. }
          destruct He as [-> | ->].
          - exists [], [coordinates.mk (coordinates.x v - 1) (coordinates.y v);
                        coordinates.mk (coordinates.x v) (coordinates.y v + 1);
                        coordinates.mk (coordinates.x v) (coordinates.y v - 1)].
            split; [done|]. rewrite !elem_of_cons. tauto.
          - exists [coordinates.mk (coordinates.x v + 1) (coordinates.y v)],
                   [coordinates.mk (coordinates.x v) (coordinates.y v + 1);
                    coordinates.mk (coordinates.x v) (coordinates.y v - 1)].
            split; [simpl; repeat f_equal; lia|]. rewrite !elem_of_cons. tauto. }
        destruct Hu0adj as (l1 & l2 & Hall & Hv0l2).
        destruct (Hfree u0 Hin) as [Hent Hkn].
        assert (is_Some (gget (Visited s) u0)) as [cell Hcell].
        { apply isInMap_spec in Hin.
          eapply gget_shape; [apply (inv_shape _ _ _ _ _ _ HI)|lia|lia]. }
        pose proof (inv_known _ _ _ _ _ _ HI u0 Hkn) as Hnn.
        destruct cell as [| |pu]; [done| |].
        -- split; [exists v; apply Hpar; apply Hnews_iff; split; [|done];
                   rewrite Hall; apply elem_of_app; right; apply list_elem_of_here|].
           right. apply Hnews_iff in Hn as (_ & Hent0 & Hz0).
           destruct (filter_keeps_order (fun p => enterable m mode p) l1 l2 u0 v0)
             as (k1 & k2 & Hk & Hv0k); [by apply Is_true_true|by apply Is_true_true|done|].
           apply list_elem_of_split in Hv0k as Hk2.
           destruct (filter_keeps_order (fun p => gget (Visited s) p = Some VZero)
                       k1 k2 u0 v0) as (j1 & j2 & Hj & Hv0j); [done|done|done|].
           exists (Q' ++ j1), j2. split; [|done].
           rewrite Hnews, Hall, Hk, Hj. by rewrite <- app_assoc.
        -- split; [apply Hmono; by exists pu|].
           apply precedes_old; [|done]. intros Hun. apply (Hnv _ Hun). by exists pu.
      * assert (Hu0v : vis (Visited s)
                           (coordinates.mk (coordinates.x v + e) (coordinates.y v))).
        { apply Hside; [done|done| |done]. rewrite Hx. exact Haway. }
        split; [by apply Hmono|]. apply precedes_old; [|done].
        intros Hun. by apply (Hnv _ Hun).
    + destruct (invo_diag _ HO v0 e Hold Hy He Haway Hin) as [Hdv Hprec].
      split; [by apply Hmono|]. rewrite HQ in Hprec.
      apply (precedes_pop v); [done| |done]. intros Hun. by apply (Hnv _ Hun).
  - exact Hvert'.
Qed.

Lemma steps_InvO wfuel s s' :
  Inv m root target mode s -> InvO s ->
  steps m root target radius mode wfuel s s' -> InvO s'.
Proof.
  intros HI HO Hs. induction Hs as [|a b c Hab _ IH]; [done|].
  apply IH.
  - by destruct (bfs_step_Continue _ _ _ _ _ Hwf _ _ _ HI Hab).
  - by eapply InvO_step.
Qed.

(** The parent of a reached cell: off the row of the root, the cell of the
    same column one row nearer; on that row, the cell one column nearer. *)
Lemma parent_is_pred d s c p :
  InvD m root target mode d s -> InvO s ->
  gget (Visited s) c = Some (VParent p) -> c <> root ->
  (coordinates.y c <> coordinates.y root ->
   p = coordinates.mk (coordinates.x c)
                      (coordinates.y c - Z.sgn (coordinates.y c - coordinates.y root))) /\
  (coordinates.y c = coordinates.y root ->
   p = coordinates.mk (coordinates.x c - Z.sgn (coordinates.x c - coordinates.x root))
                      (coordinates.y c)).
Proof.
  intros HI HO Hp Hne.
  destruct (parent_nearer d s c p HI Hp Hne) as [Hadj Htaxi].
  apply all_around_facing in Hadj as [f Hf].
  assert (Hcx : coordinates.x c = coordinates.x (value f) + coordinates.x p)
    by (by rewrite Hf).
  assert (Hcy : coordinates.y c = coordinates.y (value f) + coordinates.y p)
    by (by rewrite Hf).
  unfold taxiDistance in Htaxi. split; intros Hy.
  - pose proof (invo_vertical _ HO c p Hp Hne Hy) as Hx.
    destruct p as [px py]. destruct f; simpl in *; f_equal; lia.
  - destruct p as [px py]. destruct f; simpl in *; f_equal; lia.
Qed.

(** The facing in which the path of the tree arrives at a cell. *)
Definition arrival (f0 : Facing) (c : Coords) : Facing :=
  if decide (c = root) then f0
  else if decide (coordinates.y c = coordinates.y root)
       then (if decide (coordinates.x root < coordinates.x c) then RIGHT else LEFT)
       else (if decide (coordinates.y root < coordinates.y c) then DOWN else UP).

Lemma arrival_row f0 c :
  c <> root -> coordinates.y c = coordinates.y root ->
  arrival f0 c = if decide (coordinates.x root < coordinates.x c) then RIGHT else LEFT.
Proof.
  intros Hne Hy. unfold arrival.
  destruct (decide (c = root)); [done|].
  by destruct (decide (coordinates.y c = coordinates.y root)).
Qed.

Lemma arrival_off f0 c :
  coordinates.y c <> coordinates.y root ->
  arrival f0 c = if decide (coordinates.y root < coordinates.y c) then DOWN else UP.
Proof.
  intros Hy. unfold arrival.
  destruct (decide (c = root)) as [->|]; [done|].
  by destruct (decide (coordinates.y c = coordinates.y root)).
Qed.

Lemma linked_app_inv l1 : forall a l2, linked a (l1 ++ l2) -> linked a l1.
Proof.
  induction l1 as [|b l1 IH]; intros a l2 Hl; [done|].
  destruct Hl as [Hadj Hl]. split; [done|]. by eapply IH.
Qed.

(** Along the path of the tree the champion turns at most twice at the
    root and once more where the path leaves the row of the root. *)
Lemma tree_path_turns d s f0 :
  InvD m root target mode d s -> InvO s ->
  forall path c,
    linked root path -> last (root :: path) = Some c -> NoDup (root :: path) ->
    (forall i a b, (root :: path) !! i = Some a -> path !! i = Some b ->
                   gget (Visited s) b = Some (VParent a)) ->
    exists acts, getActions_loop root f0 path = Ok acts /\
      final_facing root f0 path = arrival f0 c /\
      (c = root -> acts = []) /\
      (turns acts <= if decide (coordinates.y c = coordinates.y root) then 2 else 3)%nat.
Proof.
  intros HI HO path.
  induction path as [|b path IH] using rev_ind; intros c Hl Hlast Hnd Hlink.
  - simpl in Hlast. injection Hlast as <-. exists []. simpl.
    unfold arrival. rewrite !decide_True by done. repeat split. vm_compute. lia.
  - rewrite app_comm_cons, last_snoc in Hlast. injection Hlast as <-.
    assert (exists p, last (root :: path) = Some p) as [p Hp].
    { destruct (last (root :: path)) as [p|] eqn:E; [by exists p|].
      by apply last_None in E. }
    assert (Hbp : gget (Visited s) b = Some (VParent p)).
    { apply (Hlink (length path) p b).
      - rewrite app_comm_cons, lookup_app_l by (simpl; lia).
        rewrite last_lookup in Hp. exact Hp.
      - rewrite lookup_app_r by lia. by rewrite Nat.sub_diag. }
    assert (Hbr : b <> root).
    { intros ->. apply NoDup_cons in Hnd as [Hn _]. apply Hn.
      apply elem_of_app. right. apply list_elem_of_here. }
    assert (Hnd' : NoDup (root :: path)).
    { rewrite app_comm_cons in Hnd. by apply NoDup_app in Hnd as [? _]. }
    pose proof (linked_app_inv _ _ _ Hl) as Hl'.
    destruct (IH p Hl' Hp Hnd') as (acts & Hacts & Hff & Hroot_acts & Hturns).
    { intros i a b' Ha Hb'. apply (Hlink i a b').
      - apply lookup_lt_Some in Hb' as Hlt.
        rewrite app_comm_cons, lookup_app_l; [done|simpl; lia].
      - by apply lookup_app_l_Some. }
    destruct (parent_is_pred d s b p HI HO Hbp Hbr) as [Hoff Hon].
    set (g := arrival f0 b).
    assert (Hg : b = coordinates.add (value g) p).
    { unfold g.
      destruct (decide (coordinates.y b = coordinates.y root)) as [Hy|Hy].
      - rewrite (arrival_row _ _ Hbr Hy).
        rewrite (Hon Hy). assert (coordinates.x b <> coordinates.x root).
        { intros Hx. apply Hbr. destruct b, root. simpl in *. by f_equal. }
        destruct b as [bx by_]. simpl in *.
        destruct (decide (coordinates.x root < bx));
          unfold coordinates.add; simpl; f_equal; lia.
      - rewrite (arrival_off _ _ Hy).
        rewrite (Hoff Hy). destruct b as [bx by_]. simpl in *.
        destruct (decide (coordinates.y root < by_));
          unfold coordinates.add; simpl; f_equal; lia. }
    destruct (getActions_loop_snoc path root f0 p g acts Hl' Hp Hacts)
      as (dirs & Hd & Hrun & Hff').
    rewrite <- Hg in Hrun, Hff'.
    exists (acts ++ dirs ++ [STEP_FORWARD]).
    split; [done|]. split; [done|]. split; [done|].
    destruct (dirChange_unit p (final_facing root f0 path) g)
      as (dirs' & Hd' & _ & Ht & Hlen & Hnopp & _ & Hsame).
    rewrite Hd in Hd'. injection Hd' as <-.
    rewrite !turns_app. change (turns [STEP_FORWARD]) with 0%nat. rewrite Ht.
    rewrite Hff in Hnopp, Hsame.
    destruct (decide (p = root)) as [->|Hpr].
    { rewrite (Hroot_acts eq_refl). change (turns []) with 0%nat.
      destruct (decide (coordinates.y b = coordinates.y root)); lia. }
    clear IH Hlink.
    assert (Hpc : (coordinates.y b <> coordinates.y root ->
                   coordinates.x p = coordinates.x b /\
                   coordinates.y p
                   = coordinates.y b - Z.sgn (coordinates.y b - coordinates.y root)) /\
                  (coordinates.y b = coordinates.y root ->
                   coordinates.y p = coordinates.y b /\
                   coordinates.x p
                   = coordinates.x b - Z.sgn (coordinates.x b - coordinates.x root))).
    { split; intros Hy; [rewrite (Hoff Hy)|rewrite (Hon Hy)]; done. }
    destruct Hpc as [Hpoff Hpon].
    assert (Hpx : coordinates.y p = coordinates.y root ->
                  coordinates.x p <> coordinates.x root).
    { intros Hy Hx. apply Hpr. destruct p, root. simpl in *. by f_equal. }
    destruct (decide (coordinates.y b = coordinates.y root)) as [Hy|Hy].
    + destruct (Hpon Hy) as [Hpy Hpxe].
      assert (arrival f0 p = g) as Hsg.
      { unfold g. rewrite (arrival_row _ _ Hpr) by lia.
        rewrite (arrival_row _ _ Hbr Hy). specialize (Hpx ltac:(lia)).
        destruct (decide (coordinates.x root < coordinates.x p)),
                 (decide (coordinates.x root < coordinates.x b)); try done; exfalso; lia. }
      rewrite (Hsame (eq_sym Hsg)). rewrite decide_True in Hturns by lia.
      simpl. lia.
    + destruct (Hpoff Hy) as [Hpxe Hpy].
      destruct (decide (coordinates.y p = coordinates.y root)) as [Hpr2|Hpr2].
      * assert (length dirs <= 1)%nat.
        { apply Hnopp. unfold g. rewrite (arrival_row _ _ Hpr Hpr2).
          rewrite (arrival_off _ _ Hy).
          destruct (decide (coordinates.x root < coordinates.x p)),
                   (decide (coordinates.y root < coordinates.y b)); simpl; congruence. }
        lia.
      * assert (arrival f0 p = g) as Hsg.
        { unfold g. rewrite (arrival_off _ _ Hpr2), (arrival_off _ _ Hy).
          destruct (decide (coordinates.y root < coordinates.y p)),
                   (decide (coordinates.y root < coordinates.y b)); try done; exfalso; lia. }
        rewrite (Hsame (eq_sym Hsg)). simpl. lia.
Qed.

End open_grid.

(** On an obstacle-free grid the path to a cell of the map has the moves
    of the taxi distance and at most three turns. *)
Lemma shortestPath_coords_open m root mode t dsc :
  wf_map m -> isInMap m root = true -> obstacle_free m mode ->
  description m = Some dsc -> isInMap m t = true ->
  exists acts, shortestPath m root (TCoords t) None mode = Ok (acts, Some t) /\
    Z.of_nat (moves acts) = taxiDistance root t /\ (turns acts <= 3)%nat.
Proof.
  intros Hwf Hroot Hfree Hdsc Htin.
  assert (Hnn : 0 <= taxiDistance root t) by (unfold taxiDistance; lia).
  pose proof (taxi_walk m root mode Hfree Hroot (Z.to_nat (taxiDistance root t)) t Htin)
    as Hw.
  rewrite Z2Nat.id in Hw by done. specialize (Hw eq_refl).
  destruct (shortestPath_coords_path m root t mode dsc _ Hwf Hroot Hdsc Hw)
    as (s0 & s & d & path & acts & Hinit & Hsteps & HD & Hvv & Hl & Hlast & Hlen & Hnd
        & Hlink & Hacts & Hrun).
  exists acts. split; [done|].
  destruct (getActions_loop_linked path root (facing dsc) Hl) as (acts' & Hacts' & Hm & _).
  rewrite Hacts in Hacts'. injection Hacts' as <-.
  split.
  - rewrite Hm, Hlen. by eapply depth_taxi.
  - assert (HO : InvO m root s).
    { destruct (bfs_init_spec m root (TCoords t) mode Hwf Hroot) as (s0' & Hi' & HI0 & _).
      rewrite Hinit in Hi'. injection Hi' as <-.
      eapply (steps_InvO m root (TCoords t) None mode Hwf Hroot Hfree);
        [exact HI0| |exact Hsteps].
      exact (InvO_init m root (TCoords t) mode Hwf Hroot s0 Hinit). }
    destruct (tree_path_turns m root (TCoords t) mode Hroot Hfree d s (facing dsc)
                HD HO path t Hl Hlast Hnd Hlink)
      as (acts' & Hacts' & _ & _ & Hturns).
    rewrite Hacts in Hacts'. injection Hacts' as <-.
    destruct (decide (coordinates.y t = coordinates.y root)); lia.
Qed.

(** * The claims *)

(** ** Scenarios used as examples *)

Definition land : Tile := mkTile true None.
Definition wall : Tile := mkTile false None.

(** An arena of [w] columns and [h] rows of land. *)
Definition open_arena (w h : Z) : Arena :=
  mkArena (w, h)
          (flat_map (fun i => (fun j => (coordinates.mk i j, land)) <$> range h) (range w)).

Definition ares (f : Facing) : ChampionDescription := mkChampion "Ares" 8 "knife" f.

Definition own_tile (f : Facing) : TileDescription :=
  mkTileDescription "land" None (Some (ares f)) None [].

(** What the champion at [p] facing [f] sees: its own tile and [others]. *)
Definition look (p : Coords) (f : Facing) (others : list (Coords * TileDescription)) :
    ChampionKnowledge :=
  mkKnowledge p 2 ((p, own_tile f) :: others).

Definition land_tile : TileDescription := mkTileDescription "land" None None None [].

(** The cells [cs] seen as land without anything on it. *)
Definition seen_land (cs : list Coords) : list (Coords * TileDescription) :=
  (fun c => (c, land_tile)) <$> cs.

(** The cells of a grid of [w] columns and [h] rows, but [p]. *)
Definition cells_but (w h : Z) (p : Coords) : list Coords :=
  filter (fun c => c <> p) (flat_map (fun i => coordinates.mk i <$> range h) (range w)).

Definition no_map : Map := mkMap (0, 0) [] 0 None None [] None None.

(** The map of arena [a] after the observation [k]. *)
Definition map_seen (a : Arena) (k : ChampionKnowledge) : Map :=
  match Map_init a with
  | Ok m => match Map_update m k with
            | Returns _ m' => m'
            | _ => no_map
            end
  | _ => no_map
  end.

Definition potion : Target := TConsumable (mkConsumable "potion").

(** ** C9: which steps [getTargetFace] refuses *)

(** C9, counterexample: the zero vector and a non-unit vector along an axis
    are not unit directions, and [getTargetFace] answers with a facing for
    both instead of raising. *)
Lemma getTargetFace_accepts_non_unit :
  getTargetFace (coordinates.mk 2 2) (coordinates.mk 2 2) = Ok DOWN /\
  getTargetFace (coordinates.mk 0 0) (coordinates.mk 3 0) = Ok RIGHT /\
  (forall f, coordinates.mk 2 2 <> coordinates.add (value f) (coordinates.mk 2 2)) /\
  (forall f, coordinates.mk 3 0 <> coordinates.add (value f) (coordinates.mk 0 0)).
Proof.
  split; [reflexivity|]. split; [reflexivity|].
  split; intros []; vm_compute; congruence.
Qed.

(** C9, amended: the translation of a step from [X] to [Y] raises the
    invariant-violation error exactly when [Y] differs from [X] in both
    coordinates; when they agree in one coordinate (the zero vector and
    non-unit vectors along an axis included) it answers with a facing; and
    for the four unit directions [dirChange] returns the turns and that
    direction. *)
Theorem getTargetFace_raises_iff_diagonal (X Y : Coords) :
  ((coordinates.x X <> coordinates.x Y /\ coordinates.y X <> coordinates.y Y
    /\ getTargetFace X Y = Raise WrongTargetFace)
   \/ ((coordinates.x X = coordinates.x Y \/ coordinates.y X = coordinates.y Y)
       /\ exists f, getTargetFace X Y = Ok f))
  /\ (forall f face, exists dirs,
        dirChange X face (coordinates.add (value f) X) = Ok (dirs, f)).
Proof.
  split.
  - unfold getTargetFace.
    destruct (Z.eqb_spec (coordinates.x X - coordinates.x Y) 0) as [Hx|Hx].
    + right. split; [left; lia|]. eauto.
    + destruct (Z.eqb_spec (coordinates.y X - coordinates.y Y) 0) as [Hy|Hy]; simpl.
      * right. split; [right; lia|]. eauto.
      * left. repeat split; [lia|lia].
  - intros f face. destruct (dirChange_unit X face f) as (dirs & Hd & _). eauto.
Qed.

(** ** C2: what [reset] reinitialises *)

(** A knowledge base in the middle of a match. *)
Definition kb_played : KnowledgeBase :=
  mkKB (Some (map_seen (open_arena 3 3) (look (coordinates.mk 1 1) UP [])))
       3 [STEP_FORWARD; TURN_LEFT] (Some (coordinates.mk 2 1)) 16.

(** [reset] replaces the map and touches nothing else. *)
Lemma reset_replaces_map_only (kb : KnowledgeBase) (game_no : Z) (a : Arena)
    (kb' : KnowledgeBase) :
  AresController_reset kb game_no a = Returns tt kb' ->
  (exists m, Map_init a = Ok m /\ mapBase kb' = Some m) /\
  round_counter kb' = round_counter kb /\ actionsToMake kb' = actionsToMake kb /\
  actionsTarget kb' = actionsTarget kb /\ tileNeighbourhood kb' = tileNeighbourhood kb.
Proof.
  unfold AresController_reset, KnowledgeBase_reset.
  destruct (Map_init a) as [m| |]; [|done|done].
  intros [= <-]. split; [by exists m|done].
Qed.

(** C2: [reset] does not clear the state of the turns.  After [reset] on
    an instance that has played, the round counter, the queued actions and
    the queued goal are those of the previous match, and the first
    [decide] of the next match carries out the forward move that was
    planned on the previous arena; a new instance, reset on the same arena
    and given the same observation, starts with the forced scan and
    returns turn-right. *)
Theorem reset_keeps_turn_state :
  exists kb1 kb2 kb0 kb0',
    AresController_reset kb_played 2 (open_arena 4 4) = Returns tt kb1 /\
    round_counter kb1 = 3 /\ actionsToMake kb1 = [STEP_FORWARD; TURN_LEFT] /\
    actionsTarget kb1 = Some (coordinates.mk 2 1) /\
    AresController_decide kb1 (look (coordinates.mk 1 1) UP []) 0
    = Returns STEP_FORWARD kb2 /\
    actionsToMake kb2 = [TURN_LEFT] /\ round_counter kb2 = 3 /\
    AresController_reset KnowledgeBase_init 2 (open_arena 4 4) = Returns tt kb0 /\
    round_counter kb0 = 0 /\ actionsToMake kb0 = [] /\ actionsTarget kb0 = None /\
    AresController_decide kb0 (look (coordinates.mk 1 1) UP []) 0
    = Returns TURN_RIGHT kb0'.
Proof.
  do 4 eexists.
  split; [vm_compute; reflexivity|]. do 3 (split; [reflexivity|]).
  split; [vm_compute; reflexivity|]. do 2 (split; [reflexivity|]).
  split; [vm_compute; reflexivity|]. do 3 (split; [reflexivity|]).
  vm_compute. reflexivity.
Qed.

(** ** C7: the radius of the search and its result on a miss *)

(** The champion stands at (0,0) of an open 3x3 arena, faces right and
    sees every cell. *)
Definition map_corner : Map :=
  map_seen (open_arena 3 3)
           (look (coordinates.mk 0 0) RIGHT
                 (seen_land (cells_but 3 3 (coordinates.mk 0 0)))).

(** C7, counterexample: a search started at the root (2,2) that finds no
    potion within radius 1 returns the champion's position (0,0), not the
    root it was started from. *)
Lemma shortestPath_miss_returns_position :
  shortestPath map_corner (coordinates.mk 2 2) potion (Some 1) ""
  = Ok ([], Some (coordinates.mk 0 0)) /\
  Some (coordinates.mk 0 0) <> Some (coordinates.mk 2 2).
Proof. split; [vm_compute; reflexivity|discriminate]. Qed.

(** C7, amended: on a well-formed map, for every root inside it, goal and
    radius cutoff [rad], every cell that the loop of [shortestPath] takes
    from the queue to test and expand is reached from the root by at most
    [rad] steps; and when no cell within [rad] steps of the root satisfies
    the goal, the result is the empty action sequence together with
    [self.position] (the root whenever the search is started by
    [findTarget]). *)
Theorem shortestPath_radius_bound (m : Map) (root : Coords) (target : Target)
    (rad : Z) (mode : string)
    (Hwf : wf_map m) (Hroot : isInMap m root = true) :
  (forall s0 s v Q',
      bfs_init m root = Ok s0 ->
      steps m root target (Some rad) mode (bfs_fuel m) s0 s ->
      Q s = v :: Q' -> within_radius (Some rad) (r s) = true ->
      exists n, walk m root mode v n /\ Z.of_nat n <= rad) /\
  ((forall v n, walk m root mode v n -> Z.of_nat n <= rad ->
                targetFound m v target = Ok false) ->
   shortestPath m root target (Some rad) mode = Ok ([], position m)).
Proof.
  split.
  - intros s0 s v Q' Hinit Hsteps HQ Hrad.
    destruct (bfs_init_spec m root target mode Hwf Hroot) as (s0' & Hinit' & HI0 & _).
    rewrite Hinit in Hinit'. injection Hinit' as <-.
    pose proof (steps_Inv _ _ _ _ _ Hwf _ _ _ HI0 Hsteps) as HI.
    destruct (popped_within _ _ _ _ _ _ _ HI HQ) as (n & Hw & Hn).
    exists n. split; [done|]. simpl in Hrad. apply Z.leb_le in Hrad. lia.
  - intros Hmiss. apply shortestPath_miss; [done|done|].
    intros v n Hw Hrad. apply (Hmiss v n Hw). simpl in Hrad. by apply Z.leb_le.
Qed.

Lemma shortestPath_radius_bound_witness :
  (forall s0 s v Q',
      bfs_init map_corner (coordinates.mk 2 2) = Ok s0 ->
      steps map_corner (coordinates.mk 2 2) potion (Some 1) "" (bfs_fuel map_corner) s0 s ->
      Q s = v :: Q' -> within_radius (Some 1) (r s) = true ->
      exists n, walk map_corner (coordinates.mk 2 2) "" v n /\ Z.of_nat n <= 1) /\
  ((forall v n, walk map_corner (coordinates.mk 2 2) "" v n -> Z.of_nat n <= 1 ->
                targetFound map_corner v potion = Ok false) ->
   shortestPath map_corner (coordinates.mk 2 2) potion (Some 1) ""
   = Ok ([], position map_corner)).
Proof.
  apply (shortestPath_radius_bound map_corner (coordinates.mk 2 2) potion 1 "").
  - split; [reflexivity|]. vm_compute. repeat constructor.
  - reflexivity.
Defined.

(** ** C10: the empty sequence does not tell a miss from a goal at the root *)

(** C10, counterexample: for the champion at (0,0), the goal "the cell
    (0,0)" is satisfied at the root and the goal "a potion" is satisfied
    nowhere on the map, and [findTarget] returns the same pair for both. *)
Lemma findTarget_empty_for_hit_and_miss :
  targetFound map_corner (coordinates.mk 0 0) (TCoords (coordinates.mk 0 0)) = Ok true /\
  findTarget map_corner (TCoords (coordinates.mk 0 0)) None
  = Ok ([], Some (coordinates.mk 0 0)) /\
  Forall (fun c => targetFound map_corner c potion = Ok false)
         (flat_map (fun i => coordinates.mk i <$> range 3) (range 3)) /\
  findTarget map_corner potion None = Ok ([], Some (coordinates.mk 0 0)).
Proof.
  split; [reflexivity|]. split; [vm_compute; reflexivity|].
  split; [|vm_compute; reflexivity].
  vm_compute. repeat constructor.
Qed.

(** C10, amended: on a well-formed map with the champion inside it,
    [findTarget] returns the empty action sequence together with the
    champion's position both when the goal is already satisfied at the
    position and when no cell that can be reached satisfies it; the two
    results are the same value. *)
Theorem findTarget_empty_ambiguous (m : Map) (p : Coords) (target : Target)
    (radius : option Z) (dsc : ChampionDescription)
    (Hwf : wf_map m) (Hpos : position m = Some p) (Hin : isInMap m p = true)
    (Hdsc : description m = Some dsc) :
  (targetFound m p target = Ok true ->
   findTarget m target radius = Ok ([], Some p)) /\
  ((forall v n, walk m p "" v n -> targetFound m v target = Ok false) ->
   findTarget m target radius = Ok ([], Some p)).
Proof.
  unfold findTarget. rewrite Hpos. split.
  - intros Hfound.
    rewrite (shortestPath_at_root m p target radius "" dsc Hwf Hin Hdsc Hfound).
    rewrite Hpos. by destruct (within_radius radius 0).
  - intros Hmiss. rewrite <- Hpos. apply shortestPath_miss; [done|done|].
    intros v n Hw _. by eapply Hmiss.
Qed.

Lemma findTarget_empty_ambiguous_witness :
  (targetFound map_corner (coordinates.mk 0 0) potion = Ok true ->
   findTarget map_corner potion (Some 16) = Ok ([], Some (coordinates.mk 0 0))) /\
  ((forall v n, walk map_corner (coordinates.mk 0 0) "" v n ->
                targetFound map_corner v potion = Ok false) ->
   findTarget map_corner potion (Some 16) = Ok ([], Some (coordinates.mk 0 0))).
Proof.
  apply (findTarget_empty_ambiguous map_corner (coordinates.mk 0 0) potion (Some 16)
           (ares RIGHT)).
  - split; [reflexivity|]. vm_compute. repeat constructor.
  - reflexivity.
  - reflexivity.
  - reflexivity.
Defined.

(** ** C8: the moves and the turns of a shortest path *)

(** The champion stands at (0,0) of an open 3x3 arena, faces left and sees
    every cell. *)
Definition map_corner_left : Map :=
  map_seen (open_arena 3 3)
           (look (coordinates.mk 0 0) LEFT
                 (seen_land (cells_but 3 3 (coordinates.mk 0 0)))).

(** C8, counterexample: on an obstacle-free 3x3 grid the path from (0,0),
    facing left, to (1,1) has the two moves of the taxi distance and three
    turns: two to face right and one more at the corner of the path. *)
Lemma shortestPath_three_turns :
  shortestPath map_corner_left (coordinates.mk 0 0) (TCoords (coordinates.mk 1 1)) None ""
  = Ok ([TURN_RIGHT; TURN_RIGHT; STEP_FORWARD; TURN_RIGHT; STEP_FORWARD],
        Some (coordinates.mk 1 1)) /\
  taxiDistance (coordinates.mk 0 0) (coordinates.mk 1 1) = 2 /\
  turns [TURN_RIGHT; TURN_RIGHT; STEP_FORWARD; TURN_RIGHT; STEP_FORWARD] = 3%nat /\
  Forall (fun c => enterable map_corner_left "" c = true)
         (flat_map (fun i => coordinates.mk i <$> range 3) (range 3)).
Proof.
  split; [vm_compute; reflexivity|]. split; [reflexivity|].
  split; [reflexivity|]. vm_compute. repeat constructor.
Qed.

(** C8, amended: on a well-formed map, for every root inside it and every
    target cell that a walk over enterable cells reaches, [shortestPath]
    without radius returns an action sequence to that cell whose number of
    move-forward actions is minimal: it is the length of a walk to the
    target and no walk to the target is shorter.  On an obstacle-free grid
    it contains exactly the taxi distance from the root to the target in
    move actions and at most 3 turn actions: two at most for the initial
    facing and one where the path leaves the row of the root. *)
Theorem shortestPath_minimal_moves (m : Map) (root t : Coords) (mode : string)
    (dsc : ChampionDescription) (n0 : nat)
    (Hwf : wf_map m) (Hroot : isInMap m root = true)
    (Hdsc : description m = Some dsc) (Hreach : walk m root mode t n0) :
  exists acts,
    shortestPath m root (TCoords t) None mode = Ok (acts, Some t) /\
    (forall n, walk m root mode t n -> (moves acts <= n)%nat) /\
    walk m root mode t (moves acts) /\
    (obstacle_free m mode ->
     Z.of_nat (moves acts) = taxiDistance root t /\ (turns acts <= 3)%nat).
Proof.
  destruct (shortestPath_coords m root t mode dsc n0 Hwf Hroot Hdsc Hreach)
    as (acts & Hrun & Hmin & Hw & _).
  exists acts. do 3 (split; [done|]).
  intros Hfree.
  pose proof (walk_isInMap _ _ _ _ _ Hwf Hroot Hw) as Htin.
  destruct (shortestPath_coords_open m root mode t dsc Hwf Hroot Hfree Hdsc Htin)
    as (acts' & Hrun' & Htaxi & Hturns).
  rewrite Hrun in Hrun'. injection Hrun' as <-. done.
Qed.

Lemma shortestPath_minimal_moves_witness :
  exists acts,
    shortestPath map_corner_left (coordinates.mk 0 0) (TCoords (coordinates.mk 1 1)) None ""
    = Ok (acts, Some (coordinates.mk 1 1)) /\
    (forall n, walk map_corner_left (coordinates.mk 0 0) "" (coordinates.mk 1 1) n ->
               (moves acts <= n)%nat) /\
    walk map_corner_left (coordinates.mk 0 0) "" (coordinates.mk 1 1) (moves acts) /\
    (obstacle_free map_corner_left "" ->
     Z.of_nat (moves acts)
     = taxiDistance (coordinates.mk 0 0) (coordinates.mk 1 1)
     /\ (turns acts <= 3)%nat).
Proof.
  apply (shortestPath_minimal_moves map_corner_left (coordinates.mk 0 0)
           (coordinates.mk 1 1) "" (ares LEFT) 2).
  - split; [reflexivity|]. vm_compute. repeat constructor.
  - reflexivity.
  - reflexivity.
  - apply (walk_step _ _ _ (coordinates.mk 0 1)).
    + apply (walk_step _ _ _ (coordinates.mk 0 0)); [constructor|].
      split; [vm_compute; repeat constructor|].
      split; [reflexivity|eexists; reflexivity].
    + split; [vm_compute; repeat constructor|].
      split; [reflexivity|eexists; reflexivity].
Defined.

(** ** The decision policy *)

Lemma inFrontTile_fuel kb : inFrontTile kb <> OutOfFuel.
Proof.
  unfold inFrontTile, inFrontCoords.
  destruct (mapBase kb) as [m|]; [|done].
  destruct (description m); [|done]. destruct (position m); [|done]. simpl.
  apply py_get2_fuel.
Qed.

Lemma tileIsMist_fuel tile : tileIsMist tile <> OutOfFuel.
Proof. by destruct tile as [[?|?]|]. Qed.

Lemma stepPossible_fuel kb step : stepPossible kb step <> OutOfFuel.
Proof.
  unfold stepPossible. case_bool_decide; [|done].
  pose proof (inFrontTile_fuel kb). destruct (inFrontTile kb) as [tile| |]; simpl; try done.
  destruct (negb (tilePassable tile)); [done|].
  pose proof (tileIsMist_fuel tile). by destruct (tileIsMist tile).
Qed.

Lemma followTarget_fallback_returns kb pick :
  followTarget_fallback kb pick <> Hangs.
Proof.
  unfold followTarget_fallback.
  pose proof (inFrontTile_fuel (set_plan kb [] None)).
  by destruct (inFrontTile (set_plan kb [] None)).
Qed.

Lemma followTarget_returns kb pick : followTarget kb pick <> Hangs.
Proof.
  unfold followTarget. destruct (actionsToMake kb) as [|a rest].
  - apply followTarget_fallback_returns.
  - pose proof (stepPossible_fuel (set_plan kb rest (actionsTarget kb)) a).
    destruct (stepPossible _ a) as [[|]| |]; try done.
    apply followTarget_fallback_returns.
Qed.

Lemma mapM_fuel {A B} (f : A -> res B) (l : list A) :
  (forall a, f a <> OutOfFuel) -> mapM f l <> OutOfFuel.
Proof.
  intros Hf. induction l as [|a l IH]; simpl; [done|].
  specialize (Hf a). destruct (f a); simpl; [|done|done].
  by destruct (mapM f l).
Qed.

Lemma initVisited_fuel m : initVisited m <> OutOfFuel.
Proof.
  unfold initVisited. apply mapM_fuel. intros i. apply mapM_fuel. intros j.
  pose proof (py_get2_fuel (map m) i j). by destruct (py_get2 (map m) i j).
Qed.

Lemma findTarget_fuel m target radius :
  wf_map m -> (forall p, position m = Some p -> isInMap m p = true) ->
  findTarget m target radius <> OutOfFuel.
Proof.
  intros Hwf Hpos. unfold findTarget. destruct (position m) as [p|].
  - apply shortestPath_fuel; [done|by apply Hpos].
  - pose proof (initVisited_fuel m). by destruct (initVisited m).
Qed.

(** The guarded block of [choice] always comes to an end. *)
Lemma choice_body_ends kb m front pick :
  wf_map m -> (forall p, position m = Some p -> isInMap m p = true) ->
  choice_body kb m front pick <> Hangs.
Proof.
  intros Hwf Hpos. unfold choice_body.
  pose proof (findTarget_fuel m potion (Some (tileNeighbourhood kb)) Hwf Hpos) as Hp.
  unfold potion in Hp.
  destruct (findTarget m _ (Some (tileNeighbourhood kb))) as [[pp pt]| |]; [|done|done].
  destruct (tile_character_attr front) as [[occ|]|e|] eqn:Hc; try done.
  2: by destruct front as [[?|?]|].
  destruct (round_counter kb <? 3); [done|].
  destruct (0 <? Z.of_nat (length (actionsToMake kb))); [apply followTarget_returns|].
  assert (Hlen : (if bool_decide (pp <> [])
                  then rbind (len_target pt) (fun n => Ok (n <? tileNeighbourhood kb))
                  else Ok false) <> OutOfFuel).
  { case_bool_decide; [|done]. by destruct pt. }
  destruct (if bool_decide (pp <> []) then _ else _) as [[|]| |]; try done.
  { apply followTarget_returns. }
  destruct (menhir m) as [mh|]; [|done].
  pose proof (findTarget_fuel m (TCoords mh) None Hwf Hpos) as Hm.
  destruct (findTarget m (TCoords mh) None) as [[acts tgt]| |]; [|done|done].
  case_match; [apply followTarget_returns|done].
Qed.

(** What a successful [update] leaves in the knowledge base. *)
Lemma KnowledgeBase_update_ok kb k kb1 m :
  mapBase kb = Some m -> wf_map m -> isInMap m (k_position k) = true ->
  KnowledgeBase_update kb k = Returns tt kb1 ->
  exists m1, mapBase kb1 = Some m1 /\ wf_map m1 /\ MAPSIZE m1 = MAPSIZE m /\
    position m1 = Some (k_position k) /\ isInMap m1 (k_position k) = true /\
    known m1 (k_position k) /\
    round_counter kb1 = round_counter kb /\ actionsToMake kb1 = actionsToMake kb /\
    actionsTarget kb1 = actionsTarget kb /\ tileNeighbourhood kb1 = tileNeighbourhood kb.
Proof.
  intros Hm Hwf Hin Hup. unfold KnowledgeBase_update in Hup. rewrite Hm in Hup.
  destruct (Map_update m k) as [[] m1|e m1|] eqn:Hmu; [|done|done].
  injection Hup as <-.
  destruct (Map_update_ok m k m1 Hmu Hwf Hin) as (Hwf1 & Hsz & Hpos & Hin1 & Hk & _).
  exists m1. simpl. do 6 (split; [done|]). by repeat split.
Qed.

Lemma decide_after_update kb k pick kb1 :
  KnowledgeBase_update kb k = Returns tt kb1 ->
  AresController_decide kb k pick = choice kb1 pick.
Proof. intros H. unfold AresController_decide. by rewrite H. Qed.

Lemma inFrontTile_description kb front :
  inFrontTile kb = Ok front ->
  exists m dsc, mapBase kb = Some m /\ description m = Some dsc.
Proof.
  unfold inFrontTile, inFrontCoords. destruct (mapBase kb) as [m|]; [|done].
  destruct (description m) as [dsc|] eqn:Hd; [|done]. intros _. by exists m, dsc.
Qed.

(** After a successful [update] with the position inside the map, the
    searches of [choice] return. *)
Lemma findTarget_after_update m p dsc target radius :
  wf_map m -> position m = Some p -> isInMap m p = true -> known m p ->
  description m = Some dsc -> target_safe m target ->
  exists acts tgt, findTarget m target radius = Ok (acts, tgt).
Proof.
  intros Hwf Hpos Hin Hk Hdsc Hsafe. unfold findTarget. rewrite Hpos.
  by eapply shortestPath_returns.
Qed.

(** A turn on which [update] succeeds on a well-formed map with the
    observed position inside it, and the tile ahead can be read. *)
Definition turn_ok (kb : KnowledgeBase) (k : ChampionKnowledge)
    (kb1 : KnowledgeBase) (front : option MapTile) : Prop :=
  (exists m, mapBase kb = Some m /\ wf_map m /\ isInMap m (k_position k) = true) /\
  KnowledgeBase_update kb k = Returns tt kb1 /\
  inFrontTile kb1 = Ok front.

(** On such a turn [choice] runs its guarded block after a potion search
    that returned. *)
Lemma choice_on_turn kb k kb1 front pick :
  turn_ok kb k kb1 front ->
  exists m1 pp pt,
    mapBase kb1 = Some m1 /\ wf_map m1 /\
    (forall p, position m1 = Some p -> isInMap m1 p = true) /\
    round_counter kb1 = round_counter kb /\ actionsToMake kb1 = actionsToMake kb /\
    actionsTarget kb1 = actionsTarget kb /\ tileNeighbourhood kb1 = tileNeighbourhood kb /\
    findTarget m1 (TConsumable (mkConsumable "potion")) (Some (tileNeighbourhood kb1))
    = Ok (pp, pt) /\
    AresController_decide kb k pick
    = try_except (choice_body kb1 m1 front pick)
                 (fun kb' => Returns (checkPossibleAction front pick) kb').
Proof.
  intros ((m & Hm & Hwf & Hin) & Hup & Hfront).
  destruct (KnowledgeBase_update_ok kb k kb1 m Hm Hwf Hin Hup)
    as (m1 & Hm1 & Hwf1 & Hsz & Hpos & Hin1 & Hk & Hrc & Hq & Ht & Htn).
  destruct (inFrontTile_description kb1 front Hfront) as (m1' & dsc & Hm1' & Hdsc).
  rewrite Hm1 in Hm1'. injection Hm1' as <-.
  destruct (findTarget_after_update m1 (k_position k) dsc
              (TConsumable (mkConsumable "potion")) (Some (tileNeighbourhood kb1))
              Hwf1 Hpos Hin1 Hk Hdsc (target_safe_TConsumable _ _)) as (pp & pt & Hfind).
  exists m1, pp, pt. do 2 (split; [done|]).
  split; [intros p Hp; congruence|]. do 4 (split; [done|]). split; [done|].
  rewrite (decide_after_update kb k pick kb1 Hup). unfold choice.
  by rewrite Hfront, Hm1.
Qed.



(** [followTarget] on a queue whose next step is a forward move onto a
    tile that is not passable or is in the mist. *)
Lemma followTarget_blocked kb pick rest front :
  actionsToMake kb = STEP_FORWARD :: rest ->
  inFrontTile kb = Ok front ->
  tilePassable front = false \/ tileIsMist front = Ok true ->
  followTarget kb pick
  = Returns (checkPossibleAction front pick) (set_plan kb [] None).
Proof.
  intros Hq Hfront Hblock. unfold followTarget. rewrite Hq.
  assert (Hf : forall acts tgt, inFrontTile (set_plan kb acts tgt) = Ok front)
    by (intros; exact Hfront).
  assert (stepPossible (set_plan kb rest (actionsTarget kb)) STEP_FORWARD = Ok false)
    as ->.
  { unfold stepPossible. rewrite bool_decide_eq_true_2 by done. rewrite Hf. simpl.
    destruct (tilePassable front); [|done]. destruct Hblock as [?|Hmist]; [done|].
    by rewrite Hmist. }
  unfold followTarget_fallback.
  change (inFrontTile (set_plan (set_plan (set_plan kb rest (actionsTarget kb)) [] None)
                                [] None))
    with (inFrontTile kb).
  by rewrite Hfront.
Qed.

(** The knowledge base after [update], and the tile ahead, of a scenario. *)
Definition updated (kb : KnowledgeBase) (k : ChampionKnowledge) : KnowledgeBase :=
  match KnowledgeBase_update kb k with
  | Returns _ kb1 => kb1
  | _ => kb
  end.

Definition ahead (kb : KnowledgeBase) : option MapTile :=
  match inFrontTile kb with
  | Ok tile => tile
  | _ => None
  end.

Definition potion_tile : TileDescription :=
  mkTileDescription "land" None None (Some (mkConsumable "potion")) [].

Definition foe_tile : TileDescription :=
  mkTileDescription "land" None (Some (mkChampion "Foe" 8 "knife" DOWN)) None [].

(** A knowledge base just reset on an open 3x3 arena. *)
Definition kb_fresh : KnowledgeBase :=
  match AresController_reset KnowledgeBase_init 1 (open_arena 3 3) with
  | Returns _ kb => kb
  | _ => KnowledgeBase_init
  end.

(** ** C5: an occupant ahead is attacked and the plan is kept *)


(** The champion at (1,1) faces up, a plan is queued, and another champion
    stands on (1,0). *)
Definition look_foe : ChampionKnowledge :=
  look (coordinates.mk 1 1) UP [(coordinates.mk 1 0, foe_tile)].


(** ** C4: the forced scan *)

(** C4, counterexample: on the first turn after a reset, with another
    champion on the tile ahead, [decide] returns Attack and the round
    counter stays at 0. *)
Lemma first_turn_attack_not_scan :
  exists kb', AresController_decide kb_fresh look_foe 0 = Returns ATTACK kb' /\
              round_counter kb_fresh = 0 /\ round_counter kb' = 0.
Proof. eexists. split; [vm_compute; reflexivity|]. by split. Qed.

(** C4, amended: on a turn whose observation is taken in by [update], with
    the position inside the well-formed map, while the round counter is
    below 3 and the tile ahead is recorded without an occupant, [decide]
    returns turn-right and adds one to the round counter, leaving the rest
    of the state as [update] left it. *)
Theorem forced_scan_without_occupant (kb : KnowledgeBase) (k : ChampionKnowledge)
    (kb1 : KnowledgeBase) (front : option MapTile) (pick : nat)
    (Hturn : turn_ok kb k kb1 front)
    (Hnone : tile_character_attr front = Ok None)
    (Hscan : round_counter kb < 3) :
  AresController_decide kb k pick
  = Returns TURN_RIGHT
      (mkKB (mapBase kb1) (round_counter kb + 1) (actionsToMake kb)
            (actionsTarget kb) (tileNeighbourhood kb)).
Proof.
  destruct (choice_on_turn kb k kb1 front pick Hturn)
    as (m1 & pp & pt & _ & _ & _ & Hrc & Hq & Ht & Htn & Hfind & ->).
  unfold choice_body. rewrite Hfind, Hnone.
  destruct (Z.ltb_spec (round_counter kb1) 3); [|lia].
  simpl. by rewrite Hrc, Hq, Ht, Htn.
Qed.

Definition look_clear : ChampionKnowledge := look (coordinates.mk 1 1) UP [].

Lemma forced_scan_without_occupant_witness :
  AresController_decide kb_fresh look_clear 4
  = Returns TURN_RIGHT
      (mkKB (mapBase (updated kb_fresh look_clear)) (round_counter kb_fresh + 1)
            (actionsToMake kb_fresh) (actionsTarget kb_fresh)
            (tileNeighbourhood kb_fresh)).
Proof.
  apply (forced_scan_without_occupant kb_fresh look_clear (updated kb_fresh look_clear)
           (ahead (updated kb_fresh look_clear)) 4).
  - split; [|split; vm_compute; reflexivity].
    eexists. split; [reflexivity|]. split; [|reflexivity].
    split; [reflexivity|]. vm_compute. repeat constructor.
  - reflexivity.
  - vm_compute. reflexivity.
Defined.

(** ** C6: a queued forward move that is no longer possible *)

(** On a turn whose observation is taken in by [update], with no occupant
    ahead and the forced scan over, a queued forward move onto a tile that
    is impassable or in the mist makes [decide] empty the queue, drop the
    goal and answer with the fallback action for the tile ahead, without
    evaluating the pickup and landmark goals. *)
Lemma blocked_step_fallback (kb : KnowledgeBase) (k : ChampionKnowledge)
    (kb1 : KnowledgeBase) (front : option MapTile) (pick : nat) (rest : list Action) :
  turn_ok kb k kb1 front ->
  tile_character_attr front = Ok None ->
  3 <= round_counter kb ->
  actionsToMake kb = STEP_FORWARD :: rest ->
  tilePassable front = false \/ tileIsMist front = Ok true ->
  AresController_decide kb k pick
  = Returns (checkPossibleAction front pick) (set_plan kb1 [] None).
Proof.
  intros Hturn Hnone Hpast Hqueue Hblocked.
  destruct (choice_on_turn kb k kb1 front pick Hturn)
    as (m1 & pp & pt & _ & _ & _ & Hrc & Hq & _ & _ & Hfind & ->).
  destruct Hturn as (_ & _ & Hfront).
  unfold choice_body. rewrite Hfind, Hnone.
  destruct (Z.ltb_spec (round_counter kb1) 3); [lia|].
  assert (Hq1 : actionsToMake kb1 = STEP_FORWARD :: rest) by congruence.
  rewrite Hq1. simpl.
  by rewrite (followTarget_blocked kb1 pick rest front Hq1 Hfront Hblocked).
Qed.

Definition mist_tile : TileDescription :=
  mkTileDescription "land" None None None [mkEffect "mist"].

(** The champion at (1,1) of an open 3x3 arena faces up, past the forced
    scan, with two forward moves queued towards (1,0). *)
Definition kb_mist : KnowledgeBase :=
  mkKB (Some (map_seen (open_arena 3 3) (look (coordinates.mk 1 1) UP [])))
       3 [STEP_FORWARD; STEP_FORWARD] (Some (coordinates.mk 1 0)) 16.

(** It sees that the mist has reached (1,0), the cell ahead, and a potion
    on (0,1), one step to its left. *)
Definition look_mist : ChampionKnowledge :=
  look (coordinates.mk 1 1) UP
       [(coordinates.mk 1 0, mist_tile); (coordinates.mk 0 1, potion_tile)].

(** C6: the refused step is taken all the same.  With the mist on the
    passable tile ahead, [stepPossible] refuses the queued forward move
    and the queue and the goal are dropped; the goals are not evaluated
    again, and the fallback, which tests passability but not the mist,
    returns move-forward into the mist for four of the six draws (and a
    turn for the two others).  Evaluated on the same observation with
    nothing queued, the pickup step adopts the plan to the potion and
    returns turn-left. *)
Theorem blocked_step_taken_into_mist :
  tilePassable (ahead (updated kb_mist look_mist)) = true /\
  tileIsMist (ahead (updated kb_mist look_mist)) = Ok true /\
  stepPossible (updated kb_mist look_mist) STEP_FORWARD = Ok false /\
  Forall (fun pick => AresController_decide kb_mist look_mist pick
                      = Returns STEP_FORWARD (set_plan (updated kb_mist look_mist) [] None))
         [2; 3; 4; 5]%nat /\
  AresController_decide kb_mist look_mist 0
  = Returns TURN_LEFT (set_plan (updated kb_mist look_mist) [] None) /\
  AresController_decide kb_mist look_mist 1
  = Returns TURN_RIGHT (set_plan (updated kb_mist look_mist) [] None) /\
  (exists kb'', AresController_decide (set_plan kb_mist [] None) look_mist 2
                = Returns TURN_LEFT kb'' /\
                actionsToMake kb'' = [STEP_FORWARD] /\
                actionsTarget kb'' = Some (coordinates.mk 0 1)).
Proof.
  split; [reflexivity|]. split; [reflexivity|]. split; [vm_compute; reflexivity|].
  split; [repeat constructor; vm_compute; reflexivity|].
  split; [vm_compute; reflexivity|]. split; [vm_compute; reflexivity|].
  eexists. split; [vm_compute; reflexivity|]. by split.
Qed.

(** ** C1: [decide] returns an action *)

(** On a turn whose observation is taken in by [update] and on which the
    tile ahead can be read, an exception raised in the guarded block of
    [choice] is answered with the fallback action for the tile ahead. *)
Lemma decide_catches (kb : KnowledgeBase) (k : ChampionKnowledge)
    (kb1 : KnowledgeBase) (front : option MapTile) (pick : nat) (m1 : Map)
    (e : exn) (s1 : KnowledgeBase) :
  turn_ok kb k kb1 front -> mapBase kb1 = Some m1 ->
  choice_body kb1 m1 front pick = Throws e s1 ->
  AresController_decide kb k pick = Returns (checkPossibleAction front pick) s1.
Proof.
  intros Hturn Hm1 Hbody.
  destruct (choice_on_turn kb k kb1 front pick Hturn)
    as (m1' & pp & pt & Hm1' & _ & _ & _ & _ & _ & _ & _ & ->).
  rewrite Hm1 in Hm1'. injection Hm1' as <-. by rewrite Hbody.
Qed.

(** An open 3x3 arena whose terrain says nothing about (1,0). *)
Definition arena_hole : Arena :=
  mkArena (3, 3)
          (filter (fun ct => fst ct <> coordinates.mk 1 0) (terrain (open_arena 3 3))).

(** A knowledge base just reset on it. *)
Definition kb_hole : KnowledgeBase :=
  match AresController_reset KnowledgeBase_init 1 arena_hole with
  | Returns _ kb => kb
  | _ => KnowledgeBase_init
  end.

(** C1: [decide] lets an exception through.  After a reset on an open 3x3
    arena, the champion observed on (2,1), in the last column, and facing
    right makes [decide] fail with IndexError: [update] has taken the
    observation in, and [choice] reads the tile ahead before its guarded
    block, so the handler that answers every exception of the block with
    the fallback action is never reached.  The handler does its work for
    an exception of the block itself: with an unrecorded cell ahead the
    read of its occupant raises AttributeError inside the block, and
    [decide] returns the fallback action, turn-right. *)
Theorem decide_raises_at_border :
  (exists kb1,
     KnowledgeBase_update kb_fresh (look (coordinates.mk 2 1) RIGHT []) = Returns tt kb1 /\
     inFrontCoords kb1 = Ok (coordinates.mk 3 1) /\
     inFrontTile kb1 = Raise IndexError /\
     AresController_decide kb_fresh (look (coordinates.mk 2 1) RIGHT []) 0
     = Throws IndexError kb1) /\
  (exists kb1 m1 s1,
     KnowledgeBase_update kb_hole (look (coordinates.mk 1 1) UP []) = Returns tt kb1 /\
     mapBase kb1 = Some m1 /\ inFrontTile kb1 = Ok None /\
     choice_body kb1 m1 None 0 = Throws AttributeError s1 /\
     AresController_decide kb_hole (look (coordinates.mk 1 1) UP []) 0
     = Returns (checkPossibleAction None 0) s1 /\
     checkPossibleAction None 0 = TURN_RIGHT).
Proof.
  split.
  - eexists. split; [vm_compute; reflexivity|]. split; [reflexivity|].
    split; [reflexivity|]. vm_compute. reflexivity.
  - do 3 eexists. split; [vm_compute; reflexivity|]. split; [reflexivity|].
    split; [reflexivity|]. split; [vm_compute; reflexivity|].
    split; [vm_compute; reflexivity|]. reflexivity.
Qed.

(** ** C3: the test that adopts the path to a potion *)

(** A staircase of land through walls, from (1,1) to (6,5). *)
Definition stairs : list Coords :=
  [ coordinates.mk 1 1; coordinates.mk 2 1; coordinates.mk 2 2; coordinates.mk 3 2;
    coordinates.mk 3 3; coordinates.mk 4 3; coordinates.mk 4 4; coordinates.mk 5 4;
    coordinates.mk 5 5; coordinates.mk 6 5 ].

Definition arena_stairs : Arena :=
  mkArena (8, 7)
          (flat_map (fun i => (fun j => (coordinates.mk i j, wall)) <$> range 7) (range 8)
           ++ ((fun c => (c, land)) <$> stairs)).

(** The champion at the foot of the stairs has seen all their steps, is
    past the forced scan and has nothing queued; it now sees a potion at
    their top. *)
Definition kb_stairs : KnowledgeBase :=
  mkKB (Some (map_seen arena_stairs
                       (look (coordinates.mk 1 1) UP (seen_land (tail stairs)))))
       3 [] None 16.

Definition look_stairs : ChampionKnowledge :=
  look (coordinates.mk 1 1) UP [(coordinates.mk 6 5, potion_tile)].

(** C3: the path to the potion at the top of the stairs has 18 actions, two
    more than [tileNeighbourhood], and the pickup step adopts it all the
    same: [decide] returns its first action and queues the other 17. *)
Theorem potion_path_adopted_beyond_radius :
  exists kb',
    AresController_decide kb_stairs look_stairs 0 = Returns TURN_RIGHT kb' /\
    length (actionsToMake kb') = 17%nat /\
    actionsTarget kb' = Some (coordinates.mk 6 5) /\
    tileNeighbourhood kb' = 16 /\
    len_target (actionsTarget kb') = Ok 2.
Proof. eexists. split; [vm_compute; reflexivity|]. by repeat split. Qed.

(** * Further properties of the map and of the translation of paths *)

(** ** [taxiDistance] *)

(** X1: [taxiDistance] is a metric on coordinates: it is never negative,
    zero exactly between equal coordinates, symmetric, and satisfies the
    triangle inequality. *)
Theorem taxiDistance_metric (a b c : Coords) :
  0 <= taxiDistance a b /\
  (taxiDistance a b = 0 <-> a = b) /\
  taxiDistance a b = taxiDistance b a /\
  taxiDistance a c <= taxiDistance a b + taxiDistance b c.
Proof.
  unfold taxiDistance. destruct a as [ax ay], b as [bx by_], c as [cx cy]. simpl.
  split; [lia|]. split; [|split; lia].
  split.
  - intros H. f_equal; lia.
  - intros [= -> ->]. lia.
Qed.

(** ** [getNeighbours] *)

Lemma all_around_taxi root p : p ∈ all_around root -> taxiDistance root p = 1.
Proof.
  intros Hp. apply all_around_facing in Hp as [f ->].
  unfold taxiDistance. destruct root as [rx ry]. destruct f; simpl; lia.
Qed.

Lemma enterable_spec m mode p :
  wf_map m ->
  enterable m mode p = true <->
  isInMap m p = true /\
  (mode <> "" \/
   exists tile, gget (map m) p = Some tile /\ tilePassable tile = true
                /\ tileIsMist tile = Ok false).
Proof.
  intros Hwf. unfold enterable. rewrite andb_true_iff.
  split.
  - intros [Hin H]. split; [done|].
    destruct (isInMap_gget _ _ Hwf Hin) as [tile Htile]. rewrite Htile in H.
    apply orb_true_iff in H as [H|H].
    + right. exists tile. split; [done|]. unfold tile_open in H.
      apply andb_true_iff in H as [Hp Hm]. split; [done|].
      destruct (tileIsMist tile) as [[|]| |]; done.
    + left. intros ->. done.
  - intros [Hin H]. split; [done|].
    destruct (isInMap_gget _ _ Hwf Hin) as [tile Htile]. rewrite Htile.
    apply orb_true_iff. destruct H as [H|(tile' & Ht' & Hp & Hm)].
    + right. destruct (String.eqb_spec mode ""); done.
    + left. rewrite Htile in Ht'. injection Ht' as <-. unfold tile_open.
      by rewrite Hp, Hm.
Qed.

(** X2: on a well-formed map [getNeighbours] does not raise; it returns,
    in the order of its list [all] and without repetition, the candidates
    that lie in the map and, when [mode] is the empty string, hold a tile
    that is passable and not in the mist; every neighbour returned is at
    taxi distance 1 from the root. *)
Theorem getNeighbours_sound (m : Map) (root : Coords) (mode : string)
    (Hwf : wf_map m) :
  exists ns,
    getNeighbours m root mode = Ok ns /\
    ns `sublist_of` all_around root /\ NoDup ns /\
    (forall p, p ∈ ns <->
       p ∈ all_around root /\ isInMap m p = true /\
       (mode <> "" \/
        exists tile, gget (map m) p = Some tile /\ tilePassable tile = true
                     /\ tileIsMist tile = Ok false)) /\
    (forall p, p ∈ ns -> taxiDistance root p = 1).
Proof.
  exists (filter (fun p => enterable m mode p) (all_around root)).
  split; [by apply getNeighbours_spec|].
  split; [apply sublist_filter|].
  split; [apply NoDup_filter, NoDup_all_around|].
  split.
  - intros p. rewrite list_elem_of_filter, Is_true_true, (enterable_spec m mode p Hwf).
    tauto.
  - intros p Hp. apply list_elem_of_filter in Hp as [_ Hp]. by apply all_around_taxi.
Qed.

Lemma getNeighbours_sound_witness :
  exists ns,
    getNeighbours map_corner (coordinates.mk 0 0) "" = Ok ns /\
    ns `sublist_of` all_around (coordinates.mk 0 0) /\ NoDup ns /\
    (forall p, p ∈ ns <->
       p ∈ all_around (coordinates.mk 0 0) /\ isInMap map_corner p = true /\
       ("" <> "" \/
        exists tile, gget (map map_corner) p = Some tile /\ tilePassable tile = true
                     /\ tileIsMist tile = Ok false)) /\
    (forall p, p ∈ ns -> taxiDistance (coordinates.mk 0 0) p = 1).
Proof.
  apply (getNeighbours_sound map_corner (coordinates.mk 0 0) "").
  split; [reflexivity|]. vm_compute. repeat constructor.
Defined.

(** ** [getTargetFace] and [dirChange] *)

(** X3: [getTargetFace] inverts the unit vectors of the facings: the step
    from [X] to [X + f.value] is named [f], and a neighbouring cell that
    [getTargetFace] names [g] is [X + g.value]. *)
Theorem getTargetFace_inverts_value (X : Coords) (f : Facing) :
  getTargetFace X (coordinates.add (value f) X) = Ok f /\
  (forall Y g, Y ∈ all_around X -> getTargetFace X Y = Ok g ->
               Y = coordinates.add (value g) X).
Proof.
  split; [apply getTargetFace_unit|].
  intros Y g HY Hg. apply all_around_facing in HY as [h ->].
  rewrite getTargetFace_unit in Hg. by injection Hg as ->.
Qed.

(** The position and facing after a sequence of actions. *)
Definition run (s : Coords * Facing) (acts : list Action) : Coords * Facing :=
  foldl act s acts.

(** The cells stepped onto by a sequence of actions, in order. *)
Fixpoint stops (s : Coords * Facing) (acts : list Action) : list Coords :=
  match acts with
  | [] => []
  | a :: acts' =>
      if bool_decide (a = STEP_FORWARD)
      then fst (act s a) :: stops (act s a) acts'
      else stops (act s a) acts'
  end.

Lemma run_app s a b : run s (a ++ b) = run (run s a) b.
Proof. apply foldl_app. Qed.

Lemma stops_app a : forall s b, stops s (a ++ b) = stops s a ++ stops (run s a) b.
Proof.
  induction a as [|x a IH]; intros s b; simpl; [done|].
  rewrite IH. by case_bool_decide.
Qed.

(** The step from [a] to [b] changes both coordinates. *)
Definition skew (a b : Coords) : bool :=
  negb (coordinates.x a =? coordinates.x b) && negb (coordinates.y a =? coordinates.y b).

(** Some step of the path from [a] changes both coordinates. *)
Fixpoint has_skew (a : Coords) (path : list Coords) : bool :=
  match path with
  | [] => false
  | b :: path' => skew a b || has_skew b path'
  end.

Lemma getTargetFace_skew X Y :
  match getTargetFace X Y with
  | Ok _ => skew X Y = false
  | Raise e => e = WrongTargetFace /\ skew X Y = true
  | OutOfFuel => False
  end.
Proof.
  unfold getTargetFace, skew.
  destruct (Z.eqb_spec (coordinates.x X - coordinates.x Y) 0) as [Hx|Hx];
    destruct (Z.eqb_spec (coordinates.x X) (coordinates.x Y)) as [Hx'|Hx']; try lia; try done.
  destruct (Z.eqb_spec (coordinates.y X - coordinates.y Y) 0) as [Hy|Hy];
    destruct (Z.eqb_spec (coordinates.y X) (coordinates.y Y)) as [Hy'|Hy']; try lia;
    simpl; done.
Qed.

(** What a successful [dirChange] returns. *)
Lemma dirChange_Ok cur face step dirs g :
  dirChange cur face step = Ok (dirs, g) ->
  getTargetFace cur step = Ok g /\
  run (cur, face) dirs = (cur, g) /\ stops (cur, face) dirs = [] /\
  (length dirs <= 2)%nat /\ moves dirs = 0%nat /\ turns dirs = length dirs /\
  (dirs = [] <-> g = face).
Proof.
  unfold dirChange. destruct (getTargetFace cur step) as [t| |]; [|done|done].
  simpl. destruct face, t; vm_compute; intros [= <- <-]; repeat split; try done; lia.
Qed.

Lemma dirChange_Raise cur face step :
  match dirChange cur face step with
  | Ok _ => skew cur step = false
  | Raise e => e = WrongTargetFace /\ skew cur step = true
  | OutOfFuel => False
  end.
Proof.
  unfold dirChange. pose proof (getTargetFace_skew cur step) as H.
  destruct (getTargetFace cur step) as [t| |]; simpl; [|done|done].
  by repeat case_match.
Qed.

(** X4: the turns that [dirChange] returns rotate the champion, on the
    spot, from its facing to the facing of the step, which is the second
    component of the result; they are at most two, and none exactly when
    the champion faces the step already. *)
Theorem dirChange_rotates (cur : Coords) (face : Facing) (step : Coords)
    (dirs : list Action) (g : Facing)
    (Hrun : dirChange cur face step = Ok (dirs, g)) :
  getTargetFace cur step = Ok g /\
  run (cur, face) dirs = (cur, g) /\
  Forall (fun a => a = TURN_LEFT \/ a = TURN_RIGHT) dirs /\
  (length dirs <= 2)%nat /\
  (dirs = [] <-> g = face).
Proof.
  destruct (dirChange_Ok _ _ _ _ _ Hrun) as (Hg & Hr & _ & Hlen & _ & Ht & Hnil).
  do 2 (split; [done|]). split; [|done].
  unfold turns in Ht. apply Forall_forall. intros a Ha.
  assert (Hf : filter (fun a => a = TURN_LEFT \/ a = TURN_RIGHT) dirs = dirs).
  { clear -Ht. induction dirs as [|x l IH]; [done|].
    rewrite filter_cons in *. destruct (decide (x = TURN_LEFT \/ x = TURN_RIGHT)).
    - simpl in Ht. f_equal. apply IH. lia.
    - pose proof (length_filter (fun a => a = TURN_LEFT \/ a = TURN_RIGHT) l).
      simpl in Ht. lia. }
  rewrite <- Hf in Ha. by apply list_elem_of_filter in Ha as [? _].
Qed.

Lemma dirChange_rotates_witness :
  getTargetFace (coordinates.mk 1 1) (coordinates.mk 1 2) = Ok DOWN /\
  run (coordinates.mk 1 1, UP) [TURN_RIGHT; TURN_RIGHT] = (coordinates.mk 1 1, DOWN) /\
  Forall (fun a => a = TURN_LEFT \/ a = TURN_RIGHT) [TURN_RIGHT; TURN_RIGHT] /\
  (length [TURN_RIGHT; TURN_RIGHT] <= 2)%nat /\
  ([TURN_RIGHT; TURN_RIGHT] = [] <-> DOWN = UP).
Proof.
  apply (dirChange_rotates (coordinates.mk 1 1) UP (coordinates.mk 1 2)).
  reflexivity.
Defined.

(** ** [getActions] *)

Lemma last_default_cons (a b : Coords) path :
  default a (last (b :: path)) = default b (last path).
Proof. rewrite last_cons. by destruct (last path). Qed.

(** Run from [a] facing [f], the actions for a path of neighbouring cells
    step onto the cells of the path and stop on the last one. *)
Lemma getActions_loop_run path : forall a f,
  linked a path ->
  exists acts, getActions_loop a f path = Ok acts /\
    stops (a, f) acts = path /\
    run (a, f) acts = (default a (last path), final_facing a f path).
Proof.
  induction path as [|b path IH]; intros a f Hl.
  - exists []. done.
  - destruct Hl as [Hadj Hl]. apply all_around_facing in Hadj as [g ->].
    destruct (dirChange_unit a f g) as (dirs & Hd & _).
    destruct (dirChange_Ok _ _ _ _ _ Hd) as (Hg & Hr & Hs & _).
    destruct (IH (coordinates.add (value g) a) g Hl) as (rest & Hrest & Hstops & Hrun).
    exists (dirs ++ STEP_FORWARD :: rest). simpl. rewrite Hd. simpl. rewrite Hrest. simpl.
    split; [done|]. rewrite stops_app, run_app, Hs, Hr. simpl.
    rewrite Hstops. split; [done|].
    change (foldl act ?s rest) with (run s rest). rewrite Hrun.
    rewrite last_default_cons, Hg. done.
Qed.

(** X5: for a path of neighbouring cells starting next to [position], the
    actions that [getActions] returns, carried out from [position] with the
    champion's facing, step onto exactly the cells of the path in order
    and end on its last cell; they hold one move per cell of the path and
    nothing but moves and turns. *)
Theorem getActions_follows_path (m : Map) (position : Coords) (path : list Coords)
    (dsc : ChampionDescription)
    (Hdsc : description m = Some dsc) (Hlinked : linked position path) :
  exists acts,
    getActions m position path = Ok acts /\
    stops (position, facing dsc) acts = path /\
    fst (run (position, facing dsc) acts) = default position (last path) /\
    moves acts = length path /\
    (turns acts + moves acts = length acts)%nat.
Proof.
  destruct (getActions_loop_run path position (facing dsc) Hlinked)
    as (acts & Hacts & Hstops & Hrun).
  destruct (getActions_loop_linked path position (facing dsc) Hlinked)
    as (acts' & Hacts' & Hm & Ht & _).
  rewrite Hacts in Hacts'. injection Hacts' as <-.
  exists acts. unfold getActions. rewrite Hdsc. by rewrite Hrun.
Qed.

Lemma getActions_follows_path_witness :
  exists acts,
    getActions map_corner (coordinates.mk 0 0) [coordinates.mk 0 1; coordinates.mk 1 1]
    = Ok acts /\
    stops (coordinates.mk 0 0, facing (ares RIGHT)) acts
    = [coordinates.mk 0 1; coordinates.mk 1 1] /\
    fst (run (coordinates.mk 0 0, facing (ares RIGHT)) acts)
    = default (coordinates.mk 0 0) (last [coordinates.mk 0 1; coordinates.mk 1 1]) /\
    moves acts = length [coordinates.mk 0 1; coordinates.mk 1 1] /\
    (turns acts + moves acts = length acts)%nat.
Proof.
  apply (getActions_follows_path map_corner (coordinates.mk 0 0)
           [coordinates.mk 0 1; coordinates.mk 1 1] (ares RIGHT)).
  - reflexivity.
  - simpl. split; [vm_compute; repeat constructor|].
    split; [vm_compute; repeat constructor|done].
Defined.

Lemma rbind_Ok_r {A} (m : res A) : rbind m Ok = m.
Proof. by destruct m. Qed.

(** X6: [getActions] composes along a path: the actions for [p1 ++ p2]
    are the actions for [p1] followed by the actions for [p2] taken from
    the last cell of [p1] with the facing in which [p1] ends, and they fail
    as the second part does. *)
Theorem getActions_loop_app (a : Coords) (f : Facing) (p1 p2 : list Coords)
    (acts1 : list Action)
    (Hfirst : getActions_loop a f p1 = Ok acts1) :
  getActions_loop a f (p1 ++ p2)
  = (acts2 <~ getActions_loop (default a (last p1)) (final_facing a f p1) p2 ;;
     Ok (acts1 ++ acts2)).
Proof.
  revert a f acts1 Hfirst. induction p1 as [|b p1 IH]; intros a f acts1 Hfirst.
  - injection Hfirst as <-. simpl. by destruct (getActions_loop a f p2).
  - simpl in Hfirst. destruct (dirChange a f b) as [[dirs g]| |] eqn:Hd; [|done|done].
    simpl in Hfirst.
    destruct (getActions_loop b g p1) as [rest| |] eqn:Hrest; [|done|done].
    simpl in Hfirst. injection Hfirst as <-.
    destruct (dirChange_Ok _ _ _ _ _ Hd) as (Hg & _).
    rewrite last_default_cons. simpl. rewrite Hd, Hg. simpl.
    rewrite (IH b g rest Hrest).
    destruct (getActions_loop (default b (last p1)) (final_facing b g p1) p2); simpl;
      [|done|done].
    by rewrite <- app_assoc.
Qed.

Lemma getActions_loop_app_witness :
  getActions_loop (coordinates.mk 0 0) UP ([coordinates.mk 0 1] ++ [coordinates.mk 1 1])
  = (acts2 <~ getActions_loop (default (coordinates.mk 0 0) (last [coordinates.mk 0 1]))
                              (final_facing (coordinates.mk 0 0) UP [coordinates.mk 0 1])
                              [coordinates.mk 1 1] ;;
     Ok ([TURN_RIGHT; TURN_RIGHT; STEP_FORWARD] ++ acts2)).
Proof.
  apply (getActions_loop_app (coordinates.mk 0 0) UP [coordinates.mk 0 1]
           [coordinates.mk 1 1]).
  reflexivity.
Defined.

(** X7: the loop of [getActions] fails exactly when some step of the path
    changes both coordinates, and then with the error of [getTargetFace];
    otherwise it returns one move for each cell of the path, each preceded
    by at most two turns, whatever the distance between the cells. *)
Theorem getActions_loop_raises_iff (a : Coords) (f : Facing) (path : list Coords) :
  match getActions_loop a f path with
  | Ok acts =>
      has_skew a path = false /\ moves acts = length path /\
      (turns acts + moves acts = length acts)%nat /\
      (length acts <= 3 * length path)%nat
  | Raise e => e = WrongTargetFace /\ has_skew a path = true
  | OutOfFuel => False
  end.
Proof.
  revert a f. induction path as [|b path IH]; intros a f; simpl.
  - repeat split; lia.
  - pose proof (dirChange_Raise a f b) as Hd.
    destruct (dirChange a f b) as [[dirs g]| |] eqn:Hdc; simpl; [| |done].
    + destruct (dirChange_Ok _ _ _ _ _ Hdc) as (_ & _ & _ & Hlen & Hm & Ht & _).
      specialize (IH b g). rewrite Hd. simpl.
      destruct (getActions_loop b g path) as [rest| |]; simpl; [| |done].
      * destruct IH as (Hs & Hmr & Htr & Hlr). split; [done|].
        rewrite moves_app, turns_app, length_app.
        change (STEP_FORWARD :: rest) with ([STEP_FORWARD] ++ rest).
        rewrite moves_app, turns_app, length_app.
        change (moves [STEP_FORWARD]) with 1%nat.
        change (turns [STEP_FORWARD]) with 0%nat. simpl. lia.
      * destruct IH as [-> Hs]. by rewrite Hs.
    + destruct Hd as [-> Hs]. by rewrite Hs.
Qed.

(** ** [Map.__init__] and [Map.update] *)

(** [i] is an index of a Python list of length [n]. *)
Definition py_index (n : nat) (i : Z) : bool :=
  (- Z.of_nat n <=? i) && (i <? Z.of_nat n).

Lemma py_index_spec n i : py_index n i = true <-> - Z.of_nat n <= i < Z.of_nat n.
Proof. unfold py_index. rewrite andb_true_iff, Z.leb_le, Z.ltb_lt. done. Qed.

Lemma py_index_false n i : py_index n i = false <-> ~ (- Z.of_nat n <= i < Z.of_nat n).
Proof. rewrite <- py_index_spec. by destruct (py_index n i). Qed.

Lemma py_get_cases {A} (l : list A) i :
  match py_get l i with
  | Ok _ => py_index (length l) i = true
  | Raise e => e = IndexError /\ py_index (length l) i = false
  | OutOfFuel => False
  end.
Proof.
  unfold py_get.
  destruct (Z.ltb_spec i 0).
  - destruct (Z.leb_spec 0 (i + Z.of_nat (length l))),
             (Z.ltb_spec (i + Z.of_nat (length l)) (Z.of_nat (length l))); simpl; try lia.
    + destruct (lookup_lt_is_Some_2 l (Z.to_nat (i + Z.of_nat (length l)))) as [a ->];
        [lia|].
      apply py_index_spec. lia.
    + split; [done|]. apply py_index_false. lia.
  - destruct (Z.leb_spec 0 i), (Z.ltb_spec i (Z.of_nat (length l))); simpl; try lia.
    + destruct (lookup_lt_is_Some_2 l (Z.to_nat i)) as [a ->]; [lia|].
      apply py_index_spec. lia.
    + split; [done|]. apply py_index_false. lia.
Qed.

Lemma py_get_elem {A} (l : list A) i a : py_get l i = Ok a -> a ∈ l.
Proof.
  unfold py_get. destruct (_ && _); [|done].
  destruct (l !! _) eqn:Hl; [|done]. intros [= ->]. by eapply list_elem_of_lookup_2.
Qed.

Lemma py_set_cases {A} (l : list A) i a :
  match py_set l i a with
  | Ok l' => py_index (length l) i = true /\ length l' = length l
  | Raise e => e = IndexError /\ py_index (length l) i = false
  | OutOfFuel => False
  end.
Proof.
  unfold py_set.
  destruct (Z.ltb_spec i 0).
  - destruct (Z.leb_spec 0 (i + Z.of_nat (length l))),
             (Z.ltb_spec (i + Z.of_nat (length l)) (Z.of_nat (length l))); simpl; try lia.
    + rewrite length_insert. split; [|done]. apply py_index_spec. lia.
    + split; [done|]. apply py_index_false. lia.
  - destruct (Z.leb_spec 0 i), (Z.ltb_spec i (Z.of_nat (length l))); simpl; try lia.
    + rewrite length_insert. split; [|done]. apply py_index_spec. lia.
    + split; [done|]. apply py_index_false. lia.
Qed.

(** An assignment [g[i][j] = a] on a grid of [w] rows of [h] cells
    succeeds exactly for Python indices of the grid, keeps its shape, and
    fails with IndexError only. *)
Lemma py_set2_cases {A} w h (g : list (list A)) i j a :
  shape w h g ->
  match py_set2 g i j a with
  | Ok g' => shape w h g' /\ py_index w i && py_index h j = true
  | Raise e => e = IndexError /\ py_index w i && py_index h j = false
  | OutOfFuel => False
  end.
Proof.
  intros Hsh. pose proof Hsh as [Hl Hf]. unfold py_set2.
  pose proof (py_get_cases g i) as Hg. rewrite Hl in Hg.
  destruct (py_get g i) as [row| |] eqn:Hrow; simpl; [| |done].
  - assert (Hlen : length row = h).
    { apply py_get_elem in Hrow. by eapply (proj1 (Forall_forall _ _)) in Hf. }
    pose proof (py_set_cases row j a) as Hs. rewrite Hlen in Hs.
    destruct (py_set row j a) as [row'| |] eqn:Hrow'; simpl; [| |done].
    + destruct Hs as [Hj Hlen'].
      pose proof (py_set_cases g i row') as Hs'. rewrite Hl in Hs'.
      destruct (py_set g i row') as [g'| |] eqn:Hg'; [| |done].
      * split; [|by rewrite Hg, Hj].
        destruct Hs' as [_ Hl']. split; [congruence|].
        unfold py_set in Hg'. destruct (_ && _); [|done]. injection Hg' as <-.
        apply Forall_insert; [done|]. congruence.
      * destruct Hs' as [_ Hi]. congruence.
    + destruct Hs as [-> Hj]. split; [done|]. rewrite Hj. apply andb_false_r.
  - destruct Hg as [-> Hi]. split; [done|]. by rewrite Hi.
Qed.

Lemma gget_blank sz c :
  0 <= coordinates.x c < fst sz -> 0 <= coordinates.y c < snd sz ->
  gget (blank sz) c = Some None.
Proof.
  intros Hx Hy. unfold gget, blank.
  destruct (Z.leb_spec 0 (coordinates.x c)); [|lia].
  destruct (Z.leb_spec 0 (coordinates.y c)); [|lia]. simpl.
  rewrite list_lookup_fmap, lookup_range by lia. simpl.
  rewrite list_lookup_fmap, lookup_range by lia. done.
Qed.

Lemma initMap_terrain_lookup w h t : forall g,
  shape (Z.to_nat w) (Z.to_nat h) g ->
  Forall (fun ct : Coords * Tile => 0 <= coordinates.x (fst ct) < w
                    /\ 0 <= coordinates.y (fst ct) < h) t ->
  NoDup t.*1 ->
  exists g', initMap_terrain g t = Ok g' /\ shape (Z.to_nat w) (Z.to_nat h) g' /\
    (forall c tile, (c, tile) ∈ t -> gget g' c = Some (Some (Static tile))) /\
    (forall c, c ∉ t.*1 -> gget g' c = gget g c).
Proof.
  induction t as [|[c0 tile0] t IH]; intros g Hsh Ht Hnd; simpl.
  - exists g. split; [done|]. split; [done|]. split; [|done].
    intros c tile Hin. by apply elem_of_nil in Hin.
  - apply Forall_cons in Ht as [[Hx Hy] Ht]. simpl in Hx, Hy.
    simpl in Hnd. apply NoDup_cons in Hnd as [Hnin Hnd].
    destruct (gget_shape _ _ g c0 Hsh) as [b Hb]; [lia|lia|].
    rewrite (py_set2_gset _ _ (Some (Static tile0)) _ Hb). simpl.
    destruct (IH (gset g c0 (Some (Static tile0)))) as (g' & Hrun & Hsh' & Hin & Hout);
      [by apply shape_gset|done|done|].
    exists g'. split; [done|]. split; [done|]. split.
    + intros c tile Hc. apply elem_of_cons in Hc as [[= -> ->]|Hc]; [|by apply Hin].
      rewrite (Hout c0 Hnin), (gget_gset _ _ _ _ _ Hb). by rewrite decide_True.
    + intros c Hc. apply not_elem_of_cons in Hc as [Hne Hc].
      rewrite (Hout c Hc), (gget_gset _ _ _ _ _ Hb). by rewrite decide_False.
Qed.

(** X8: the map that [Map.__init__] builds from an arena whose terrain
    lies inside its size holds, at every coordinate of the terrain, the
    tile the terrain gives it, and [None] at every other coordinate of the
    arena; it has the size of the arena and no position, description,
    landmark or opponents. *)
Theorem Map_init_terrain_lookup (a : Arena)
    (Hbounds : terrain_in_bounds a) (Hkeys : NoDup (terrain a).*1) :
  exists m,
    Map_init a = Ok m /\ wf_map m /\ MAPSIZE m = size a /\
    (forall c tile, (c, tile) ∈ terrain a -> gget (map m) c = Some (Some (Static tile))) /\
    (forall c, isInMap m c = true -> c ∉ (terrain a).*1 -> gget (map m) c = Some None) /\
    position m = None /\ description m = None /\ menhir m = None /\
    opponentsAlive m = 0 /\ opponents m = [].
Proof.
  unfold Map_init, initMap.
  destruct (initMap_terrain_lookup (fst (size a)) (snd (size a)) (terrain a) (blank (size a)))
    as (g & -> & Hsh & Hin & Hout); [apply shape_blank|done|done|].
  simpl. eexists. split; [done|]. split; [exact Hsh|]. split; [done|].
  split; [done|]. split; [|done].
  intros c Hc Hnin. simpl. rewrite (Hout c Hnin).
  apply isInMap_spec in Hc. simpl in Hc. apply gget_blank; lia.
Qed.

Lemma Map_init_terrain_lookup_witness :
  exists m,
    Map_init (open_arena 2 2) = Ok m /\ wf_map m /\ MAPSIZE m = size (open_arena 2 2) /\
    (forall c tile, (c, tile) ∈ terrain (open_arena 2 2) ->
                    gget (map m) c = Some (Some (Static tile))) /\
    (forall c, isInMap m c = true -> c ∉ (terrain (open_arena 2 2)).*1 ->
               gget (map m) c = Some None) /\
    position m = None /\ description m = None /\ menhir m = None /\
    opponentsAlive m = 0 /\ opponents m = [].
Proof.
  apply (Map_init_terrain_lookup (open_arena 2 2)).
  - unfold terrain_in_bounds. vm_compute. repeat constructor; discriminate.
  - apply (bool_decide_unpack _). vm_compute. exact I.
Defined.

(** The coordinate is a pair of Python indices of a grid of size [sz]. *)
Definition in_index_range (sz : Z * Z) (c : Coords) : bool :=
  py_index (Z.to_nat (fst sz)) (coordinates.x c)
  && py_index (Z.to_nat (snd sz)) (coordinates.y c).

Lemma initMap_terrain_cases sz t : forall g,
  shape (Z.to_nat (fst sz)) (Z.to_nat (snd sz)) g ->
  match initMap_terrain g t with
  | Ok g' => shape (Z.to_nat (fst sz)) (Z.to_nat (snd sz)) g'
             /\ forallb (fun ct => in_index_range sz (fst ct)) t = true
  | Raise e => e = IndexError /\ forallb (fun ct => in_index_range sz (fst ct)) t = false
  | OutOfFuel => False
  end.
Proof.
  induction t as [|[c tile] t IH]; intros g Hsh; simpl; [done|].
  pose proof (py_set2_cases _ _ g (coordinates.x c) (coordinates.y c)
                (Some (Static tile)) Hsh) as Hs.
  destruct (py_set2 g _ _ _) as [g'| |]; simpl; [| |done].
  - destruct Hs as [Hsh' Hin]. specialize (IH g' Hsh'). unfold in_index_range at 1 3.
    rewrite Hin. simpl. done.
  - destruct Hs as [-> Hin]. unfold in_index_range at 1. by rewrite Hin.
Qed.

(** X9: [Map.__init__] succeeds exactly when every coordinate of the
    terrain is a pair of Python indices of the grid (negative ones down to
    minus the size included), and the map is then well formed; otherwise it
    raises IndexError, and nothing else. *)
Theorem Map_init_raises_iff (a : Arena) :
  match Map_init a with
  | Ok m => wf_map m /\ MAPSIZE m = size a
            /\ forallb (fun ct => in_index_range (size a) (fst ct)) (terrain a) = true
  | Raise e => e = IndexError
               /\ forallb (fun ct => in_index_range (size a) (fst ct)) (terrain a) = false
  | OutOfFuel => False
  end.
Proof.
  unfold Map_init, initMap.
  pose proof (initMap_terrain_cases (size a) (terrain a) (blank (size a))
                (shape_blank (size a))) as H.
  destruct (initMap_terrain (blank (size a)) (terrain a)) as [g| |]; simpl; [|done|done].
  destruct H as [Hsh Hall]. done.
Qed.

Lemma dict_get_cases {V} (d : list (Coords * V)) k :
  match dict_get d k with
  | Ok v => (k, v) ∈ d
  | Raise e => e = KeyError /\ k ∉ d.*1
  | OutOfFuel => False
  end.
Proof.
  induction d as [|[k' v'] d IH]; simpl.
  - split; [done|apply not_elem_of_nil].
  - case_bool_decide as Hk.
    + subst. apply list_elem_of_here.
    + destruct (dict_get d k) as [v| |]; [by apply list_elem_of_further| |done].
      destruct IH as [-> Hn]. split; [done|]. simpl. apply not_elem_of_cons. done.
Qed.

Lemma NoDup_fst_unique {V} (d : list (Coords * V)) k v v' :
  NoDup d.*1 -> (k, v) ∈ d -> (k, v') ∈ d -> v = v'.
Proof.
  induction d as [|[k0 v0] d IH]; intros Hnd H1 H2; [by apply elem_of_nil in H1|].
  simpl in Hnd. apply NoDup_cons in Hnd as [Hnin Hnd].
  assert (Hfst : forall w, (k0, w) ∈ d -> False).
  { intros w Hw. apply Hnin. apply list_elem_of_fmap. by exists (k0, w). }
  apply elem_of_cons in H1 as [[= -> ->]|H1], H2 as [[= ->]|H2].
  - done.
  - exfalso. by eapply Hfst.
  - subst. exfalso. by eapply Hfst.
  - by apply IH.
Qed.

(** The landmark that the loop of [update] finds: the first visible
    coordinate whose tile has the type of the landmark. *)
Fixpoint first_menhir (vt : list (Coords * TileDescription)) : option Coords :=
  match vt with
  | [] => None
  | (c, t) :: vt' => if String.eqb (type t) "menhir" then Some c else first_menhir vt'
  end.

Lemma update_tiles_records vt : forall m,
  wf_map m ->
  Forall (fun ct : Coords * TileDescription => isInMap m (fst ct) = true) vt ->
  NoDup vt.*1 ->
  exists m', update_tiles m vt = Returns tt m' /\ wf_map m' /\
    MAPSIZE m' = MAPSIZE m /\ position m' = position m /\
    description m' = description m /\ opponentsAlive m' = opponentsAlive m /\
    opponents m' = opponents m /\ closestMist m' = closestMist m /\
    (forall c t, (c, t) ∈ vt -> gget (map m') c = Some (Some (Described t))) /\
    (forall c, c ∉ vt.*1 -> gget (map m') c = gget (map m) c).
Proof.
  induction vt as [|[c0 t0] vt IH]; intros m Hwf Hin Hnd; simpl.
  - exists m. do 8 (split; [done|]). split; [|done].
    intros c t Hc. by apply elem_of_nil in Hc.
  - apply Forall_cons in Hin as [Hin0 Hin]. simpl in Hin0.
    simpl in Hnd. apply NoDup_cons in Hnd as [Hnin Hnd].
    destruct (isInMap_gget _ _ Hwf Hin0) as [b Hb].
    rewrite (py_set2_gset _ _ (Some (Described t0)) _ Hb). simpl.
    set (m1 := set_map m (gset (map m) c0 (Some (Described t0)))).
    set (m2 := match menhir m1 with
               | Some _ => m1
               | None => if String.eqb (type t0) "menhir"
                         then set_menhir m1 (Some c0) else m1
               end).
    assert (Hm2 : map m2 = gset (map m) c0 (Some (Described t0))
                  /\ MAPSIZE m2 = MAPSIZE m /\ position m2 = position m
                  /\ description m2 = description m
                  /\ opponentsAlive m2 = opponentsAlive m
                  /\ opponents m2 = opponents m /\ closestMist m2 = closestMist m).
    { unfold m2. destruct (menhir m1); [done|]. by destruct (String.eqb _ _). }
    destruct Hm2 as (Hmap & Hsz & Hpos & Hdsc & Hopp & Hops & Hmist).
    assert (Hwf2 : wf_map m2).
    { unfold wf_map. rewrite Hmap, Hsz. by apply shape_gset. }
    destruct (IH m2 Hwf2) as (m' & Hrun & Hwf' & Hsz' & Hpos' & Hdsc' & Hopp' & Hops'
                              & Hmist' & Hrec & Hout); [|done|].
    { eapply Forall_impl; [exact Hin|]. intros ct Hct. unfold isInMap in *.
      by rewrite Hsz. }
    exists m'. split; [done|]. split; [done|].
    do 6 (split; [congruence|]). split.
    + intros c t Hc. apply elem_of_cons in Hc as [[= -> ->]|Hc]; [|by apply Hrec].
      rewrite (Hout c0 Hnin), Hmap, (gget_gset _ _ _ _ _ Hb). by rewrite decide_True.
    + intros c Hc. apply not_elem_of_cons in Hc as [Hne Hc].
      rewrite (Hout c Hc), Hmap, (gget_gset _ _ _ _ _ Hb). by rewrite decide_False.
Qed.

(** What [Map.update] leaves when the observation lies in the map and
    shows the champion's own tile. *)
Lemma Map_update_spec m k :
  wf_map m ->
  Forall (fun ct => isInMap m (fst ct) = true) (visible_tiles k) ->
  NoDup (visible_tiles k).*1 ->
  k_position k ∈ (visible_tiles k).*1 ->
  exists m' t0,
    Map_update m k = Returns tt m' /\ wf_map m' /\ MAPSIZE m' = MAPSIZE m /\
    position m' = Some (k_position k) /\
    opponentsAlive m' = no_of_champions_alive k - 1 /\
    dict_get (visible_tiles k) (k_position k) = Ok t0 /\
    description m' = character t0 /\
    (forall c t, (c, t) ∈ visible_tiles k ->
                 gget (map m') c = Some (Some (Described t))) /\
    (forall c, c ∉ (visible_tiles k).*1 -> gget (map m') c = gget (map m) c).
Proof.
  intros Hwf Hinside Hkeys Hown. unfold Map_update.
  pose proof (dict_get_cases (visible_tiles k) (k_position k)) as Hget.
  destruct (dict_get (visible_tiles k) (k_position k)) as [t0| |]; [| |done].
  2: { by destruct Hget as [_ Hn]. }
  simpl.
  set (m2 := mkMap _ _ _ _ _ _ _ _).
  destruct (update_tiles_records (visible_tiles k) m2)
    as (m' & Hrun & Hwf' & Hsz & Hpos & Hdsc & Hopp & _ & _ & Hrec & Hout);
    [done|done|done|].
  exists m', t0. do 6 (split; [done|]). done.
Qed.

(** X10: an observation whose tiles all lie in the map and which shows the
    champion's own tile is taken in by [Map.update] without exception;
    afterwards every visible coordinate holds the tile that was seen there
    and every other cell is as before, the position is the observed one,
    the description is the occupant of the champion's own tile and the
    number of opponents is the number of champions alive less one; the
    size of the map does not change. *)
Theorem Map_update_records (m : Map) (k : ChampionKnowledge)
    (Hwf : wf_map m)
    (Hinside : Forall (fun ct => isInMap m (fst ct) = true) (visible_tiles k))
    (Hkeys : NoDup (visible_tiles k).*1)
    (Hown : k_position k ∈ (visible_tiles k).*1) :
  exists m',
    Map_update m k = Returns tt m' /\ wf_map m' /\ MAPSIZE m' = MAPSIZE m /\
    position m' = Some (k_position k) /\
    opponentsAlive m' = no_of_champions_alive k - 1 /\
    (forall t, (k_position k, t) ∈ visible_tiles k -> description m' = character t) /\
    (forall c t, (c, t) ∈ visible_tiles k ->
                 gget (map m') c = Some (Some (Described t))) /\
    (forall c, c ∉ (visible_tiles k).*1 -> gget (map m') c = gget (map m) c).
Proof.
  destruct (Map_update_spec m k Hwf Hinside Hkeys Hown)
    as (m' & t0 & Hrun & Hwf' & Hsz & Hpos & Hopp & Hget & Hdsc & Hrec & Hout).
  exists m'. do 5 (split; [done|]). split; [|done].
  intros t Ht. rewrite Hdsc. f_equal.
  pose proof (dict_get_cases (visible_tiles k) (k_position k)) as Hc.
  rewrite Hget in Hc. by eapply NoDup_fst_unique.
Qed.

Lemma Map_update_records_witness :
  exists m',
    Map_update map_corner (look (coordinates.mk 1 0) DOWN []) = Returns tt m' /\
    wf_map m' /\ MAPSIZE m' = MAPSIZE map_corner /\
    position m' = Some (k_position (look (coordinates.mk 1 0) DOWN [])) /\
    opponentsAlive m' = no_of_champions_alive (look (coordinates.mk 1 0) DOWN []) - 1 /\
    (forall t, (k_position (look (coordinates.mk 1 0) DOWN []), t)
               ∈ visible_tiles (look (coordinates.mk 1 0) DOWN []) ->
               description m' = character t) /\
    (forall c t, (c, t) ∈ visible_tiles (look (coordinates.mk 1 0) DOWN []) ->
                 gget (map m') c = Some (Some (Described t))) /\
    (forall c, c ∉ (visible_tiles (look (coordinates.mk 1 0) DOWN [])).*1 ->
               gget (map m') c = gget (map map_corner) c).
Proof.
  apply (Map_update_records map_corner (look (coordinates.mk 1 0) DOWN [])).
  - split; [reflexivity|]. vm_compute. repeat constructor.
  - vm_compute. repeat constructor.
  - apply (bool_decide_unpack _). vm_compute. exact I.
  - apply (bool_decide_unpack _). vm_compute. exact I.
Defined.

Lemma py_set2_fuel {A} (g : list (list A)) i j a : py_set2 g i j a <> OutOfFuel.
Proof.
  unfold py_set2. pose proof (py_get_fuel g i).
  destruct (py_get g i) as [row| |]; simpl; [|done|done].
  unfold py_set. destruct (_ && _); simpl; [|done]. by destruct (_ && _).
Qed.

Lemma update_tiles_menhir vt : forall m,
  match update_tiles m vt with
  | Returns _ m' =>
      menhir m' = match menhir m with
                  | Some c => Some c
                  | None => first_menhir vt
                  end
  | Throws _ m' => forall c, menhir m = Some c -> menhir m' = Some c
  | Hangs => False
  end.
Proof.
  induction vt as [|[c0 t0] vt IH]; intros m; simpl.
  - by destruct (menhir m).
  - pose proof (py_set2_fuel (map m) (coordinates.x c0) (coordinates.y c0)
                             (Some (Described t0))) as Hf.
    destruct (py_set2 (map m) _ _ _) as [g| |]; simpl; [|done|done].
    set (m1 := set_map m g).
    set (m2 := match menhir m with
               | Some _ => m1
               | None => if String.eqb (type t0) "menhir"
                         then set_menhir m1 (Some c0) else m1
               end).
    specialize (IH m2).
    assert (Hm2 : menhir m2 = match menhir m with
                              | Some c => Some c
                              | None => if String.eqb (type t0) "menhir"
                                        then Some c0 else None
                              end).
    { unfold m2.
      destruct (menhir m) as [c|] eqn:Hm; [done|].
      destruct (String.eqb _ _); [done|]. exact Hm. }
    destruct (update_tiles m2 vt) as [[] m'|e m'|]; [| |done].
    + rewrite IH, Hm2. destruct (menhir m); [done|]. by destruct (String.eqb _ _).
    + intros c Hc. apply IH. rewrite Hm2. by rewrite Hc.
Qed.

Lemma Map_update_landmark m k :
  match Map_update m k with
  | Returns _ m' =>
      menhir m' = match menhir m with
                  | Some c => Some c
                  | None => first_menhir (visible_tiles k)
                  end
  | Throws _ m' => forall c, menhir m = Some c -> menhir m' = Some c
  | Hangs => False
  end.
Proof.
  unfold Map_update.
  pose proof (dict_get_cases (visible_tiles k) (k_position k)) as Hget.
  destruct (dict_get (visible_tiles k) (k_position k)) as [t0| |]; simpl; [|done|done].
  set (m2 := mkMap _ _ _ _ _ _ _ _).
  exact (update_tiles_menhir (visible_tiles k) m2).
Qed.

(** X11: the landmark is recorded once: when [Map.update] returns, a
    landmark known before is kept, and otherwise the landmark is the first
    visible coordinate, in the order of the observation, whose tile has
    the type "menhir", if there is one; when [Map.update] raises, a
    landmark known before is kept as well. *)
Theorem Map_update_menhir (m : Map) (k : ChampionKnowledge) :
  match Map_update m k with
  | Returns _ m' =>
      menhir m' = match menhir m with
                  | Some c => Some c
                  | None => first_menhir (visible_tiles k)
                  end
  | Throws _ m' => forall c, menhir m = Some c -> menhir m' = Some c
  | Hangs => False
  end.
Proof. apply Map_update_landmark. Qed.

(** X12: when the observation does not show the tile the champion stands
    on, [Map.update] raises KeyError after it has assigned the position
    and before it touches anything else, and [decide] lets the exception
    through. *)
Theorem Map_update_own_tile_missing (kb : KnowledgeBase) (m : Map)
    (k : ChampionKnowledge) (pick : nat)
    (Hmap : mapBase kb = Some m)
    (Hmissing : k_position k ∉ (visible_tiles k).*1) :
  let m1 := mkMap (MAPSIZE m) (map m) (opponentsAlive m) (description m)
                  (Some (k_position k)) (opponents m) (closestMist m) (menhir m) in
  Map_update m k = Throws KeyError m1 /\
  AresController_decide kb k pick
  = Throws KeyError (mkKB (Some m1) (round_counter kb) (actionsToMake kb)
                          (actionsTarget kb) (tileNeighbourhood kb)).
Proof.
  intros m1.
  assert (Hup : Map_update m k = Throws KeyError m1).
  { unfold Map_update.
    pose proof (dict_get_cases (visible_tiles k) (k_position k)) as Hget.
    destruct (dict_get (visible_tiles k) (k_position k)) as [t0|e|]; [| |done].
    - exfalso. apply Hmissing. apply list_elem_of_fmap. by exists (k_position k, t0).
    - by destruct Hget as [-> _]. }
  split; [done|].
  unfold AresController_decide, KnowledgeBase_update. by rewrite Hmap, Hup.
Qed.

Lemma Map_update_own_tile_missing_witness :
  let k := mkKnowledge (coordinates.mk 1 1) 2 [(coordinates.mk 1 2, land_tile)] in
  let m1 := mkMap (MAPSIZE map_corner) (map map_corner) (opponentsAlive map_corner)
                  (description map_corner) (Some (k_position k)) (opponents map_corner)
                  (closestMist map_corner) (menhir map_corner) in
  Map_update map_corner k = Throws KeyError m1 /\
  AresController_decide (mkKB (Some map_corner) 0 [] None 16) k 0
  = Throws KeyError (mkKB (Some m1) 0 [] None 16).
Proof.
  apply (Map_update_own_tile_missing (mkKB (Some map_corner) 0 [] None 16) map_corner
           (mkKnowledge (coordinates.mk 1 1) 2 [(coordinates.mk 1 2, land_tile)]) 0).
  - reflexivity.
  - apply (bool_decide_unpack _). vm_compute. exact I.
Defined.

Lemma update_tiles_cases vt : forall m,
  wf_map m ->
  match update_tiles m vt with
  | Returns _ m' =>
      wf_map m' /\ MAPSIZE m' = MAPSIZE m /\ position m' = position m /\
      forallb (fun ct => in_index_range (MAPSIZE m) (fst ct)) vt = true
  | Throws e m' =>
      e = IndexError /\ wf_map m' /\ MAPSIZE m' = MAPSIZE m /\ position m' = position m /\
      forallb (fun ct => in_index_range (MAPSIZE m) (fst ct)) vt = false
  | Hangs => False
  end.
Proof.
  induction vt as [|[c0 t0] vt IH]; intros m Hwf; simpl; [done|].
  pose proof (py_set2_cases _ _ (map m) (coordinates.x c0) (coordinates.y c0)
                (Some (Described t0)) Hwf) as Hs.
  destruct (py_set2 (map m) _ _ _) as [g| |]; simpl; [| |done].
  - destruct Hs as [Hsh Hin].
    set (m1 := set_map m g).
    set (m2 := match menhir m with
               | Some _ => m1
               | None => if String.eqb (type t0) "menhir"
                         then set_menhir m1 (Some c0) else m1
               end).
    assert (Hm2 : map m2 = g /\ MAPSIZE m2 = MAPSIZE m /\ position m2 = position m).
    { unfold m2. destruct (menhir m); [done|]. by destruct (String.eqb _ _). }
    destruct Hm2 as (Hmap & Hsz & Hpos).
    assert (Hwf2 : wf_map m2).
    { unfold wf_map. by rewrite Hmap, Hsz. }
    specialize (IH m2 Hwf2). rewrite Hsz, Hpos in IH.
    unfold in_index_range at 1 3. rewrite Hin. simpl. exact IH.
  - destruct Hs as [-> Hin]. unfold in_index_range at 1. rewrite Hin. done.
Qed.

(** X13: on a well-formed map, an observation that shows the champion's
    own tile is taken in by [Map.update] exactly when every visible
    coordinate is a pair of Python indices of the grid; otherwise
    [Map.update] raises IndexError, and nothing else, with the position
    already assigned and the map still well formed. *)
Theorem Map_update_raises_iff (m : Map) (k : ChampionKnowledge)
    (Hwf : wf_map m) (Hown : k_position k ∈ (visible_tiles k).*1) :
  match Map_update m k with
  | Returns _ m' =>
      wf_map m' /\ position m' = Some (k_position k) /\
      forallb (fun ct => in_index_range (MAPSIZE m) (fst ct)) (visible_tiles k) = true
  | Throws e m' =>
      e = IndexError /\ wf_map m' /\ position m' = Some (k_position k) /\
      forallb (fun ct => in_index_range (MAPSIZE m) (fst ct)) (visible_tiles k) = false
  | Hangs => False
  end.
Proof.
  unfold Map_update.
  pose proof (dict_get_cases (visible_tiles k) (k_position k)) as Hget.
  destruct (dict_get (visible_tiles k) (k_position k)) as [t0| |]; [| |done].
  2: { by destruct Hget as [_ Hn]. }
  simpl. set (m2 := mkMap _ _ _ _ _ _ _ _).
  pose proof (update_tiles_cases (visible_tiles k) m2 Hwf) as H.
  destruct (update_tiles m2 (visible_tiles k)) as [[] m'|e m'|]; [| |done].
  - destruct H as (? & ? & ? & ?). done.
  - destruct H as (? & ? & ? & ? & ?). done.
Qed.

Lemma Map_update_raises_iff_witness :
  match Map_update map_corner
          (look (coordinates.mk 2 2) RIGHT [(coordinates.mk 3 2, land_tile)]) with
  | Returns _ m' =>
      wf_map m' /\
      position m' = Some (k_position (look (coordinates.mk 2 2) RIGHT
                                           [(coordinates.mk 3 2, land_tile)])) /\
      forallb (fun ct => in_index_range (MAPSIZE map_corner) (fst ct))
              (visible_tiles (look (coordinates.mk 2 2) RIGHT
                                   [(coordinates.mk 3 2, land_tile)])) = true
  | Throws e m' =>
      e = IndexError /\ wf_map m' /\
      position m' = Some (k_position (look (coordinates.mk 2 2) RIGHT
                                           [(coordinates.mk 3 2, land_tile)])) /\
      forallb (fun ct => in_index_range (MAPSIZE map_corner) (fst ct))
              (visible_tiles (look (coordinates.mk 2 2) RIGHT
                                   [(coordinates.mk 3 2, land_tile)])) = false
  | Hangs => False
  end.
Proof.
  apply (Map_update_raises_iff map_corner
           (look (coordinates.mk 2 2) RIGHT [(coordinates.mk 3 2, land_tile)])).
  - split; [reflexivity|]. vm_compute. repeat constructor.
  - apply (bool_decide_unpack _). vm_compute. exact I.
Defined.

Lemma gset_id {A} (g : list (list A)) c a : gget g c = Some a -> gset g c a = g.
Proof.
  unfold gget, gset. destruct (_ && _); [|done].
  destruct (g !! Z.to_nat (coordinates.x c)) as [row|] eqn:Hrow; [|done].
  intros Hcell. rewrite (list_insert_id row _ _ Hcell). by apply list_insert_id.
Qed.

Lemma update_tiles_again vt : forall m,
  (forall c t, (c, t) ∈ vt -> gget (map m) c = Some (Some (Described t))) ->
  (menhir m = None -> first_menhir vt = None) ->
  update_tiles m vt = Returns tt m.
Proof.
  induction vt as [|[c0 t0] vt IH]; intros m Hcells Hmenhir; simpl; [done|].
  rewrite (py_set2_gset _ _ (Some (Described t0)) _ (Hcells c0 t0 (list_elem_of_here _ _))).
  simpl. rewrite (gset_id _ _ _ (Hcells c0 t0 (list_elem_of_here _ _))).
  assert (set_map m (map m) = m) as -> by (by destruct m).
  assert (Hm : match menhir m with
               | Some _ => m
               | None => if String.eqb (type t0) "menhir"
                         then set_menhir m (Some c0) else m
               end = m /\ (menhir m = None -> first_menhir vt = None)).
  { destruct (menhir m) as [c|] eqn:Hmen; [done|].
    specialize (Hmenhir eq_refl). simpl in Hmenhir.
    destruct (String.eqb (type t0) "menhir"); done. }
  destruct Hm as [-> Hrest]. apply IH; [|done].
  intros c t Hc. apply Hcells. by apply list_elem_of_further.
Qed.

(** X14: taking in the same observation a second time changes nothing:
    after [Map.update] has returned for an observation that lies in the
    map, [Map.update] with that observation returns the same map again. *)
Theorem Map_update_idempotent (m : Map) (k : ChampionKnowledge)
    (Hwf : wf_map m)
    (Hinside : Forall (fun ct => isInMap m (fst ct) = true) (visible_tiles k))
    (Hkeys : NoDup (visible_tiles k).*1)
    (Hown : k_position k ∈ (visible_tiles k).*1) :
  exists m', Map_update m k = Returns tt m' /\ Map_update m' k = Returns tt m'.
Proof.
  destruct (Map_update_spec m k Hwf Hinside Hkeys Hown)
    as (m' & t0 & Hrun & Hwf' & Hsz & Hpos & Hopp & Hget & Hdsc & Hrec & Hout).
  exists m'. split; [done|].
  pose proof (Map_update_landmark m k) as Hland. rewrite Hrun in Hland.
  unfold Map_update. rewrite Hget. simpl.
  assert (mkMap (MAPSIZE m') (map m') (no_of_champions_alive k - 1) (character t0)
                (Some (k_position k)) (opponents m') (closestMist m') (menhir m') = m')
    as ->.
  { destruct m'. simpl in *. by subst. }
  apply update_tiles_again; [done|].
  intros Hnone. rewrite Hnone in Hland. by destruct (menhir m).
Qed.

Lemma Map_update_idempotent_witness :
  exists m',
    Map_update map_corner (look (coordinates.mk 1 0) DOWN []) = Returns tt m' /\
    Map_update m' (look (coordinates.mk 1 0) DOWN []) = Returns tt m'.
Proof.
  apply (Map_update_idempotent map_corner (look (coordinates.mk 1 0) DOWN [])).
  - split; [reflexivity|]. vm_compute. repeat constructor.
  - vm_compute. repeat constructor.
  - apply (bool_decide_unpack _). vm_compute. exact I.
  - apply (bool_decide_unpack _). vm_compute. exact I.
Defined.


(** * Further properties of the decision policy *)

(** ** [checkPossibleAction] *)

Lemma checkPossibleAction_cases tile pick :
  (tilePassable tile = false /\ checkPossibleAction tile pick = TURN_RIGHT) \/
  (tilePassable tile = true /\
   checkPossibleAction tile pick ∈ [TURN_LEFT; TURN_RIGHT; STEP_FORWARD]).
Proof.
  unfold checkPossibleAction.
  assert (Hlt : (pick `mod` length fallback_choices < 6)%nat).
  { change (length fallback_choices) with 6%nat. apply Nat.mod_upper_bound. lia. }
  destruct (pick `mod` length fallback_choices)%nat as [|[|[|[|[|[|n]]]]]];
    destruct (tilePassable tile); simpl; try lia; try (by left).
  all: right; split; [done|]; rewrite !elem_of_cons; auto.
Qed.

(** X15: whatever is drawn, the local fallback [checkPossibleAction]
    returns a turn or a move; it returns turn-right when the tile ahead is
    not passable, so a move only towards a passable tile; and towards a
    passable tile each of turn-left, turn-right and move-forward is
    returned for some draw. *)
Theorem checkPossibleAction_cautious (tile : option MapTile) (pick : nat) :
  checkPossibleAction tile pick ∈ [TURN_LEFT; TURN_RIGHT; STEP_FORWARD] /\
  (tilePassable tile = false -> checkPossibleAction tile pick = TURN_RIGHT) /\
  (checkPossibleAction tile pick = STEP_FORWARD -> tilePassable tile = true) /\
  (tilePassable tile = true ->
   forall a, a ∈ [TURN_LEFT; TURN_RIGHT; STEP_FORWARD] ->
             exists pick', checkPossibleAction tile pick' = a).
Proof.
  destruct (checkPossibleAction_cases tile pick) as [[Hp Ha]|[Hp Ha]].
  - rewrite Ha, Hp. split; [rewrite !elem_of_cons; auto|].
    split; [done|]. split; done.
  - split; [done|]. split; [congruence|]. split; [done|].
    intros _ a Hin. unfold checkPossibleAction. rewrite Hp. simpl.
    rewrite !elem_of_cons, elem_of_nil in Hin.
    destruct Hin as [->|[->|[->|[]]]]; [by exists 0%nat|by exists 1%nat|by exists 2%nat].
Qed.

(** ** [followTarget] *)

(** What [followTarget] and [choice] leave alone. *)
Definition frame (kb kb' : KnowledgeBase) : Prop :=
  mapBase kb' = mapBase kb /\ tileNeighbourhood kb' = tileNeighbourhood kb /\
  round_counter kb' = round_counter kb.

(** The queue holds actions of [POSSIBLE_ACTIONS] only. *)
Definition plan_ok (kb : KnowledgeBase) : Prop :=
  Forall (fun a => a ∈ POSSIBLE_ACTIONS) (actionsToMake kb).

Lemma fallback_possible tile pick : checkPossibleAction tile pick ∈ POSSIBLE_ACTIONS.
Proof.
  destruct (checkPossibleAction_cases tile pick) as [[_ ->]|[_ Ha]];
    unfold POSSIBLE_ACTIONS.
  - rewrite !elem_of_cons; auto.
  - rewrite !elem_of_cons, elem_of_nil in Ha. rewrite !elem_of_cons. tauto.
Qed.

Lemma fallback_step tile pick :
  checkPossibleAction tile pick = STEP_FORWARD -> tilePassable tile = true.
Proof.
  destruct (checkPossibleAction_cases tile pick) as [[_ ->]|[Hp _]]; done.
Qed.

Lemma inFrontTile_set_plan kb acts tgt : inFrontTile (set_plan kb acts tgt) = inFrontTile kb.
Proof. reflexivity. Qed.

Lemma inFrontTile_same_map kb kb' :
  mapBase kb' = mapBase kb -> inFrontTile kb' = inFrontTile kb.
Proof. intros H. unfold inFrontTile, inFrontCoords. by rewrite H. Qed.

Lemma stepPossible_step kb :
  stepPossible kb STEP_FORWARD = Ok true ->
  exists tile, inFrontTile kb = Ok tile /\ tilePassable tile = true
               /\ tileIsMist tile = Ok false.
Proof.
  unfold stepPossible. rewrite bool_decide_eq_true_2 by done.
  destruct (inFrontTile kb) as [tile| |]; simpl; [|done|done].
  destruct (tilePassable tile) eqn:Hp; simpl; [|done].
  destruct (tileIsMist tile) as [[|]| |] eqn:Hm; simpl; try done.
  intros _. by exists tile.
Qed.

Lemma followTarget_fallback_cases kb pick :
  match followTarget_fallback kb pick with
  | Returns a kb' =>
      kb' = set_plan kb [] None /\
      exists tile, inFrontTile kb = Ok tile /\ a = checkPossibleAction tile pick
  | Throws _ kb' => kb' = set_plan kb [] None
  | Hangs => False
  end.
Proof.
  unfold followTarget_fallback. rewrite inFrontTile_set_plan.
  pose proof (inFrontTile_fuel kb).
  destruct (inFrontTile kb) as [tile| |]; simpl; [|done|done].
  split; [done|]. by exists tile.
Qed.

(** How [followTarget] leaves: with the head of the queue, which it has
    removed, or with the fallback action and nothing queued. *)
Lemma followTarget_cases kb pick :
  match followTarget kb pick with
  | Returns a kb' =>
      frame kb kb' /\
      ((actionsToMake kb = a :: actionsToMake kb' /\ actionsTarget kb' = actionsTarget kb
        /\ stepPossible kb a = Ok true)
       \/ (actionsToMake kb' = [] /\ actionsTarget kb' = None /\
           exists tile, inFrontTile kb = Ok tile /\ a = checkPossibleAction tile pick))
  | Throws _ kb' =>
      frame kb kb' /\ exists n, actionsToMake kb' = drop n (actionsToMake kb)
  | Hangs => False
  end.
Proof.
  unfold followTarget. destruct (actionsToMake kb) as [|a rest] eqn:Hq.
  - pose proof (followTarget_fallback_cases kb pick) as H.
    destruct (followTarget_fallback kb pick) as [b kb'|e kb'|]; [| |done].
    + destruct H as [-> Htile]. split; [done|]. right. done.
    + subst kb'. split; [done|]. by exists 0%nat.
  - change (stepPossible (set_plan kb rest (actionsTarget kb)) a)
      with (stepPossible kb a).
    pose proof (stepPossible_fuel kb a) as Hf.
    destruct (stepPossible kb a) as [[|]|e|] eqn:Hstep; [| | |done].
    + split; [done|]. left. done.
    + pose proof (followTarget_fallback_cases
                    (set_plan (set_plan kb rest (actionsTarget kb)) [] None) pick) as H.
      destruct (followTarget_fallback _ pick) as [b kb'|e kb'|]; [| |done].
      * destruct H as [-> Htile]. split; [done|]. right. done.
      * subst kb'. split; [done|]. exists (S (length rest)). simpl.
        by rewrite drop_all.
    + split; [done|]. by exists 1%nat.
Qed.

(** The tile that is read ahead is the tile of the cell ahead when that
    cell lies in the map. *)
Lemma inFrontTile_cell kb tile :
  inFrontTile kb = Ok tile ->
  exists m c, mapBase kb = Some m /\ inFrontCoords kb = Ok c /\
    (isInMap m c = true -> gget (map m) c = Some tile).
Proof.
  unfold inFrontTile. destruct (inFrontCoords kb) as [c| |] eqn:Hc; [|done|done].
  simpl. destruct (mapBase kb) as [m|] eqn:Hm; [|done]. intros Hread.
  exists m, c. split; [done|]. split; [done|].
  intros Hin. apply isInMap_spec in Hin. apply gget_py_get2; [lia|lia|done].
Qed.

(** X16: when [followTarget] returns, it has either taken the head of the
    queue, which it returns after checking that the step is possible, and
    kept the rest of the queue and the goal, or emptied the queue, dropped
    the goal and returned the fallback action for the tile read ahead; the
    map, the round counter and the neighbourhood constant are untouched.
    When it returns move-forward, the tile that the read at the position
    plus the unit vector of the facing gives is recorded and passable, and
    it is the tile of the cell ahead whenever that cell lies in the map
    (at the first column facing left and at the first row facing up the
    read wraps around, and nothing is said of the cell ahead). *)
Theorem followTarget_outcome (kb : KnowledgeBase) (pick : nat) (a : Action)
    (kb' : KnowledgeBase)
    (Hrun : followTarget kb pick = Returns a kb') :
  mapBase kb' = mapBase kb /\ round_counter kb' = round_counter kb /\
  tileNeighbourhood kb' = tileNeighbourhood kb /\
  ((actionsToMake kb = a :: actionsToMake kb' /\ actionsTarget kb' = actionsTarget kb
    /\ stepPossible kb a = Ok true)
   \/ (actionsToMake kb' = [] /\ actionsTarget kb' = None /\
       exists tile, inFrontTile kb = Ok tile /\ a = checkPossibleAction tile pick)) /\
  (a = STEP_FORWARD ->
   exists m c tile,
     mapBase kb = Some m /\ inFrontCoords kb = Ok c /\
     inFrontTile kb = Ok (Some tile) /\ tilePassable (Some tile) = true /\
     (isInMap m c = true -> gget (map m) c = Some (Some tile))).
Proof.
  pose proof (followTarget_cases kb pick) as H. rewrite Hrun in H.
  destruct H as ((Hm & Hn & Hr) & Hcases).
  do 3 (split; [done|]). split; [done|].
  intros ->.
  assert (Hread : exists tile, inFrontTile kb = Ok tile /\ tilePassable tile = true).
  { destruct Hcases as [(_ & _ & Hstep)|(_ & _ & tile & Htile & Ha)].
    - destruct (stepPossible_step kb Hstep) as (tile & ? & ? & _). by exists tile.
    - exists tile. split; [done|]. by eapply fallback_step. }
  destruct Hread as ([tile|] & Htile & Hp); [|done].
  destruct (inFrontTile_cell kb _ Htile) as (m & c & Hmap & Hc & Hcell).
  by exists m, c, tile.
Qed.

Lemma followTarget_outcome_witness :
  let kb := mkKB (Some map_corner) 3 [STEP_FORWARD; TURN_LEFT] (Some (coordinates.mk 1 1)) 16 in
  let kb' := mkKB (Some map_corner) 3 [TURN_LEFT] (Some (coordinates.mk 1 1)) 16 in
  mapBase kb' = mapBase kb /\ round_counter kb' = round_counter kb /\
  tileNeighbourhood kb' = tileNeighbourhood kb /\
  ((actionsToMake kb = STEP_FORWARD :: actionsToMake kb'
    /\ actionsTarget kb' = actionsTarget kb
    /\ stepPossible kb STEP_FORWARD = Ok true)
   \/ (actionsToMake kb' = [] /\ actionsTarget kb' = None /\
       exists tile, inFrontTile kb = Ok tile
                    /\ STEP_FORWARD = checkPossibleAction tile 0)) /\
  (STEP_FORWARD = STEP_FORWARD ->
   exists m c tile,
     mapBase kb = Some m /\ inFrontCoords kb = Ok c /\
     inFrontTile kb = Ok (Some tile) /\ tilePassable (Some tile) = true /\
     (isInMap m c = true -> gget (map m) c = Some (Some tile))).
Proof.
  apply (followTarget_outcome
           (mkKB (Some map_corner) 3 [STEP_FORWARD; TURN_LEFT]
                 (Some (coordinates.mk 1 1)) 16) 0 STEP_FORWARD).
  reflexivity.
Defined.

(** ** The actions of a plan *)

Definition turn_or_step (a : Action) : Prop :=
  a = TURN_LEFT \/ a = TURN_RIGHT \/ a = STEP_FORWARD.

Lemma dirChange_turn_or_step cur face step dirs g :
  dirChange cur face step = Ok (dirs, g) -> Forall turn_or_step dirs.
Proof.
  unfold dirChange. destruct (getTargetFace cur step) as [t| |]; [|done|done].
  simpl. destruct face, t; vm_compute; intros [= <- <-];
    repeat (apply Forall_cons; split; [auto|]); apply Forall_nil_2.
Qed.

Lemma getActions_loop_turn_or_step path : forall a f acts,
  getActions_loop a f path = Ok acts -> Forall turn_or_step acts.
Proof.
  induction path as [|b path IH]; intros a f acts H; simpl in H.
  - injection H as <-. constructor.
  - destruct (dirChange a f b) as [[dirs g]| |] eqn:Hd; [|done|done]. simpl in H.
    destruct (getActions_loop b g path) as [rest| |] eqn:Hrest; [|done|done].
    simpl in H. injection H as <-.
    apply Forall_app. split; [by eapply dirChange_turn_or_step|].
    constructor; [unfold turn_or_step; auto|by eapply IH].
Qed.

Lemma bfs_loop_turn_or_step fuel wfuel m root target radius mode : forall s acts tgt,
  bfs_loop fuel wfuel m root target radius mode s = Ok (acts, tgt) ->
  Forall turn_or_step acts.
Proof.
  induction fuel as [|fuel IH]; intros s acts tgt H; simpl in H; [done|].
  destruct (bfs_step wfuel m root target radius mode s) as [s'|out] eqn:Hstep.
  - by eapply IH.
  - subst out. unfold bfs_step in Hstep.
    destruct (Q s) as [|v Q']; [injection Hstep as [= <-]; constructor|].
    destruct (within_radius radius (r s)); [|injection Hstep as [= <-]; constructor].
    destruct (targetFound m v target) as [[|]| |]; try done.
    + injection Hstep as Hstep.
      destruct (walk_back wfuel (Visited s) v) as [path| |]; [|done|done].
      simpl in Hstep. unfold getActions in Hstep.
      destruct (description m) as [d|]; [|done].
      destruct (getActions_loop root (facing d) (rev (removelast path))) as [a| |] eqn:Ha;
        [|done|done].
      simpl in Hstep. injection Hstep as <- _. by eapply getActions_loop_turn_or_step.
    + destruct (rbind (getNeighbours m v mode) _) as [st| |]; done.
Qed.

(** The plans that the searches return hold turns and moves only. *)
Lemma findTarget_turn_or_step m target radius acts tgt :
  findTarget m target radius = Ok (acts, tgt) -> Forall turn_or_step acts.
Proof.
  unfold findTarget. destruct (position m) as [p|].
  - unfold shortestPath. destruct (bfs_init m p) as [s0| |]; [|done|done].
    unfold rbind. apply bfs_loop_turn_or_step.
  - by destruct (initVisited m).
Qed.

Lemma turn_or_step_possible acts :
  Forall turn_or_step acts -> Forall (fun a => a ∈ POSSIBLE_ACTIONS) acts.
Proof.
  intros H. eapply Forall_impl; [exact H|].
  intros a [-> | [-> | ->]]; unfold POSSIBLE_ACTIONS; rewrite !elem_of_cons; auto.
Qed.

(** ** [choice] and [decide] *)

(** What a turn may change in the knowledge base apart from the queue and
    the map: the round counter, by the forced scan only. *)
Definition counters_kept (kb kb' : KnowledgeBase) : Prop :=
  tileNeighbourhood kb' = tileNeighbourhood kb /\
  round_counter kb <= round_counter kb' <= Z.max 3 (round_counter kb).

Lemma frame_counters kb kb' : frame kb kb' -> counters_kept kb kb'.
Proof. intros (_ & Hn & Hr). split; [done|]. lia. Qed.

Lemma followTarget_plan kb pick :
  plan_ok kb ->
  match followTarget kb pick with
  | Returns a kb' => a ∈ POSSIBLE_ACTIONS /\ plan_ok kb'
  | Throws _ kb' => plan_ok kb'
  | Hangs => False
  end.
Proof.
  intros Hplan. pose proof (followTarget_cases kb pick) as H.
  destruct (followTarget kb pick) as [a kb'|e kb'|]; [| |done].
  - destruct H as (_ & [(Hq & _ & _)|(Hq & _ & tile & _ & ->)]).
    + unfold plan_ok in *. rewrite Hq in Hplan. by apply Forall_cons in Hplan.
    + split; [apply fallback_possible|]. unfold plan_ok. rewrite Hq. constructor.
  - destruct H as (_ & n & Hq). unfold plan_ok in *. rewrite Hq. by apply Forall_drop.
Qed.

Lemma followTarget_step kb pick kb' front :
  inFrontTile kb = Ok front ->
  followTarget kb pick = Returns STEP_FORWARD kb' -> tilePassable front = true.
Proof.
  intros Hfront Hrun. pose proof (followTarget_cases kb pick) as H. rewrite Hrun in H.
  destruct H as (_ & [(_ & _ & Hstep)|(_ & _ & tile & Htile & Ha)]).
  - destruct (stepPossible_step kb Hstep) as (tile & Htile & Hp & _). congruence.
  - rewrite Hfront in Htile. injection Htile as <-. symmetry in Ha.
    by eapply fallback_step.
Qed.

(** The guarded block of [choice]. *)
Lemma choice_body_cases kb m front pick :
  mapBase kb = Some m -> inFrontTile kb = Ok front ->
  match choice_body kb m front pick with
  | Returns a kb' =>
      mapBase kb' = mapBase kb /\ counters_kept kb kb' /\
      (a = STEP_FORWARD -> tilePassable front = true) /\
      (plan_ok kb -> a ∈ POSSIBLE_ACTIONS /\ plan_ok kb')
  | Throws _ kb' =>
      mapBase kb' = mapBase kb /\ counters_kept kb kb' /\ (plan_ok kb -> plan_ok kb')
  | Hangs => True
  end.
Proof.
  intros Hm Hfront. unfold choice_body.
  assert (Hrefl : counters_kept kb kb) by (split; [done|lia]).
  destruct (findTarget m _ (Some (tileNeighbourhood kb))) as [[pp pt]| |] eqn:Hpotion;
    [|done|done].
  destruct (tile_character_attr front) as [[occ|]| |]; [| |done|done].
  { do 2 (split; [done|]). split; [done|]. intros Hp. split; [|done].
    unfold POSSIBLE_ACTIONS. rewrite !elem_of_cons. auto. }
  destruct (Z.ltb_spec (round_counter kb) 3) as [Hlt|Hge].
  { split; [done|]. split; [split; simpl; [done|lia]|]. split; [done|].
    intros Hp. split; [|done]. unfold POSSIBLE_ACTIONS. rewrite !elem_of_cons. auto. }
  assert (Hfollow : forall kb0,
            mapBase kb0 = mapBase kb -> tileNeighbourhood kb0 = tileNeighbourhood kb ->
            round_counter kb0 = round_counter kb -> (plan_ok kb -> plan_ok kb0) ->
            match followTarget kb0 pick with
            | Returns a kb' =>
                mapBase kb' = mapBase kb /\ counters_kept kb kb' /\
                (a = STEP_FORWARD -> tilePassable front = true) /\
                (plan_ok kb -> a ∈ POSSIBLE_ACTIONS /\ plan_ok kb')
            | Throws _ kb' =>
                mapBase kb' = mapBase kb /\ counters_kept kb kb'
                /\ (plan_ok kb -> plan_ok kb')
            | Hangs => True
            end).
  { intros kb0 Hm0 Hn0 Hr0 Hp0.
    pose proof (followTarget_cases kb0 pick) as Hc.
    pose proof (followTarget_plan kb0 pick) as Hpl.
    assert (Hf0 : inFrontTile kb0 = Ok front)
      by (by rewrite (inFrontTile_same_map kb kb0 Hm0)).
    destruct (followTarget kb0 pick) as [a kb'|e kb'|] eqn:Hrun; [| |done].
    - destruct Hc as ((Hm' & Hn' & Hr') & _).
      split; [congruence|]. split; [split; [congruence|lia]|].
      split; [intros ->; by eapply followTarget_step|]. auto.
    - destruct Hc as ((Hm' & Hn' & Hr') & _).
      split; [congruence|]. split; [split; [congruence|lia]|]. auto. }
  destruct (0 <? Z.of_nat (length (actionsToMake kb))).
  { by apply Hfollow. }
  destruct (if bool_decide (pp <> []) then _ else _) as [[|]| |]; [| |done|done].
  { apply Hfollow; try done. intros _. unfold plan_ok. simpl.
    apply turn_or_step_possible. by eapply findTarget_turn_or_step. }
  destruct (menhir m) as [mh|].
  2: { do 2 (split; [done|]). split; [apply fallback_step|].
       intros Hp. split; [apply fallback_possible|done]. }
  destruct (findTarget m (TCoords mh) None) as [[acts tgt]| |] eqn:Hmenhir; [|done|done].
  cbv zeta. destruct (_ <? _).
  - apply Hfollow; try done. intros _. unfold plan_ok. simpl.
    apply turn_or_step_possible. by eapply findTarget_turn_or_step.
  - do 2 (split; [done|]). split; [apply fallback_step|].
    intros Hp. split; [apply fallback_possible|]. unfold plan_ok. simpl. constructor.
Qed.

Lemma choice_cases kb pick :
  match choice kb pick with
  | Returns a kb' =>
      mapBase kb' = mapBase kb /\ counters_kept kb kb' /\
      (a = STEP_FORWARD ->
       exists tile, inFrontTile kb = Ok tile /\ tilePassable tile = true) /\
      (plan_ok kb -> a ∈ POSSIBLE_ACTIONS /\ plan_ok kb')
  | Throws _ kb' => kb' = kb
  | Hangs => True
  end.
Proof.
  unfold choice. destruct (inFrontTile kb) as [front| |] eqn:Hfront; [|done|done].
  destruct (mapBase kb) as [m|] eqn:Hm; [|done].
  pose proof (choice_body_cases kb m front pick Hm Hfront) as H.
  destruct (choice_body kb m front pick) as [a kb'|e kb'|]; simpl; [| |done].
  - destruct H as (Hm' & Hc & Hs & Hp). rewrite Hm in Hm'.
    split; [done|]. split; [done|]. split; [|done].
    intros Ha. exists front. auto.
  - destruct H as (Hm' & Hc & Hp). rewrite Hm in Hm'.
    split; [done|]. split; [done|]. split.
    + intros Ha. exists front. split; [done|]. by eapply fallback_step.
    + intros Hpl. split; [apply fallback_possible|auto].
Qed.

Lemma update_tiles_size vt : forall m,
  match update_tiles m vt with
  | Returns _ m' | Throws _ m' => MAPSIZE m' = MAPSIZE m
  | Hangs => True
  end.
Proof.
  induction vt as [|[c0 t0] vt IH]; intros m; simpl; [done|].
  destruct (py_set2 (map m) _ _ _) as [g| |]; simpl; [|done|done].
  set (m2 := match menhir m with Some _ => _ | None => _ end).
  specialize (IH m2).
  assert (MAPSIZE m2 = MAPSIZE m) as Hsz.
  { unfold m2. destruct (menhir m); [done|]. by destruct (String.eqb _ _). }
  destruct (update_tiles m2 vt); congruence.
Qed.

Lemma KnowledgeBase_update_cases kb k :
  match KnowledgeBase_update kb k with
  | Returns _ kb' | Throws _ kb' =>
      round_counter kb' = round_counter kb /\ actionsToMake kb' = actionsToMake kb /\
      actionsTarget kb' = actionsTarget kb /\
      tileNeighbourhood kb' = tileNeighbourhood kb /\
      MAPSIZE <$> mapBase kb' = MAPSIZE <$> mapBase kb
  | Hangs => True
  end.
Proof.
  unfold KnowledgeBase_update. destruct (mapBase kb) as [m|] eqn:Hm; [|by rewrite Hm].
  assert (Hsz : match Map_update m k with
                | Returns _ m' | Throws _ m' => MAPSIZE m' = MAPSIZE m
                | Hangs => True
                end).
  { unfold Map_update. destruct (dict_get (visible_tiles k) (k_position k)); simpl;
      [|done|done].
    set (m2 := mkMap _ _ _ _ _ _ _ _).
    exact (update_tiles_size (visible_tiles k) m2). }
  destruct (Map_update m k) as [[] m'|e m'|]; simpl; [| |done]; by rewrite Hsz.
Qed.

(** X17: whenever [decide] returns move-forward, the tile that is read
    ahead on the updated map, at the position plus the unit vector of the
    facing, is recorded and passable, and it is the tile of the cell ahead
    whenever that cell lies in the map: within the map neither the queued
    plan nor the fallback moves the champion towards a cell that is
    recorded as impassable or is not recorded.  (At the first column
    facing left and at the first row facing up the read wraps around to
    the opposite border, and nothing is said of the cell ahead.) *)
Theorem decide_steps_onto_passable (kb : KnowledgeBase) (k : ChampionKnowledge)
    (pick : nat) (kb' : KnowledgeBase)
    (Hrun : AresController_decide kb k pick = Returns STEP_FORWARD kb') :
  exists m c tile,
    mapBase kb' = Some m /\ inFrontCoords kb' = Ok c /\
    inFrontTile kb' = Ok (Some tile) /\ tilePassable (Some tile) = true /\
    (isInMap m c = true -> gget (map m) c = Some (Some tile)).
Proof.
  unfold AresController_decide in Hrun.
  destruct (KnowledgeBase_update kb k) as [[] kb1|e kb1|]; [|done|done].
  pose proof (choice_cases kb1 pick) as H. rewrite Hrun in H.
  destruct H as (Hm & _ & Hs & _). destruct (Hs eq_refl) as (tile & Htile & Hp).
  destruct tile as [tile|]; [|done].
  rewrite <- (inFrontTile_same_map kb1 kb' Hm) in Htile.
  destruct (inFrontTile_cell kb' _ Htile) as (m & c & Hmap & Hc & Hcell).
  by exists m, c, tile.
Qed.

(** X18: a turn never changes the neighbourhood constant or the size of
    the map, and the round counter never decreases and grows by the forced
    scan only, so it does not pass 3 once it is at most 3; this holds
    whether [decide] returns or raises. *)
Theorem decide_keeps_counters (kb : KnowledgeBase) (k : ChampionKnowledge) (pick : nat) :
  match AresController_decide kb k pick with
  | Returns _ kb' | Throws _ kb' =>
      tileNeighbourhood kb' = tileNeighbourhood kb /\
      round_counter kb <= round_counter kb' <= Z.max 3 (round_counter kb) /\
      MAPSIZE <$> mapBase kb' = MAPSIZE <$> mapBase kb
  | Hangs => True
  end.
Proof.
  unfold AresController_decide.
  pose proof (KnowledgeBase_update_cases kb k) as Hu.
  destruct (KnowledgeBase_update kb k) as [[] kb1|e kb1|]; [| |done].
  - destruct Hu as (Hr & _ & _ & Hn & Hsz).
    pose proof (choice_cases kb1 pick) as H.
    destruct (choice kb1 pick) as [a kb'|e kb'|]; [| |done].
    + destruct H as (Hm & (Hn' & Hr') & _). rewrite Hm. split; [congruence|].
      split; [lia|done].
    + subst kb'. split; [done|]. split; [lia|done].
  - destruct Hu as (Hr & _ & _ & Hn & Hsz). split; [done|]. split; [lia|done].
Qed.

(** X19: the actions of [POSSIBLE_ACTIONS] are an invariant of the queue:
    when the queue holds only such actions, as it does in a new knowledge
    base, the action that [decide] returns is one of them (never
    do-nothing) and the queue holds only such actions afterwards, also
    when [decide] raises. *)
Theorem decide_possible_actions (kb : KnowledgeBase) (k : ChampionKnowledge)
    (pick : nat)
    (Hplan : Forall (fun a => a ∈ POSSIBLE_ACTIONS) (actionsToMake kb)) :
  actionsToMake KnowledgeBase_init = [] /\
  match AresController_decide kb k pick with
  | Returns a kb' =>
      a ∈ POSSIBLE_ACTIONS /\ Forall (fun a => a ∈ POSSIBLE_ACTIONS) (actionsToMake kb')
  | Throws _ kb' => Forall (fun a => a ∈ POSSIBLE_ACTIONS) (actionsToMake kb')
  | Hangs => True
  end.
Proof.
  split; [done|]. unfold AresController_decide.
  pose proof (KnowledgeBase_update_cases kb k) as Hu.
  destruct (KnowledgeBase_update kb k) as [[] kb1|e kb1|]; [| |done].
  - destruct Hu as (_ & Hq & _).
    assert (Hp1 : plan_ok kb1) by (unfold plan_ok; by rewrite Hq).
    pose proof (choice_cases kb1 pick) as H.
    destruct (choice kb1 pick) as [a kb'|e kb'|]; [| |done].
    + destruct H as (_ & _ & _ & Hp). by apply Hp.
    + by subst kb'.
  - destruct Hu as (_ & Hq & _). by rewrite Hq.
Qed.

Definition kb_walking : KnowledgeBase :=
  mkKB (Some map_corner) 3 [STEP_FORWARD; TURN_RIGHT] (Some (coordinates.mk 1 1)) 16.

Lemma decide_steps_onto_passable_witness :
  let kb' := mkKB (mapBase (updated kb_walking (look (coordinates.mk 0 0) RIGHT [])))
                  3 [TURN_RIGHT] (Some (coordinates.mk 1 1)) 16 in
  exists m c tile,
    mapBase kb' = Some m /\ inFrontCoords kb' = Ok c /\
    inFrontTile kb' = Ok (Some tile) /\ tilePassable (Some tile) = true /\
    (isInMap m c = true -> gget (map m) c = Some (Some tile)).
Proof.
  apply (decide_steps_onto_passable kb_walking (look (coordinates.mk 0 0) RIGHT []) 0).
  vm_compute. reflexivity.
Defined.

Lemma decide_possible_actions_witness :
  actionsToMake KnowledgeBase_init = [] /\
  match AresController_decide kb_walking (look (coordinates.mk 0 0) RIGHT []) 0 with
  | Returns a kb' =>
      a ∈ POSSIBLE_ACTIONS /\ Forall (fun a => a ∈ POSSIBLE_ACTIONS) (actionsToMake kb')
  | Throws _ kb' => Forall (fun a => a ∈ POSSIBLE_ACTIONS) (actionsToMake kb')
  | Hangs => True
  end.
Proof.
  apply (decide_possible_actions kb_walking (look (coordinates.mk 0 0) RIGHT []) 0).
  unfold kb_walking, POSSIBLE_ACTIONS. simpl.
  repeat (apply Forall_cons; split; [rewrite !elem_of_cons; auto|]). apply Forall_nil_2.
Defined.

(** ** The life cycle of the knowledge base *)

(** X20: a knowledge base must be reset and updated before it is asked for
    an action: [decide] on a new knowledge base raises AttributeError,
    since there is no map yet, and after a [reset] that returned, [choice]
    raises AttributeError until the first [update], since the map has no
    description of the champion; the knowledge base is left as it was. *)
Theorem choice_before_first_update (kb : KnowledgeBase) (a : Arena)
    (kb' : KnowledgeBase) (k : ChampionKnowledge) (pick : nat)
    (Hreset : KnowledgeBase_reset kb a = Returns tt kb') :
  choice kb' pick = Throws AttributeError kb' /\
  AresController_decide KnowledgeBase_init k pick
  = Throws AttributeError KnowledgeBase_init.
Proof.
  split; [|done].
  unfold KnowledgeBase_reset, Map_init in Hreset.
  destruct (initMap (size a) (terrain a)) as [g| |]; [|done|done].
  simpl in Hreset. injection Hreset as <-. done.
Qed.

Lemma choice_before_first_update_witness :
  choice kb_fresh 0 = Throws AttributeError kb_fresh /\
  AresController_decide KnowledgeBase_init (look (coordinates.mk 0 0) RIGHT []) 0
  = Throws AttributeError KnowledgeBase_init.
Proof.
  apply (choice_before_first_update KnowledgeBase_init (open_arena 3 3)).
  vm_compute. reflexivity.
Defined.

(** ** The tile ahead at the border of the map *)

Lemma py_get_last {A} (l : list A) a :
  l !! (length l - 1)%nat = Some a -> (0 < length l)%nat -> py_get l (-1) = Ok a.
Proof.
  intros Hl Hlen. unfold py_get. simpl.
  destruct (Z.leb_spec 0 (-1 + Z.of_nat (length l))); [|lia].
  destruct (Z.ltb_spec (-1 + Z.of_nat (length l)) (Z.of_nat (length l))); [|lia].
  simpl. replace (Z.to_nat (-1 + Z.of_nat (length l))) with (length l - 1)%nat by lia.
  by rewrite Hl.
Qed.

Lemma py_get_past {A} (l : list A) : py_get l (Z.of_nat (length l)) = Raise IndexError.
Proof.
  unfold py_get. destruct (Z.ltb_spec (Z.of_nat (length l)) 0); [lia|].
  destruct (Z.ltb_spec (Z.of_nat (length l)) (Z.of_nat (length l))); [lia|].
  by rewrite andb_false_r.
Qed.

(** X21: with the champion on a cell of a well-formed map, the tile ahead
    is the cell of the map in front of it whenever that cell is in the map;
    at the last column facing right and at the last row facing down the
    read of the tile ahead raises IndexError, which [choice] does not
    catch; at the first column facing left and at the first row facing up
    the index -1 wraps around and the tile ahead is read from the last
    column, or the last row, of the map. *)
Theorem inFrontTile_at_border (kb : KnowledgeBase) (m : Map) (p : Coords)
    (d : ChampionDescription) (pick : nat)
    (Hmap : mapBase kb = Some m) (Hwf : wf_map m)
    (Hpos : position m = Some p) (Hin : isInMap m p = true)
    (Hdsc : description m = Some d) :
  let front := coordinates.add (value (facing d)) p in
  (isInMap m front = true ->
   exists tile, gget (map m) front = Some tile /\ inFrontTile kb = Ok tile) /\
  ((facing d = RIGHT /\ coordinates.x p = fst (MAPSIZE m) - 1) \/
   (facing d = DOWN /\ coordinates.y p = snd (MAPSIZE m) - 1) ->
   inFrontTile kb = Raise IndexError /\ choice kb pick = Throws IndexError kb) /\
  (facing d = LEFT -> coordinates.x p = 0 ->
   exists tile,
     gget (map m) (coordinates.mk (fst (MAPSIZE m) - 1) (coordinates.y p)) = Some tile /\
     inFrontTile kb = Ok tile) /\
  (facing d = UP -> coordinates.y p = 0 ->
   exists tile,
     gget (map m) (coordinates.mk (coordinates.x p) (snd (MAPSIZE m) - 1)) = Some tile /\
     inFrontTile kb = Ok tile).
Proof.
  intros front.
  assert (Hfront : inFrontTile kb
                   = py_get2 (map m) (coordinates.x front) (coordinates.y front)).
  { unfold inFrontTile, inFrontCoords. by rewrite Hmap, Hdsc, Hpos. }
  pose proof Hwf as [Hlen Hrows]. apply isInMap_spec in Hin as [Hx Hy].
  destruct (isInMap_gget m p Hwf) as [own Hown]; [apply isInMap_spec; lia|].
  assert (Hrow : exists row, map m !! Z.to_nat (coordinates.x p) = Some row
                             /\ length row = Z.to_nat (snd (MAPSIZE m))).
  { destruct (lookup_lt_is_Some_2 (map m) (Z.to_nat (coordinates.x p))) as [row Hrow];
      [lia|].
    exists row. split; [done|]. by eapply (proj1 (Forall_lookup _ _)) in Hrows. }
  destruct Hrow as (row & Hrow & Hrowlen).
  split; [|split; [|split]].
  - intros Hf. destruct (isInMap_gget m front Hwf Hf) as [tile Htile].
    exists tile. split; [done|]. rewrite Hfront. by apply py_get2_gget.
  - intros Hcase.
    assert (Hraise : inFrontTile kb = Raise IndexError).
    { rewrite Hfront. unfold front, py_get2.
      destruct Hcase as [[-> Hpx]|[-> Hpy]]; simpl; rewrite ?Z.add_0_l.
      - replace (1 + coordinates.x p) with (Z.of_nat (length (map m))) by lia.
        by rewrite py_get_past.
      - rewrite (py_get_nonneg (map m) (coordinates.x p) row (proj1 Hx) Hrow). simpl.
        replace (1 + coordinates.y p) with (Z.of_nat (length row)) by lia.
        by rewrite py_get_past. }
    split; [done|]. unfold choice. by rewrite Hraise.
  - intros Hf Hpx.
    destruct (isInMap_gget m (coordinates.mk (fst (MAPSIZE m) - 1) (coordinates.y p)) Hwf)
      as [tile Htile]; [apply isInMap_spec; simpl; lia|].
    exists tile. split; [done|]. rewrite Hfront. unfold front. rewrite Hf. simpl.
    rewrite Hpx, ?Z.add_0_l, ?Z.add_0_r.
    unfold gget in Htile. simpl in Htile.
    destruct (Z.leb_spec 0 (fst (MAPSIZE m) - 1)); [|lia].
    destruct (Z.leb_spec 0 (coordinates.y p)); [|lia]. simpl in Htile.
    destruct (map m !! Z.to_nat (fst (MAPSIZE m) - 1)) as [row'|] eqn:Hrow'; [|done].
    unfold py_get2. rewrite (py_get_last (map m) row'); [|by rewrite <- Hrow'; f_equal; lia|lia].
    simpl. by apply py_get_nonneg.
  - intros Hf Hpy.
    destruct (isInMap_gget m (coordinates.mk (coordinates.x p) (snd (MAPSIZE m) - 1)) Hwf)
      as [tile Htile]; [apply isInMap_spec; simpl; lia|].
    exists tile. split; [done|]. rewrite Hfront. unfold front. rewrite Hf. simpl.
    rewrite Hpy, ?Z.add_0_l, ?Z.add_0_r.
    unfold gget in Htile. simpl in Htile.
    destruct (Z.leb_spec 0 (coordinates.x p)); [|lia].
    destruct (Z.leb_spec 0 (snd (MAPSIZE m) - 1)); [|lia]. simpl in Htile.
    rewrite Hrow in Htile.
    unfold py_get2. rewrite (py_get_nonneg (map m) (coordinates.x p) row (proj1 Hx) Hrow).
    simpl. apply py_get_last; [|lia]. rewrite <- Htile. f_equal. lia.
Qed.

Lemma inFrontTile_at_border_witness :
  let kb := mkKB (Some map_corner_left) 3 [] None 16 in
  let m := map_corner_left in
  let p := coordinates.mk 0 0 in
  let d := ares LEFT in
  let front := coordinates.add (value (facing d)) p in
  (isInMap m front = true ->
   exists tile, gget (map m) front = Some tile /\ inFrontTile kb = Ok tile) /\
  ((facing d = RIGHT /\ coordinates.x p = fst (MAPSIZE m) - 1) \/
   (facing d = DOWN /\ coordinates.y p = snd (MAPSIZE m) - 1) ->
   inFrontTile kb = Raise IndexError /\ choice kb 0 = Throws IndexError kb) /\
  (facing d = LEFT -> coordinates.x p = 0 ->
   exists tile,
     gget (map m) (coordinates.mk (fst (MAPSIZE m) - 1) (coordinates.y p)) = Some tile /\
     inFrontTile kb = Ok tile) /\
  (facing d = UP -> coordinates.y p = 0 ->
   exists tile,
     gget (map m) (coordinates.mk (coordinates.x p) (snd (MAPSIZE m) - 1)) = Some tile /\
     inFrontTile kb = Ok tile).
Proof.
  apply (inFrontTile_at_border (mkKB (Some map_corner_left) 3 [] None 16)
           map_corner_left (coordinates.mk 0 0) (ares LEFT) 0).
  - reflexivity.
  - split; [reflexivity|]. vm_compute. repeat constructor.
  - reflexivity.
  - reflexivity.
  - reflexivity.
Defined.








(** * Further properties of the search *)

Lemma last_cons_default (a v : Coords) path :
  last (a :: path) = Some v -> default a (last path) = v.
Proof. rewrite last_cons. destruct (last path); by intros [= ->]. Qed.

(** X23: a radius bounds the length of the plan: the action sequence that
    [shortestPath] returns under the radius [rad] holds at most [rad]
    moves; under a negative radius the loop is not entered and the result
    is the empty sequence with [self.position], whatever the goal. *)
Theorem shortestPath_radius_moves (m : Map) (root : Coords) (target : Target)
    (rad : Z) (mode : string)
    (Hwf : wf_map m) (Hroot : isInMap m root = true) :
  (rad < 0 -> shortestPath m root target (Some rad) mode = Ok ([], position m)) /\
  (forall acts tgt,
      shortestPath m root target (Some rad) mode = Ok (acts, tgt) ->
      Z.of_nat (moves acts) <= Z.max 0 rad).
Proof.
  destruct (shortestPath_exit m root target (Some rad) mode Hwf Hroot)
    as (s0 & s & _ & _ & HI & Hexit).
  assert (Hr : 0 <= r s) by (destruct HI as [d HD]; apply (inv_r _ _ _ _ _ _ HD)).
  destruct Hexit as [HQ ->|v Q' HQ Hrad ->|v Q' e HQ Hrad Hraise ->
                    |v Q' d path HQ Hrad Hfound HD Hl Hlast Hlen Hnd _ _ ->].
  - split; [done|]. intros acts tgt [= <- _]. change (moves []) with 0%nat. lia.
  - split; [done|]. intros acts tgt [= <- _]. change (moves []) with 0%nat. lia.
  - simpl in Hrad. apply Z.leb_le in Hrad. split; [lia|done].
  - simpl in Hrad. apply Z.leb_le in Hrad. split; [lia|].
    intros acts tgt Hrun.
    assert (Hvv : vis (Visited s) v).
    { apply (inv_queue _ _ _ _ _ _ HD). rewrite HQ. apply list_elem_of_here. }
    pose proof (inv_depth _ _ _ _ _ _ HD v Hvv) as Hd.
    unfold getActions in Hrun. destruct (description m) as [dsc|]; [|done].
    destruct (getActions_loop_linked path root (facing dsc) Hl) as (acts' & Hacts & Hm & _).
    rewrite Hacts in Hrun. simpl in Hrun. injection Hrun as <- _. lia.
Qed.

Lemma shortestPath_radius_moves_witness :
  (1 < 0 -> shortestPath map_corner (coordinates.mk 0 0) potion (Some 1) ""
            = Ok ([], position map_corner)) /\
  (forall acts tgt,
      shortestPath map_corner (coordinates.mk 0 0) potion (Some 1) "" = Ok (acts, tgt) ->
      Z.of_nat (moves acts) <= Z.max 0 1).
Proof.
  apply (shortestPath_radius_moves map_corner (coordinates.mk 0 0) potion 1 "").
  - split; [reflexivity|]. vm_compute. repeat constructor.
  - reflexivity.
Defined.

(** X24: for any goal whose test does not raise on recorded tiles, when a
    cell that satisfies the goal can be reached from the root, the search
    without radius returns a plan to a nearest such cell: the cell it
    names satisfies the goal, the number of moves of the plan is the
    length of a walk to it, and no cell that satisfies the goal is reached
    by a shorter walk. *)
Theorem shortestPath_nearest (m : Map) (root : Coords) (target : Target)
    (mode : string) (dsc : ChampionDescription) (t : Coords) (n0 : nat)
    (Hwf : wf_map m) (Hroot : isInMap m root = true) (Hknown : known m root)
    (Hdsc : description m = Some dsc) (Hsafe : target_safe m target)
    (Hreach : walk m root mode t n0) (Hgoal : targetFound m t target = Ok true) :
  exists acts v,
    shortestPath m root target None mode = Ok (acts, Some v) /\
    targetFound m v target = Ok true /\
    walk m root mode v (moves acts) /\
    (forall c n, walk m root mode c n -> targetFound m c target = Ok true ->
                 (moves acts <= n)%nat).
Proof.
  destruct (shortestPath_exit m root target None mode Hwf Hroot)
    as (s0 & s & _ & _ & HI & Hexit).
  destruct Hexit as [HQ ->|v Q' HQ Hrad ->|v Q' e HQ Hrad Hraise ->
                    |v Q' d path HQ Hrad Hfound HD Hl Hlast Hlen Hnd _ _ ->].
  - pose proof (exhausted_seen _ _ _ _ _ _ _ HI HQ Hreach). congruence.
  - done.
  - exfalso. destruct (Hsafe v) as [b Hb]; [|congruence].
    destruct (popped_known _ _ _ _ _ _ _ HI HQ) as [->|]; done.
  - unfold getActions. rewrite Hdsc.
    destruct (getActions_loop_linked path root (facing dsc) Hl) as (acts & Hacts & Hm & _).
    rewrite Hacts. simpl. exists acts, v. split; [done|]. split; [done|].
    assert (Hvv : vis (Visited s) v).
    { apply (inv_queue _ _ _ _ _ _ HD). rewrite HQ. apply list_elem_of_here. }
    rewrite Hm, Hlen. split; [by eapply vis_walk|].
    intros c n Hw Hc.
    assert (HinQ : forall y, y ∈ Q s -> (d v <= d y)%nat).
    { intros y Hy. by eapply head_minimal. }
    destruct (gget (Visited s) c) as [[| |p]|] eqn:Hgc.
    4: { destruct (first_unvisited _ _ _ _ d s c n HD Hw) as (y & i & Hi & Hy & HyQ).
         { intros [p Hp]. congruence. }
         pose proof (HinQ y HyQ).
         pose proof (inv_opt _ _ _ _ _ _ HD y i (inv_queue _ _ _ _ _ _ HD y HyQ) Hy). lia. }
    1,2: destruct (first_unvisited _ _ _ _ d s c n HD Hw) as (y & i & Hi & Hy & HyQ);
         [intros [p Hp]; congruence|];
         pose proof (HinQ y HyQ);
         pose proof (inv_opt _ _ _ _ _ _ HD y i (inv_queue _ _ _ _ _ _ HD y HyQ) Hy); lia.
    assert (Hvc : vis (Visited s) c) by (by exists p).
    destruct (decide (c ∈ Q s)) as [HcQ|HcQ].
    + pose proof (HinQ c HcQ). pose proof (inv_opt _ _ _ _ _ _ HD c n Hvc Hw). lia.
    + pose proof (inv_seen _ _ _ _ _ _ HD c Hvc HcQ). congruence.
Qed.

(** The champion at (0,0) of an open 3x3 arena faces right and sees a
    potion two cells ahead. *)
Definition map_potion : Map :=
  map_seen (open_arena 3 3)
           (look (coordinates.mk 0 0) RIGHT [(coordinates.mk 2 0, potion_tile)]).

Lemma shortestPath_nearest_witness :
  exists acts v,
    shortestPath map_potion (coordinates.mk 0 0) potion None "" = Ok (acts, Some v) /\
    targetFound map_potion v potion = Ok true /\
    walk map_potion (coordinates.mk 0 0) "" v (moves acts) /\
    (forall c n, walk map_potion (coordinates.mk 0 0) "" c n ->
                 targetFound map_potion c potion = Ok true -> (moves acts <= n)%nat).
Proof.
  apply (shortestPath_nearest map_potion (coordinates.mk 0 0) potion "" (ares RIGHT)
           (coordinates.mk 2 0) 2).
  - split; [reflexivity|]. vm_compute. repeat constructor.
  - reflexivity.
  - eexists. reflexivity.
  - reflexivity.
  - apply target_safe_TConsumable.
  - apply (walk_step _ _ _ (coordinates.mk 1 0)).
    + apply (walk_step _ _ _ (coordinates.mk 0 0)); [constructor|].
      split; [vm_compute; repeat constructor|].
      split; [reflexivity|eexists; reflexivity].
    + split; [vm_compute; repeat constructor|].
      split; [reflexivity|eexists; reflexivity].
  - reflexivity.
Defined.

(** X25: a plan that [shortestPath] returns leads to the cell it names:
    carried out from the root with the champion's facing, the actions of a
    non-empty plan step only onto cells of the map that hold a recorded
    tile, which is passable and not in the mist when [mode] is the empty
    string, never onto the same cell twice, and end on the cell returned
    with the plan, which satisfies the goal. *)
Theorem shortestPath_plan_reaches (m : Map) (root : Coords) (target : Target)
    (radius : option Z) (mode : string) (dsc : ChampionDescription)
    (acts : list Action) (v : Coords)
    (Hwf : wf_map m) (Hroot : isInMap m root = true)
    (Hdsc : description m = Some dsc)
    (Hrun : shortestPath m root target radius mode = Ok (acts, Some v))
    (Hplan : acts <> []) :
  targetFound m v target = Ok true /\
  fst (run (root, facing dsc) acts) = v /\
  NoDup (root :: stops (root, facing dsc) acts) /\
  Forall (fun c => isInMap m c = true /\
                   exists tile, gget (map m) c = Some (Some tile) /\
                     (mode = "" -> tilePassable (Some tile) = true
                                   /\ tileIsMist (Some tile) = Ok false))
         (stops (root, facing dsc) acts).
Proof.
  destruct (shortestPath_exit m root target radius mode Hwf Hroot)
    as (s0 & s & _ & _ & HI & Hexit).
  rewrite Hrun in Hexit.
  destruct Hexit as [HQ [= Ha _]|v' Q' HQ Hrad [= Ha _]|v' Q' e HQ Hrad Hraise Hout
                    |v' Q' d path HQ Hrad Hfound HD Hl Hlast Hlen Hnd Hcells _ Hout];
    [done|done|done|].
  unfold getActions in Hout. rewrite Hdsc in Hout.
  destruct (getActions_loop_run path root (facing dsc) Hl) as (acts' & Hacts & Hstops & Hr).
  rewrite Hacts in Hout. simpl in Hout. injection Hout as -> ->.
  split; [done|]. rewrite Hr, Hstops. simpl.
  split; [by apply last_cons_default|]. split; [done|].
  apply Forall_forall. intros c Hc. destruct (Hcells c Hc) as [Hent [tile Htile]].
  apply (enterable_spec m mode c Hwf) in Hent as [Hin Hopen].
  split; [done|]. exists tile. split; [done|]. intros ->.
  destruct Hopen as [?|(tile' & Ht' & Hp & Hm)]; [done|].
  rewrite Htile in Ht'. by injection Ht' as <-.
Qed.

Lemma shortestPath_plan_reaches_witness :
  targetFound map_potion (coordinates.mk 2 0) potion = Ok true /\
  fst (run (coordinates.mk 0 0, facing (ares RIGHT)) [STEP_FORWARD; STEP_FORWARD])
  = coordinates.mk 2 0 /\
  NoDup (coordinates.mk 0 0
         :: stops (coordinates.mk 0 0, facing (ares RIGHT)) [STEP_FORWARD; STEP_FORWARD]) /\
  Forall (fun c => isInMap map_potion c = true /\
                   exists tile, gget (map map_potion) c = Some (Some tile) /\
                     ("" = "" -> tilePassable (Some tile) = true
                                 /\ tileIsMist (Some tile) = Ok false))
         (stops (coordinates.mk 0 0, facing (ares RIGHT)) [STEP_FORWARD; STEP_FORWARD]).
Proof.
  apply (shortestPath_plan_reaches map_potion (coordinates.mk 0 0) potion None ""
           (ares RIGHT) [STEP_FORWARD; STEP_FORWARD] (coordinates.mk 2 0)).
  - split; [reflexivity|]. vm_compute. repeat constructor.
  - reflexivity.
  - reflexivity.
  - vm_compute. reflexivity.
  - discriminate.
Defined.


(** ** The identity of a controller *)

(** X26: two controllers are equal for [__eq__] exactly when their names
    are equal, whatever their knowledge bases hold; [__eq__] is reflexive
    and symmetric on controllers and answers False for any other object. *)
Theorem AresController_eq_name (c1 c2 : AresController) :
  (AresController_eq c1 (an_AresController c2) = true
   <-> AresController_name c1 = AresController_name c2) /\
  AresController_eq c1 (an_AresController c1) = true /\
  AresController_eq c1 (an_AresController c2) = AresController_eq c2 (an_AresController c1) /\
  AresController_eq c1 another_object = false.
Proof.
  unfold AresController_eq, AresController_name. split; [|split; [|split]].
  - rewrite String.eqb_eq. split; [by intros ->|]. intros [= H]. exact H.
  - apply String.eqb_refl.
  - apply String.eqb_sym.
  - done.
Qed.
